(** * OptimizationService: route, grouping, assignment, fleet and base placement

    A shallow embedding of [src/js/services/OptimizationService.js] and of
    the distance, route and grouping utilities of
    [src/js/utils/calculations.js], with the properties of them that the
    design document states and further properties read off the code.

    JavaScript numbers are IEEE 754 binary64 values: they are modelled by
    Rocq's primitive floats, whose operations are the same correctly rounded
    ones.  Array lengths, indices and loop counters are natural numbers.
    Arrays are lists; an array that can hold empty slots is a list of
    options.  A function that sorts its argument in place returns the final
    content of that array next to its result.  A function that calls
    [Math.random()] or may throw is a computation in the monad [M], which
    threads the random source and stops at the first exception.

    The file has three parts: the embedding of the service and of the
    utilities, function by function; the vocabulary of the properties; and
    the properties, by component: the optimization pass, fleet sizing,
    statistics, k-means, in-place sorting, grouping, assignment, route
    construction and route refinement, and then the arithmetic of binary64
    numbers with the geometry built on it, the operators of the genetic
    algorithm, facility location, the choice of a drone, the reach and the
    order of the groups, the routes and the statistics of a pass, the
    priority classes, and the utilities. *)

From Stdlib Require Import Floats ZArith Uint63 Lia.
From stdpp Require Import gmap strings list.

Set Warnings "-inexact-float,-clear-no-such-hyp".

(* ===================================================================== *)
(** ** The platform: numbers, [Math], [Array.prototype.sort], exceptions  *)
(* ===================================================================== *)

Module JS.

(** An array length or a small count as a Number (exact below 2^53). *)
Definition of_Z (z : Z) : float :=
  if (z <? 0)%Z then PrimFloat.opp (PrimFloat.of_uint63 (Uint63.of_Z (- z)))
  else PrimFloat.of_uint63 (Uint63.of_Z z).
Definition of_nat (n : nat) : float := of_Z (Z.of_nat n).

Definition is_neg_zero (a : float) : bool :=
  match PrimFloat.classify a with NZero => true | _ => false end.
Definition is_pos_zero (a : float) : bool :=
  match PrimFloat.classify a with PZero => true | _ => false end.

(** [Math.max(...l)]: starts from -Infinity, NaN is contagious, +0 is larger
    than -0 (ECMA-262, 21.3.2.24). *)
Definition max_step (highest number : float) : float :=
  if PrimFloat.is_nan highest || PrimFloat.is_nan number then nan
  else if is_pos_zero number && is_neg_zero highest then number
  else if PrimFloat.ltb highest number then number
  else highest.
Definition Math_max (l : list float) : float := fold_left max_step l neg_infinity.

(** [Math.min(...l)]: starts from +Infinity, NaN is contagious, -0 is smaller
    than +0. *)
Definition min_step (lowest number : float) : float :=
  if PrimFloat.is_nan lowest || PrimFloat.is_nan number then nan
  else if is_neg_zero number && is_pos_zero lowest then number
  else if PrimFloat.ltb number lowest then number
  else lowest.
Definition Math_min (l : list float) : float := fold_left min_step l infinity.

(** [Math.ceil]: the least integral Number not below the argument; zeros,
    infinities and NaN are returned as they are, a result in (-1, 0) is -0. *)
Definition Math_ceil (a : float) : float :=
  match Prim2SF a with
  | S754_finite s m e =>
      if (0 <=? e)%Z then a
      else
        let d := (2 ^ (- e))%Z in
        let q := (Z.pos m / d)%Z in
        let r := (Z.pos m mod d)%Z in
        if s then (if (q =? 0)%Z then neg_zero else PrimFloat.opp (of_Z q))
        else of_Z (if (r =? 0)%Z then q else q + 1)%Z
  | _ => a
  end.

(** [Math.round]: the nearest integral Number, ties towards +Infinity; a
    result in [-0.5, 0) is -0. *)
Definition Math_round (a : float) : float :=
  match Prim2SF a with
  | S754_finite s m e =>
      if (0 <=? e)%Z then a
      else
        let d := (2 ^ (- e))%Z in
        if s then
          let n := (- ((d - 2 * Z.pos m) / (2 * d)))%Z in
          if (n =? 0)%Z then neg_zero else PrimFloat.opp (of_Z n)
        else of_Z ((2 * Z.pos m + d) / (2 * d))%Z
  | _ => a
  end.

(** [a || 0] on Numbers: 0, -0 and NaN are falsy. *)
Definition or_zero (a : float) : float :=
  if PrimFloat.is_nan a || PrimFloat.eqb a 0 then 0%float else a.

(** [Array.prototype.indexOf] on Numbers compares with [===]: NaN is never
    found, +0 and -0 are the same.  [None] is the result -1. *)
Fixpoint indexOf_from (i : nat) (l : list float) (v : float) : option nat :=
  match l with
  | [] => None
  | a :: l' => if PrimFloat.eqb a v then Some i else indexOf_from (S i) l' v
  end.
Definition indexOf (l : list float) (v : float) : option nat := indexOf_from 0 l v.

(** [Array.prototype.sort(compare)], which sorts the array in place and is
    stable.  [compare a b > 0] moves [b] before [a]; a zero or NaN result
    keeps the two in their order.  With a consistent comparator every stable
    sort gives this result.  For a comparator that is not consistent (one
    that returns NaN for some pairs only) ECMA-262 leaves the order to the
    engine, and an engine may leave another permutation than this one: of
    such a call only what holds of every permutation is to be read off the
    model. *)
Section Sort.
Context {A : Type} (compare : A -> A -> float).

Fixpoint sort_insert (a : A) (sorted : list A) : list A :=
  match sorted with
  | [] => [a]
  | b :: rest =>
      if PrimFloat.ltb 0 (compare b a) then a :: b :: rest
      else b :: sort_insert a rest
  end.

Definition sort (l : list A) : list A :=
  fold_left (fun sorted a => sort_insert a sorted) l [].
End Sort.

(** Truthiness of a string-valued property that may be absent. *)
Definition truthy (v : option string) : bool :=
  match v with
  | Some s => negb (bool_decide (s = ""))
  | None => false
  end.

(** [a || b] on such properties. *)
Definition or_else (a b : option string) : option string :=
  if truthy a then a else b.

(** Exceptions raised by the engine. *)
Inductive exn : Type := TypeError | ReferenceError.

(** The random source.  The k-th call of [Math.random()] returns a Number
    [u] in [0, 1).  [Math.floor(Math.random() * n)] is an index below [n]:
    it is read off the draw as [pick mod n], so that every index below [n]
    is a possible outcome and no other. *)
Record draw : Type := Draw { u : float; pick : nat }.
Record rng : Type := Rng { draws : nat -> draw; calls : nat }.

(** Computations that call [Math.random()] and may throw. *)
Inductive outcome (A : Type) : Type :=
  | Returns (a : A) (s : rng)
  | Throws (e : exn).
Arguments Returns {A} a s.
Arguments Throws {A} e.

Definition M (A : Type) : Type := rng -> outcome A.

Definition ret {A} (a : A) : M A := fun s => Returns a s.
Definition throw {A} (e : exn) : M A := fun _ => Throws e.
Definition bind {A B} (m : M A) (k : A -> M B) : M B :=
  fun s => match m s with
           | Returns a s' => k a s'
           | Throws e => Throws e
           end.

(** [Math.random()] *)
Definition Math_random : M float :=
  fun s => Returns (u (draws s (calls s))) (Rng (draws s) (S (calls s))).

(** [Math.floor(Math.random() * n)] *)
Definition randomIndex (n : nat) : M nat :=
  fun s => Returns (if decide (n = 0) then 0 else pick (draws s (calls s)) `mod` n)
                   (Rng (draws s) (S (calls s))).

End JS.

Import JS.

Notation "'let*' x ':=' m 'in' k" := (JS.bind m (fun x => k))
  (at level 10, x pattern, m at level 100, k at level 200).


Local Open Scope float_scope.

(* ===================================================================== *)
(** ** Data model                                                         *)
(* ===================================================================== *)

(** A location [{x, y}].  A delivery point built by [calculateOptimalRoute]
    also carries [orderId]; [orderCrossover] reads [orderId || id].  A
    property that the object does not have is [None]. *)
Record point : Type := Point {
  pt_x : float;
  pt_y : float;
  pt_orderId : option string;
  pt_id : option string
}.

(** An order.  [getPriorityScore()] is a value of the order for the length of
    one call. *)
Record order : Type := Order {
  ord_id : string;
  ord_weight : float;
  ord_location : point;
  ord_priority : string;
  ord_status : string;
  ord_priorityScore : float
}.

Record drone : Type := Drone {
  drn_id : string;
  drn_capacity : float;
  drn_speed : float;
  drn_status : string;
  drn_batteryLevel : float;
  drn_location : point
}.

(** An assignment object.  [asg_route] is what reading [assignment.route]
    gives: [None] is [undefined], for an object without that property. *)
Record assignment : Type := Assignment {
  asg_drone : drone;
  asg_orders : list order;
  asg_route : option (list point)
}.

(** An entry of [optimizedRoutes]. *)
Record optimizedRoute : Type := OptimizedRoute {
  or_drone : drone;
  or_orders : list order;
  or_route : list point;
  or_estimatedTime : float;
  or_estimatedBattery : float
}.

Record optimizationStats : Type := OptimizationStats {
  st_totalRoutes : nat;
  st_totalOrders : nat;
  st_totalDistance : float;
  st_averageTime : float;
  st_efficiency : float;
  st_utilization : float
}.

(** The three shapes of object that [optimizeDeliveryRoutes] returns. *)
Inductive optimizationResult : Type :=
  | Failure (message : string)                 (* {success: false, message} *)
  | Caught (error : exn)                       (* {success: false, error}   *)
  | Success (routes : list optimizedRoute) (stats : optimizationStats)
            (algorithm : string).              (* {success: true, ...}      *)

Definition success (r : optimizationResult) : bool :=
  match r with Success _ _ _ => true | _ => false end.

(* ===================================================================== *)
(** ** Geometry ([CalculationUtils.calculateDistance])                    *)
(* ===================================================================== *)

Definition calculateDistance (point1 point2 : point) : float :=
  let dx := pt_x point2 - pt_x point1 in
  let dy := pt_y point2 - pt_y point1 in
  PrimFloat.sqrt (dx * dx + dy * dy).

(* ===================================================================== *)
(** ** Task grouping                                                      *)
(* ===================================================================== *)

(** [group.reduce((sum, o) => sum + o.weight, 0)] *)
Definition totalWeightOf (group : list order) : float :=
  fold_left (fun sum o => sum + ord_weight o) group 0.

Definition calculateGroupDistance (orders : list order) : float :=
  if (length orders <=? 1)%nat then 0
  else
    fold_left
      (fun totalDistance '(a, b) =>
         totalDistance + calculateDistance (ord_location a) (ord_location b))
      (zip orders (tail orders)) 0.

(** The inner loop of [groupOrdersForOptimalDelivery]: the first group that
    accepts the order gets it; [None] when the loop ends with
    [assigned = false]. *)
Fixpoint pushToFirstFit (maxCapacity : float) (order_ : order)
    (groups : list (list order)) : option (list (list order)) :=
  match groups with
  | [] => None
  | group :: rest =>
      let totalWeight := totalWeightOf group in
      let totalDistance := calculateGroupDistance (group ++ [order_]) in
      if (totalWeight + ord_weight order_ <=? maxCapacity) && (totalDistance <=? 50)
      then Some ((group ++ [order_]) :: rest)
      else cons group <$> pushToFirstFit maxCapacity order_ rest
  end.

Definition groupingStep (maxCapacity : float) (groups : list (list order))
    (order_ : order) : list (list order) :=
  match pushToFirstFit maxCapacity order_ groups with
  | Some groups' => groups'
  | None => groups ++ [[order_]]
  end.

Definition byPriorityDesc (a b : order) : float :=
  ord_priorityScore b - ord_priorityScore a.

(** [groupOrdersForOptimalDelivery(orders, drones)].  [orders.sort] sorts the
    caller's array in place: the second component is the content of that
    array when the function returns. *)
Definition groupOrdersForOptimalDelivery (orders : list order) (drones : list drone)
    : list (list order) * list order :=
  let sortedOrders := JS.sort byPriorityDesc orders in
  let maxCapacity := Math_max (map drn_capacity drones) in
  (fold_left (groupingStep maxCapacity) sortedOrders [], sortedOrders).

(* ===================================================================== *)
(** ** Assignment                                                         *)
(* ===================================================================== *)

(** [calculateCenterLocation], on the list of the [location]s of its
    argument's elements. *)
Definition calculateCenterLocation (locations : list point) : point :=
  let totalX := fold_left (fun sum l => sum + pt_x l) locations 0 in
  let totalY := fold_left (fun sum l => sum + pt_y l) locations 0 in
  Point (totalX / of_nat (length locations)) (totalY / of_nat (length locations))
        None None.

Definition droneScore (totalWeight : float) (centerLocation : point) (d : drone) : float :=
  let distance := calculateDistance (drn_location d) centerLocation in
  let capacityUtilization := totalWeight / drn_capacity d in
  let batteryScore := drn_batteryLevel d / 100 in
  (1 / (distance + 1)) * 0.4 + capacityUtilization * 0.3 + batteryScore * 0.3.

(** One iteration of the loop of [findBestDroneForGroup] on the state
    [(bestDrone, bestScore)]. *)
Definition bestDroneStep (totalWeight : float) (centerLocation : point)
    (best : option drone * float) (d : drone) : option drone * float :=
  if drn_capacity d <? totalWeight then best
  else
    let score := droneScore totalWeight centerLocation d in
    if best.2 <? score then (Some d, score) else best.

Definition findBestDroneForGroup (orderGroup : list order) (availableDrones : list drone)
    : option drone :=
  let totalWeight := totalWeightOf orderGroup in
  let centerLocation := calculateCenterLocation (map ord_location orderGroup) in
  (fold_left (bestDroneStep totalWeight centerLocation) availableDrones (None, -1)).1.

Definition averagePriority (group : list order) : float :=
  fold_left (fun sum o => sum + ord_priorityScore o) group 0 / of_nat (length group).

Definition byAveragePriorityDesc (a b : list order) : float :=
  averagePriority b - averagePriority a.

(** One iteration of the loop of [assignOrderGroupsToDrones] on the state
    [(assignments, usedDrones)].  A group for which no drone is found adds
    nothing. *)
Definition assignStep (drones : list drone)
    (st : list assignment * gset string) (group : list order)
    : list assignment * gset string :=
  let '(assignments, usedDrones) := st in
  match findBestDroneForGroup group
          (filter (fun d => drn_id d ∉ usedDrones) drones) with
  | Some bestDrone =>
      (* assignments.push({drone: bestDrone, orders: group}) *)
      (assignments ++ [Assignment bestDrone group None], usedDrones ∪ {[drn_id bestDrone]})
  | None => (assignments, usedDrones)
  end.

(** [assignOrderGroupsToDrones(orderGroups, drones)].  The function returns
    the array [assignments] and nothing else; [orderGroups.sort] sorts the
    caller's array in place, and the second component is its content when
    the function returns. *)
Definition assignOrderGroupsToDrones (orderGroups : list (list order)) (drones : list drone)
    : list assignment * list (list order) :=
  let sortedGroups := JS.sort byAveragePriorityDesc orderGroups in
  ((fold_left (assignStep drones) sortedGroups ([], ∅)).1, sortedGroups).

(* ===================================================================== *)
(** ** Route construction: nearest neighbour                              *)
(* ===================================================================== *)

(** The scan [for (let i = 1; i < unvisited.length; i++)]: [rest] is
    [unvisited] from index [i] on. *)
Fixpoint scanNearest (currentPoint : point) (rest : list point) (i : nat)
    (nearestIndex : nat) (nearestDistance : float) : nat :=
  match rest with
  | [] => nearestIndex
  | p :: rest' =>
      let distance := calculateDistance currentPoint p in
      if distance <? nearestDistance
      then scanNearest currentPoint rest' (S i) i distance
      else scanNearest currentPoint rest' (S i) nearestIndex nearestDistance
  end.

Definition nearestIndexOf (currentPoint : point) (unvisited : list point) : nat :=
  match unvisited with
  | [] => 0%nat
  | p0 :: rest => scanNearest currentPoint rest 1 0 (calculateDistance currentPoint p0)
  end.

(** The loop [while (unvisited.length > 0)]; every iteration removes one
    element, so [length unvisited] iterations are enough. *)
Fixpoint visitNearest (fuel : nat) (route unvisited : list point) (currentPoint : point)
    : list point :=
  match fuel with
  | O => route
  | S fuel' =>
      let nearestIndex := nearestIndexOf currentPoint unvisited in
      match unvisited !! nearestIndex with
      | Some nearestPoint =>
          visitNearest fuel' (route ++ [nearestPoint]) (delete nearestIndex unvisited)
                       nearestPoint
      | None => route
      end
  end.

Definition nearestNeighborRoute (points : list point) (startPoint : point) : list point :=
  if decide (length points = 0%nat) then [startPoint]
  else visitNearest (length points) [startPoint] points startPoint ++ [startPoint].

(* ===================================================================== *)
(** ** Route length, time and battery                                     *)
(* ===================================================================== *)

Definition calculateRouteDistance (route : list point) (startPoint : point) : float :=
  match route with
  | [] => 0
  | first :: _ =>
      let totalDistance := calculateDistance startPoint first in
      let totalDistance :=
        fold_left (fun total '(a, b) => total + calculateDistance a b)
                  (zip route (tail route)) totalDistance in
      totalDistance + calculateDistance (default first (last route)) startPoint
  end.

(** [route.slice(1, -1)] *)
Definition slice_1_m1 {A} (route : list A) : list A :=
  take (length route - 2) (drop 1 route).

(** [calculateRouteTime(route, drone)]; [route] may be [undefined]. *)
Definition calculateRouteTime (route : option (list point)) (drone_ : drone) : float :=
  match route with
  | None => 0
  | Some [] => 0
  | Some ((first :: _) as route) =>
      let totalDistance := calculateRouteDistance (slice_1_m1 route) first in
      let travelTime := (totalDistance / drn_speed drone_) * 60 in
      let deliveryTime := of_Z (Z.of_nat (length route) - 2) * 3 in
      let loadingTime := 5 in
      travelTime + deliveryTime + loadingTime
  end.

(** [calculateBatteryConsumption(route)]; [route] may be [undefined]. *)
Definition calculateBatteryConsumption (route : option (list point)) : float :=
  match route with
  | None => 0
  | Some [] => 0
  | Some ((first :: _) as route) =>
      let totalDistance := calculateRouteDistance (slice_1_m1 route) first in
      totalDistance * 2
  end.

(* ===================================================================== *)
(** ** Statistics                                                         *)
(* ===================================================================== *)

(** [calculateOptimizationStats(routes)].  The count of orders is a sum of
    array lengths, kept as a natural number. *)
Definition calculateOptimizationStats (routes : list optimizedRoute) : optimizationStats :=
  let totalOrders := fold_left (fun sum r => (sum + length (or_orders r))%nat) routes 0%nat in
  let totalDistance := fold_left (fun sum r => sum + or_estimatedBattery r / 2) routes 0 in
  let totalTime := fold_left (fun sum r => sum + or_estimatedTime r) routes 0 in
  let averageTime := or_zero (totalTime / of_nat (length routes)) in
  {| st_totalRoutes := length routes;
     st_totalOrders := totalOrders;
     st_totalDistance := Math_round (totalDistance * 100) / 100;
     st_averageTime := Math_round (averageTime * 100) / 100;
     st_efficiency :=
       if (0 <? totalOrders)%nat then (of_nat totalOrders / totalDistance) * 100 else 0;
     st_utilization :=
       if (0 <? length routes)%nat then of_nat totalOrders / of_nat (length routes) else 0 |}.

(* ===================================================================== *)
(** ** Fleet sizing                                                       *)
(* ===================================================================== *)

(** The [constraints] object; an absent property takes its default. *)
Record constraints : Type := Constraints {
  c_maxDrones : option float;
  c_droneCapacity : option float;
  c_droneRange : option float;
  c_operatingHours : option float
}.

Record perPriority (A : Type) : Type := PerPriority { alta : A; media : A; baixa : A }.
Arguments PerPriority {A} _ _ _.
Arguments alta {A} _.
Arguments media {A} _.
Arguments baixa {A} _.

Record fleetAllocation : Type := FleetAllocation {
  (* recommendation *)
  fa_totalDrones : float;
  fa_allocation : perPriority float;
  fa_utilizationRate : float;
  (* analysis *)
  fa_currentOrders : nat;
  fa_ordersByPriority : perPriority (list order);
  fa_estimatedCapacity : float;
  fa_bottleneck : option string
}.

Definition hasPriority (p : string) (o : order) : Prop := ord_priority o = p.
#[global] Instance hasPriority_dec p o : Decision (hasPriority p o).
Proof. unfold hasPriority. apply _. Defined.

Definition deliveriesPerDronePerDay (operatingHours : float) : float :=
  let averageDeliveryTime := 45 in
  let deliveriesPerDronePerHour := 60 / averageDeliveryTime in
  deliveriesPerDronePerHour * operatingHours.

Definition optimizeFleetAllocation (orders : list order) (c : constraints) : fleetAllocation :=
  let maxDrones := default 10 (c_maxDrones c) in
  let operatingHours := default 12 (c_operatingHours c) in
  let ordersByPriority :=
    PerPriority (filter (hasPriority "alta") orders)
                (filter (hasPriority "media") orders)
                (filter (hasPriority "baixa") orders) in
  let perDay := deliveriesPerDronePerDay operatingHours in
  let requiredDrones :=
    PerPriority (Math_ceil (of_nat (length (alta ordersByPriority)) / perDay))
                (Math_ceil (of_nat (length (media ordersByPriority)) / perDay))
                (Math_ceil (of_nat (length (baixa ordersByPriority)) / perDay)) in
  let totalRequired := alta requiredDrones + media requiredDrones + baixa requiredDrones in
  {| fa_totalDrones := Math_min [totalRequired; maxDrones];
     fa_allocation := requiredDrones;
     fa_utilizationRate := Math_min [100; (totalRequired / maxDrones) * 100];
     fa_currentOrders := length orders;
     fa_ordersByPriority := ordersByPriority;
     fa_estimatedCapacity := perDay * maxDrones;
     fa_bottleneck := if maxDrones <? totalRequired then Some "fleet_size" else None |}.

(* ===================================================================== *)
(** ** Route refinement: shuffling, genetic algorithm                     *)
(* ===================================================================== *)

(** [[array[i], array[j]] = [array[j], array[i]]] for two indices of the
    array (every caller draws them below the length). *)
Definition swap {A} (array : list A) (i j : nat) : list A :=
  match array !! i, array !! j with
  | Some ai, Some aj => <[j := ai]> (<[i := aj]> array)
  | _, _ => array
  end.

(** The loop [for (let i = array.length - 1; i > 0; i--)] of [shuffleArray]. *)
Fixpoint shuffleFrom {A} (i : nat) (array : list A) : M (list A) :=
  match i with
  | O => ret array
  | S i' =>
      let* j := randomIndex (i + 1) in
      shuffleFrom i' (swap array i j)
  end.

Definition shuffleArray {A} (array : list A) : M (list A) :=
  shuffleFrom (length array - 1) array.

Fixpoint initializePopulation (points : list point) (populationSize : nat)
    : M (list (list point)) :=
  match populationSize with
  | O => ret []
  | S n =>
      let* route := shuffleArray points in
      let* population := initializePopulation points n in
      ret (route :: population)
  end.

(* An individual of the population is an array of points in which
   [orderCrossover] may leave empty slots: a [list (option point)]. *)

(** [fitness[candidateIndex] > fitness[bestIndex]]; an index outside the
    array reads [undefined], and the comparison is false. *)
Definition fitterThan (fitness : list float) (candidateIndex bestIndex : nat) : bool :=
  match fitness !! candidateIndex, fitness !! bestIndex with
  | Some c, Some b => b <? c
  | _, _ => false
  end.

(** [tournamentSelection(population, fitness)]; the result is
    [population[bestIndex]], [undefined] for an empty population. *)
Definition tournamentSelection (population : list (list (option point)))
    (fitness : list float) : M (option (list (option point))) :=
  let* bestIndex := randomIndex (length population) in
  let* candidateIndex := randomIndex (length population) in
  let bestIndex := if fitterThan fitness candidateIndex bestIndex
                   then candidateIndex else bestIndex in
  let* candidateIndex := randomIndex (length population) in
  let bestIndex := if fitterThan fitness candidateIndex bestIndex
                   then candidateIndex else bestIndex in
  ret (population !! bestIndex).

(** [item.orderId || item.id] *)
Definition keyOf (item : point) : option string :=
  or_else (pt_orderId item) (pt_id item).

(** The loop [for (let i = start; i <= end; i++)] of [orderCrossover], run
    for [n] more indices from [i] on the state [(child, selected)].
    Reading [.orderId] of an empty slot throws. *)
Fixpoint copySegment (parent1 : list (option point)) (n i : nat)
    (child : list (option point)) (selected : gset (option string))
    : M (list (option point) * gset (option string)) :=
  match n with
  | O => ret (child, selected)
  | S n' =>
      match parent1 !! i with
      | Some (Some item) =>
          copySegment parent1 n' (S i) (<[i := Some item]> child)
                      (selected ∪ {[keyOf item]})
      | _ => throw TypeError
      end
  end.

(** The loop [for (let i = 0; i < length; i++)] of [orderCrossover], run for
    [n] more indices from [i] on the state [(child, childIndex)]. *)
Fixpoint fillRemaining (parent2 : list (option point)) (start end_ length : nat)
    (selected : gset (option string)) (n i : nat)
    (child : list (option point)) (childIndex : nat) : M (list (option point)) :=
  match n with
  | O => ret child
  | S n' =>
      let childIndex :=
        if decide (childIndex = start) then (end_ + 1)%nat else childIndex in
      if decide (length ≤ childIndex)%nat then ret child
      else
        match parent2 !! i with
        | Some (Some item) =>
            if decide (keyOf item ∈ selected)
            then fillRemaining parent2 start end_ length selected n' (S i) child childIndex
            else fillRemaining parent2 start end_ length selected n' (S i)
                               (<[childIndex := Some item]> child) (S childIndex)
        | _ => throw TypeError
        end
  end.

(** [orderCrossover(parent1, parent2)]; a parent may be [undefined]. *)
Definition orderCrossover (parent1 parent2 : option (list (option point)))
    : M (list (option point)) :=
  match parent1 with
  | None => throw TypeError
  | Some parent1 =>
      let length := length parent1 in
      let* start := randomIndex length in
      let* r := randomIndex (length - start) in
      let end_ := (r + start)%nat in
      let child := replicate length None in
      let* (child, selected) := copySegment parent1 (S end_ - start) start child ∅ in
      (* an [undefined] parent2 throws where [parent2[i]] is read, as an
         array without an element at [i] does at [item.orderId] *)
      fillRemaining (default [] parent2) start end_ length selected length 0 child 0
  end.

Definition mutateRoute {A} (route : list A) : M (list A) :=
  let* i := randomIndex (length route) in
  let* j := randomIndex (length route) in
  ret (swap route i j).

(** An array without empty slots, as a list of its elements. *)
Definition dense {A} (array : list (option A)) : option (list A) :=
  mapM (fun slot => slot) array.

(** [population.map(route => 1 / this.calculateRouteDistance(route, startPoint))]:
    [calculateRouteDistance] reads [.x] of every element of a non-empty
    route, and throws on an empty slot. *)
Fixpoint evaluateFitness (population : list (list (option point))) (startPoint : point)
    : M (list float) :=
  match population with
  | [] => ret []
  | route :: rest =>
      match dense route with
      | Some route' =>
          let* fitness := evaluateFitness rest startPoint in
          ret (1 / calculateRouteDistance route' startPoint :: fitness)
      | None => throw TypeError
      end
  end.

(** The loop [for (let i = 0; i < populationSize; i++)] of one generation. *)
Fixpoint breed (population : list (list (option point))) (fitness : list float) (n : nat)
    : M (list (list (option point))) :=
  match n with
  | O => ret []
  | S n' =>
      let* parent1 := tournamentSelection population fitness in
      let* parent2 := tournamentSelection population fitness in
      let* child := orderCrossover parent1 parent2 in
      let* r := Math_random in
      let* child := if r <? 0.1 then mutateRoute child else ret child in
      let* newPopulation := breed population fitness n' in
      ret (child :: newPopulation)
  end.

(** The loop [for (let generation = 0; generation < maxGenerations; generation++)]. *)
Fixpoint evolve (generations populationSize : nat) (population : list (list (option point)))
    (startPoint : point) : M (list (list (option point))) :=
  match generations with
  | O => ret population
  | S g =>
      let* fitness := evaluateFitness population startPoint in
      let* newPopulation := breed population fitness populationSize in
      evolve g populationSize newPopulation startPoint
  end.

Definition geneticAlgorithmRoute (points : list point) (startPoint : point)
    (maxGenerations : nat) : M (list point) :=
  if decide (length points = 0%nat) then ret [startPoint]
  else if decide (length points ≤ 3)%nat then ret (nearestNeighborRoute points startPoint)
  else
    let populationSize := Nat.min 50 (length points * 4) in
    let* population := initializePopulation points populationSize in
    let* population := evolve maxGenerations populationSize
                              ((fun route : list point => Some <$> route) <$> population)
                              startPoint in
    let* fitness := evaluateFitness population startPoint in
    (* [population[-1]] is [undefined], and spreading it throws *)
    match indexOf fitness (Math_max fitness) with
    | None => throw TypeError
    | Some bestIndex =>
        match population !! bestIndex ≫= dense with
        | Some best => ret ([startPoint] ++ best ++ [startPoint])
        | None => throw TypeError
        end
    end.

(* ===================================================================== *)
(** ** Route refinement: simulated annealing                              *)
(* ===================================================================== *)

Section WithExp.

(** [Math.exp], an implementation-approximated function of the engine. *)
Variable Math_exp : float -> float.

Record annealing : Type := Annealing {
  currentRoute : list point;
  currentDistance : float;
  bestRoute : list point;
  bestDistance : float;
  temperature : float
}.

(** One iteration of the loop of [simulatedAnnealingRoute].  The second
    [Math.random()] is called only when the new route is not shorter. *)
Definition annealingStep (startPoint : point) (st : annealing) : M annealing :=
  let* i := randomIndex (length (currentRoute st)) in
  let* j := randomIndex (length (currentRoute st)) in
  let newRoute := swap (currentRoute st) i j in
  let newDistance := calculateRouteDistance newRoute startPoint in
  let* accepted :=
    if newDistance <? currentDistance st then ret true
    else
      let* r := Math_random in
      ret (r <? Math_exp ((currentDistance st - newDistance) / temperature st)) in
  let coolingRate := 0.995 in
  ret (if accepted : bool then
         if newDistance <? bestDistance st
         then Annealing newRoute newDistance newRoute newDistance
                        (temperature st * coolingRate)
         else Annealing newRoute newDistance (bestRoute st) (bestDistance st)
                        (temperature st * coolingRate)
       else Annealing (currentRoute st) (currentDistance st) (bestRoute st)
                      (bestDistance st) (temperature st * coolingRate)).

Fixpoint anneal (iterations : nat) (startPoint : point) (st : annealing) : M annealing :=
  match iterations with
  | O => ret st
  | S n =>
      let* st' := annealingStep startPoint st in
      anneal n startPoint st'
  end.

Definition simulatedAnnealingRoute (points : list point) (startPoint : point)
    (maxIterations : nat) : M (list point) :=
  if decide (length points = 0%nat) then ret [startPoint]
  else
    let* currentRoute := shuffleArray points in
    let currentDistance := calculateRouteDistance currentRoute startPoint in
    let* st := anneal maxIterations startPoint
                 (Annealing currentRoute currentDistance currentRoute currentDistance 100) in
    ret ([startPoint] ++ bestRoute st ++ [startPoint]).

(* ===================================================================== *)
(** ** The optimization pass                                              *)
(* ===================================================================== *)

Definition NEAREST_NEIGHBOR : string := "nearest_neighbor".
Definition GENETIC_ALGORITHM : string := "genetic_algorithm".
Definition SIMULATED_ANNEALING : string := "simulated_annealing".

(** [{...order.location, orderId: order.id}] *)
Definition deliveryPoint (o : order) : point :=
  Point (pt_x (ord_location o)) (pt_y (ord_location o)) (Some (ord_id o))
        (pt_id (ord_location o)).

Definition calculateOptimalRoute (orders : list order) (startLocation : point)
    (algorithm : string) : M (list point) :=
  let deliveryPoints := map deliveryPoint orders in
  if decide (algorithm = NEAREST_NEIGHBOR)
  then ret (nearestNeighborRoute deliveryPoints startLocation)
  else if decide (algorithm = GENETIC_ALGORITHM)
  then geneticAlgorithmRoute deliveryPoints startLocation 100
  else if decide (algorithm = SIMULATED_ANNEALING)
  then simulatedAnnealingRoute deliveryPoints startLocation 1000
  else ret (nearestNeighborRoute deliveryPoints startLocation).

(** The callback of [assignments.map] in [optimizeDeliveryRoutes]: the time
    and the battery are computed from [assignment.route]. *)
Definition optimizeAssignment (algorithm : string) (a : assignment) : M optimizedRoute :=
  let* route := calculateOptimalRoute (asg_orders a) (drn_location (asg_drone a)) algorithm in
  ret {| or_drone := asg_drone a;
         or_orders := asg_orders a;
         or_route := route;
         or_estimatedTime := calculateRouteTime (asg_route a) (asg_drone a);
         or_estimatedBattery := calculateBatteryConsumption (asg_route a) |}.

Fixpoint mapAssignments (algorithm : string) (assignments : list assignment)
    : M (list optimizedRoute) :=
  match assignments with
  | [] => ret []
  | a :: rest =>
      let* r := optimizeAssignment algorithm a in
      let* rs := mapAssignments algorithm rest in
      ret (r :: rs)
  end.

Definition isAvailable (d : drone) : Prop :=
  drn_status d = "idle" ∧ (20 <? drn_batteryLevel d) = true.
Definition isPending (o : order) : Prop := ord_status o = "pending".

#[global] Instance isAvailable_dec d : Decision (isAvailable d).
Proof. unfold isAvailable. apply _. Defined.
#[global] Instance isPending_dec o : Decision (isPending o).
Proof. unfold isPending. apply _. Defined.

(** [optimizeDeliveryRoutes(drones, orders, options)]; [algorithm] is
    [options.algorithm], absent for the default.  The body runs inside
    [try], and [catch] turns an exception into a result. *)
Definition optimizeDeliveryRoutes (drones : list drone) (orders : list order)
    (algorithm : option string) (random : rng) : optimizationResult :=
  let algorithm := default NEAREST_NEIGHBOR algorithm in
  let availableDrones := filter isAvailable drones in
  let pendingOrders := filter isPending orders in
  if decide (length availableDrones = 0%nat ∨ length pendingOrders = 0%nat)
  then Failure "Não há drones ou pedidos disponíveis"
  else
    let orderGroups := (groupOrdersForOptimalDelivery pendingOrders availableDrones).1 in
    let assignments := (assignOrderGroupsToDrones orderGroups availableDrones).1 in
    match mapAssignments algorithm assignments random with
    | Returns optimizedRoutes _ =>
        Success optimizedRoutes (calculateOptimizationStats optimizedRoutes) algorithm
    | Throws error => Caught error
    end.

End WithExp.

(* ===================================================================== *)
(** ** Facility location: k-means                                         *)
(* ===================================================================== *)

Record kMeansResult : Type := KMeansResult {
  km_bases : list point;
  km_clusters : list (list point);
  km_averageDistance : float;
  km_iterations : nat
}.

Definition calculateAverageDistanceToPoints (center : point) (points : list point) : float :=
  if decide (length points = 0%nat) then 0
  else
    fold_left (fun sum p => sum + calculateDistance center p) points 0
    / of_nat (length points).

(** The loop [for (let i = 0; i < k; i++)] that draws the initial centroids;
    [points[...]] is [undefined] for an empty array, and reading [.x] of it
    throws. *)
Fixpoint initialCentroids (points : list point) (k : nat) (centroids : list point)
    : M (list point) :=
  match k with
  | O => ret centroids
  | S k' =>
      let* index := randomIndex (length points) in
      match points !! index with
      | Some randomPoint =>
          initialCentroids points k'
            (centroids ++ [Point (pt_x randomPoint) (pt_y randomPoint) None None])
      | None => throw TypeError
      end
  end.

(** The scan [for (let i = 1; i < centroids.length; i++)]. *)
Fixpoint scanCentroids (point_ : point) (rest : list point) (i : nat)
    (nearestCentroid : nat) (nearestDistance : float) : nat :=
  match rest with
  | [] => nearestCentroid
  | c :: rest' =>
      let distance := calculateDistance point_ c in
      if distance <? nearestDistance
      then scanCentroids point_ rest' (S i) i distance
      else scanCentroids point_ rest' (S i) nearestCentroid nearestDistance
  end.

(** The loop [for (const point of points)]: each point is pushed to the
    cluster of its nearest centroid.  [centroids[0]] is [undefined] for an
    empty array, and [calculateDistance] throws on it. *)
Fixpoint assignToClusters (centroids : list point) (points : list point)
    (clusters : list (list point)) : M (list (list point)) :=
  match points with
  | [] => ret clusters
  | point_ :: rest =>
      match centroids with
      | [] => throw TypeError
      | c0 :: others =>
          let nearestCentroid :=
            scanCentroids point_ others 1 0 (calculateDistance point_ c0) in
          assignToClusters centroids rest
            (alter (fun cluster => cluster ++ [point_]) nearestCentroid clusters)
      end
  end.

(** The loop [for (let i = 0; i < k; i++)] that moves the centroids, run for
    [n] more indices from [i] on the state [(centroids, changed)]. *)
Fixpoint updateCentroids (clusters : list (list point)) (n i : nat)
    (centroids : list point) (changed : bool) : list point * bool :=
  match n with
  | O => (centroids, changed)
  | S n' =>
      match clusters !! i, centroids !! i with
      | Some cluster, Some centroid =>
          if decide (0 < length cluster)%nat then
            let newCentroid := calculateCenterLocation cluster in
            if 0.1 <? calculateDistance centroid newCentroid
            then updateCentroids clusters n' (S i) (<[i := newCentroid]> centroids) true
            else updateCentroids clusters n' (S i) centroids changed
          else updateCentroids clusters n' (S i) centroids changed
      | _, _ => updateCentroids clusters n' (S i) centroids changed
      end
  end.

(** The loop [while (changed && iterations < maxIterations)], with [fuel]
    for the iterations left below [maxIterations].  Its state is what is
    declared outside its block: [centroids], [changed] and [iterations];
    [clusters] is a [const] of the block. *)
Fixpoint lloyd (fuel : nat) (points : list point) (k : nat)
    (centroids : list point) (changed : bool) (iterations : nat)
    : M (list point * nat) :=
  match fuel with
  | O => ret (centroids, iterations)
  | S fuel' =>
      if changed then
        let* clusters := assignToClusters centroids points (replicate k []) in
        let '(centroids', changed') := updateCentroids clusters k 0 centroids false in
        lloyd fuel' points k centroids' changed' (S iterations)
      else ret (centroids, iterations)
  end.

(** [kMeansBasePlacement(points, k)].  The [return] statement reads the
    identifier [clusters] outside the block of the [while] loop that
    declares it, where it is not bound: evaluating the object literal
    throws a ReferenceError after [bases: centroids]. *)
Definition kMeansBasePlacement (points : list point) (k : nat) : M kMeansResult :=
  let* centroids := initialCentroids points k [] in
  let maxIterations := 100%nat in
  let* (centroids, iterations) := lloyd maxIterations points k centroids true 0 in
  let* clusters := (throw ReferenceError : M (list (list point))) in
  ret {| km_bases := centroids;
         km_clusters := clusters;
         km_averageDistance :=
           fold_left
             (fun sum '(centroid, i) =>
                sum + calculateAverageDistanceToPoints centroid (default [] (clusters !! i)))
             (zip centroids (seq 0 (length centroids))) 0
           / of_nat (length centroids);
         km_iterations := iterations |}.

(* ===================================================================== *)
(** ** Facility location: one base or several                             *)
(* ===================================================================== *)

Definition calculateCoverage (center : point) (points : list point) (radius : float)
    : float :=
  if decide (length points = 0%nat) then 100
  else
    let coveredPoints :=
      filter (fun p => (calculateDistance center p <=? radius) = true) points in
    (of_nat (length coveredPoints) / of_nat (length points)) * 100.

(** The two shapes of object that [optimizeBaseLocations] returns. *)
Inductive baseLocations : Type :=
  | SingleBase (bases : list point) (averageDistance coverage : float)
  | Clustered (result : kMeansResult).

(** [optimizeBaseLocations(deliveryPoints, numBases = 1)]; [numBases] is
    [None] for an absent argument.  [deliveryPoints.map(p => ({location: p}))]
    wraps the points for [calculateCenterLocation], which reads [location]
    back. *)
Definition optimizeBaseLocations (deliveryPoints : list point) (numBases : option nat)
    : M baseLocations :=
  let numBases := default 1%nat numBases in
  if decide (numBases = 1%nat) then
    let centroid := calculateCenterLocation deliveryPoints in
    ret (SingleBase [centroid]
                    (calculateAverageDistanceToPoints centroid deliveryPoints)
                    (calculateCoverage centroid deliveryPoints 50))
  else
    let* result := kMeansBasePlacement deliveryPoints numBases in
    ret (Clustered result).

(* ===================================================================== *)
(** ** [CalculationUtils]: distances, routes and groups by proximity      *)
(* ===================================================================== *)

Module CalculationUtils.

Definition calculateManhattanDistance (point1 point2 : point) : float :=
  PrimFloat.abs (pt_x point2 - pt_x point1) + PrimFloat.abs (pt_y point2 - pt_y point1).

Definition calculateTravelTime (distance speed : float) : float :=
  (distance / speed) * 60.

(** [calculateOptimalRoute(points, startPoint)]: the loop of
    [nearestNeighborRoute], on a route that starts empty.  [points] is
    [None] for [null] or [undefined]. *)
Definition calculateOptimalRoute (points : option (list point)) (startPoint : point)
    : list point :=
  match points with
  | None | Some [] => []
  | Some [p] => [p]
  | Some points => visitNearest (length points) [] points startPoint
  end.

(** One iteration of the loop [for (let i = 1; i < route.length; i++)] of
    [calculateTotalRouteDistance] on the state [(totalDistance, currentPoint)]. *)
Definition addLeg (st : float * point) (p : point) : float * point :=
  (st.1 + calculateDistance st.2 p, p).

Definition calculateTotalRouteDistance (route : option (list point)) (basePoint : point)
    : float :=
  match route with
  | None | Some [] => 0
  | Some (first :: rest) =>
      let totalDistance := 0 + calculateDistance basePoint first in
      let st := fold_left addLeg rest (totalDistance, first) in
      st.1 + calculateDistance st.2 basePoint
  end.

(** The loop [for (let j = i + 1; j < orders.length; j++)] of
    [groupOrdersByProximity]: [rest] is [orders] from index [j] on, and the
    state is [(group, processed)]. *)
Fixpoint collectNear (seed : order) (proximityThreshold : float) (rest : list order)
    (j : nat) (group : list order) (processed : gset nat) : list order * gset nat :=
  match rest with
  | [] => (group, processed)
  | candidate :: rest' =>
      if decide (j ∈ processed)
      then collectNear seed proximityThreshold rest' (S j) group processed
      else if calculateDistance (ord_location seed) (ord_location candidate)
              <=? proximityThreshold
      then collectNear seed proximityThreshold rest' (S j) (group ++ [candidate])
                       (processed ∪ {[j]})
      else collectNear seed proximityThreshold rest' (S j) group processed
  end.

(** The loop [for (let i = 0; i < orders.length; i++)]: [rest] is [orders]
    from index [i] on, and the state is [(groups, processed)]. *)
Fixpoint groupFrom (proximityThreshold : float) (rest : list order) (i : nat)
    (groups : list (list order)) (processed : gset nat) : list (list order) :=
  match rest with
  | [] => groups
  | seed :: rest' =>
      if decide (i ∈ processed)
      then groupFrom proximityThreshold rest' (S i) groups processed
      else
        let '(group, processed) :=
          collectNear seed proximityThreshold rest' (S i) [seed] (processed ∪ {[i]}) in
        groupFrom proximityThreshold rest' (S i) (groups ++ [group]) processed
  end.

Definition groupOrdersByProximity (orders : list order) (proximityThreshold : option float)
    : list (list order) :=
  groupFrom (default 5 proximityThreshold) orders 0 [] ∅.

(** [estimateDeliveryTime(drone, orders, baseX = 0, baseY = 0)]; [orders]
    is [None] for [null] or [undefined]. *)
Definition estimateDeliveryTime (drone_ : drone) (orders : option (list order))
    (baseX baseY : option float) : float :=
  match orders with
  | None | Some [] => 0
  | Some orders =>
      let basePoint := Point (default 0 baseX) (default 0 baseY) None None in
      let deliveryPoints := map ord_location orders in
      let route := calculateOptimalRoute (Some deliveryPoints) basePoint in
      let totalDistance := calculateTotalRouteDistance (Some route) basePoint in
      let travelTime := calculateTravelTime totalDistance (drn_speed drone_) in
      let deliveryTime := of_nat (length orders) * 3 in
      let loadingTime := 5 in
      travelTime + deliveryTime + loadingTime
  end.

(** [calculateEfficiencyScore(deliveriesCompleted, totalDistance, batteryUsed)] *)
Definition calculateEfficiencyScore (deliveriesCompleted totalDistance batteryUsed : float)
    : float :=
  if deliveriesCompleted =? 0 then 0
  else
    let deliveryRate := deliveriesCompleted / Math_max [totalDistance; 1] in
    let batteryEfficiency := Math_max [0; 100 - batteryUsed] in
    let score := (deliveryRate * 50) + (batteryEfficiency * 0.5) in
    Math_min [100; Math_max [0; score]].

End CalculationUtils.

(* ===================================================================== *)
(** ** The vocabulary of the properties                                   *)
(* ===================================================================== *)

(** [m] returns, from every state of the random source, a value that
    satisfies [Q]. *)
Definition returns {A} (m : M A) (Q : A -> Prop) : Prop :=
  forall s, exists a s', m s = Returns a s' /\ Q a.

(** The result is the origin, an ordering of the points, and the origin. *)
Definition returnsTourOf (points : list point) (startPoint : point)
    (result : outcome (list point)) : Prop :=
  exists tour random',
    result = Returns ([startPoint] ++ tour ++ [startPoint]) random' ∧ tour ≡ₚ points.

(** The point at index [k] of [unvisited] is the one of minimum distance to
    [current], the first of them in the order of the array: no point is
    nearer, and no point before it is as near. *)
Definition nearestFirstAt (current : point) (unvisited : list point) (k : nat) (p : point)
    : Prop :=
  unvisited !! k = Some p
  ∧ (forall j q, unvisited !! j = Some q ->
       (calculateDistance current q <? calculateDistance current p) = false)
  ∧ (forall j q, (j < k)%nat -> unvisited !! j = Some q ->
       (calculateDistance current q <=? calculateDistance current p) = false).

(** The tour in the words of the design document: from the current position,
    the nearest unvisited point is moved to the tour and becomes the current
    position, until no point is unvisited. *)
Inductive greedyTour : point -> list point -> list point -> Prop :=
  | greedyTour_done current : greedyTour current [] []
  | greedyTour_move current unvisited k p tour :
      nearestFirstAt current unvisited k p ->
      greedyTour p (delete k unvisited) tour ->
      greedyTour current unvisited (p :: tour).

(** The capacity ceiling of a list of drones. *)
Definition capacityCeiling (drones : list drone) : float :=
  Math_max (map drn_capacity drones).

(** The grouping property in the words of the design document. *)
Definition groupingAsStated (orders : list order) (drones : list drone)
    (groups : list (list order)) : Prop :=
  concat groups ≡ₚ orders
  ∧ sum_list (length <$> groups) = length orders
  ∧ Forall (fun g => (capacityCeiling drones <? totalWeightOf g) = false) groups.

(** What the grouping loop keeps: no group is empty, and a group of two or
    more orders passed the weight test when its last order was pushed. *)
Definition groupsWithinCeiling (ceiling : float) (groups : list (list order)) : Prop :=
  Forall (fun g => g ≠ []
                   ∧ ((2 ≤ length g)%nat -> (totalWeightOf g <=? ceiling) = true)) groups.

(** A group is in the output of [assignOrderGroupsToDrones] when an
    assignment of the returned array carries it: the function returns that
    array and nothing else. *)
Definition everyGroupInOutput (orderGroups : list (list order))
    (returned : list assignment) : Prop :=
  forall g, g ∈ orderGroups -> exists a, a ∈ returned ∧ asg_orders a = g.

(** A drone that [findBestDroneForGroup] passes over while it holds no
    candidate: it cannot carry the group, or its score is not above -1. *)
Definition passedOver (group : list order) (d : drone) : Prop :=
  (drn_capacity d <? totalWeightOf group) = true
  ∨ (-1 <? droneScore (totalWeightOf group)
             (calculateCenterLocation (map ord_location group)) d) = false.

(** No drone of the list whose id is not in [used] would be taken for the
    group: each of them is passed over. *)
Definition noTaker (drones : list drone) (used : gset string) (group : list order) : Prop :=
  forall d, d ∈ drones -> drn_id d ∉ used -> passedOver group d.

(** What the assignment loop keeps for the groups [processed]: each of
    them is the group of one assignment or one of the groups [leftOut], and
    a group is left out only when no unused drone would be taken for it. *)
Definition everyGroupAccountedFor (drones : list drone) (processed : list (list order))
    (st : list assignment * gset string) (leftOut : list (list order)) : Prop :=
  processed ≡ₚ (asg_orders <$> st.1) ++ leftOut
  ∧ Forall (noTaker drones st.2) leftOut.

(** The ids of the drones of a list of assignments. *)
Definition assignedIds (assignments : list assignment) : list string :=
  (fun a => drn_id (asg_drone a)) <$> assignments.

(** What the assignment loop keeps, after the groups [processed]. *)
Definition assignmentsSound (drones : list drone) (processed : list (list order))
    (st : list assignment * gset string) : Prop :=
  (asg_orders <$> st.1) ⊆+ processed
  ∧ NoDup (assignedIds st.1)
  ∧ (forall i, i ∈ st.2 <-> i ∈ assignedIds st.1)
  ∧ Forall (fun a => asg_drone a ∈ drones
                     ∧ (drn_capacity (asg_drone a) <? totalWeightOf (asg_orders a)) = false
                     ∧ findBestDroneForGroup (asg_orders a) drones ≠ None
                     ∧ asg_route a = None) st.1.

(** The number of orders of a priority class. *)
Definition classCount (p : string) (orders : list order) : nat :=
  length (filter (hasPriority p) orders).



(** [ceil(classCount / throughput)], summed over the three priority classes. *)
Definition totalRequired (throughput : float) (orders : list order) : float :=
  Math_ceil (of_nat (classCount "alta" orders) / throughput)
  + Math_ceil (of_nat (classCount "media" orders) / throughput)
  + Math_ceil (of_nat (classCount "baixa" orders) / throughput).


(** The number of tasks of a batch of routes. *)
Definition taskCount (routes : list optimizedRoute) : nat :=
  length (concat (map or_orders routes)).

(** The distance that the statistics derive from the battery estimates,
    before it is rounded for the report. *)
Definition derivedDistance (routes : list optimizedRoute) : float :=
  fold_left (fun sum r => sum + or_estimatedBattery r / 2) routes 0.

(** The sum of the battery estimates. *)
Definition summedBattery (routes : list optimizedRoute) : float :=
  fold_left (fun sum r => sum + or_estimatedBattery r) routes 0.

(** The formulas in the words of the design document. *)
Definition statsAsStated (routes : list optimizedRoute) (s : optimizationStats) : Prop :=
  st_totalOrders s = taskCount routes
  ∧ st_totalDistance s = summedBattery routes / 2
  ∧ st_efficiency s = of_nat (taskCount routes) / st_totalDistance s
  ∧ st_utilization s = of_nat (taskCount routes) / of_nat (length routes).

(** Both routes of the annealing state are orderings of the input points. *)
Definition annealingSound (points : list point) (st : annealing) : Prop :=
  currentRoute st ≡ₚ points ∧ bestRoute st ≡ₚ points.

(** An individual without empty slots that is an ordering of the points. *)
Definition validIndividual (points : list point) (route : list (option point)) : Prop :=
  exists r, route = Some <$> r ∧ r ≡ₚ points.

(** The child of a crossover has [size] slots: [start] slots, the slice
    [segment] of the first parent, and the slots after it.  [layout] is the
    child after the items [placed] have been written around the slice, in
    their order, from the left. *)
Definition layout (start size : nat) (segment placed : list point) : list (option point) :=
  (Some <$> take start placed)
  ++ replicate (start - length placed) None
  ++ (Some <$> segment)
  ++ (Some <$> drop start placed)
  ++ replicate (size - length segment - Nat.max start (length placed)) None.

(** The slot of the next item when [n] items are placed. *)
Definition slot (start : nat) (segment : list point) (n : nat) : nat :=
  if decide (n < start)%nat then n else (n + length segment)%nat.

(** *** Numbers and lengths *)

(** A binary64 value that is neither NaN nor an infinity. *)
Definition finiteSF (v : spec_float) : Prop :=
  match v with S754_zero _ | S754_finite _ _ _ => True | _ => False end.

(** A binary64 value that is not NaN and whose sign bit is [s]. *)
Definition signedSF (s : bool) (v : spec_float) : Prop :=
  match v with
  | S754_zero s' | S754_infinity s' | S754_finite s' _ _ => s' = s
  | S754_nan => False
  end.

(** A binary64 value that is NaN or has a clear sign bit: what a sum of
    squares and its square root evaluate to. *)
Definition unsignedSF (v : spec_float) : Prop :=
  v = S754_nan ∨ signedSF false v.

(** A point whose coordinates are numbers, neither NaN nor infinite. *)
Definition finitePoint (p : point) : Prop :=
  PrimFloat.is_finite (pt_x p) = true ∧ PrimFloat.is_finite (pt_y p) = true.

(** A Number that is a length: not NaN and not below 0 (it may be
    +Infinity, when the sum of the squares overflows). *)
Definition isLength (d : float) : Prop :=
  PrimFloat.is_nan d = false ∧ (0 <=? d) = true.

(** *** Calls of the random source *)

(** [m] returns, from every state of the random source, a value that
    satisfies [Q], after exactly [n] calls of [Math.random()]. *)
Definition returnsAfter {A} (m : M A) (n : nat) (Q : A -> Prop) : Prop :=
  forall s, exists a, m s = Returns a (Rng (draws s) (calls s + n)) ∧ Q a.

(** *** Assignment and grouping *)

(** The score of a drone for a group, as [findBestDroneForGroup] computes it. *)
Definition scoreFor (group : list order) (d : drone) : float :=
  droneScore (totalWeightOf group) (calculateCenterLocation (map ord_location group)) d.

(** A drone that can carry the group. *)
Definition canCarry (group : list order) (d : drone) : Prop :=
  (drn_capacity d <? totalWeightOf group) = false.

(** What the loop of [findBestDroneForGroup] keeps, after the drones [seen]:
    the candidate is one of them, can carry the group, and has the score
    [bestScore], above -1; and no drone seen that can carry the group has a
    score above [bestScore]. *)
Definition bestSoFar (group : list order) (seen : list drone)
    (best : option drone * float) : Prop :=
  match best.1 with
  | None => best.2 = -1
  | Some d => d ∈ seen ∧ canCarry group d ∧ best.2 = scoreFor group d
              ∧ (-1 <? scoreFor group d) = true
  end
  ∧ forall d', d' ∈ seen -> canCarry group d' -> (best.2 <? scoreFor group d') = false.

(** What the assignment loop keeps for the groups it leaves out: no drone
    that is still unused would have been taken for one of them. *)
Definition noCapableDroneUnused (drones : list drone) (processed : list (list order))
    (st : list assignment * gset string) : Prop :=
  forall g, g ∈ processed -> g ∉ asg_orders <$> st.1 ->
    forall d, d ∈ drones -> drn_id d ∉ st.2 -> passedOver g d.

(** Every group was within the reach of 50 when its last order was pushed. *)
Definition groupsWithinReach (groups : list (list order)) : Prop :=
  Forall (fun g => (calculateGroupDistance g <=? 50) = true) groups.

(** *** The optimization pass *)

(** The route leaves from [startPoint], visits every point once, and comes
    back to [startPoint]. *)
Definition tourOf (points : list point) (startPoint : point) (route : list point) : Prop :=
  exists tour, route = [startPoint] ++ tour ++ [startPoint] ∧ tour ≡ₚ points.

(** The inputs on which the genetic algorithm is safe: the delivery points
    of the orders have pairwise distinct keys and finite coordinates, and
    the start location has finite coordinates. *)
Definition safeForGenetic (orders : list order) (startLocation : point) : Prop :=
  NoDup (keyOf <$> map deliveryPoint orders)
  ∧ Forall finitePoint (map deliveryPoint orders)
  ∧ finitePoint startLocation.

(** An entry of [optimizedRoutes] made from an assignment: its drone, its
    orders, and a tour of their delivery points from the drone's location. *)
Definition routeOf (a : assignment) (r : optimizedRoute) : Prop :=
  or_drone r = asg_drone a
  ∧ or_orders r = asg_orders a
  ∧ tourOf (map deliveryPoint (asg_orders a)) (drn_location (asg_drone a)) (or_route r).

(** An order of one of the three priority classes. *)
Definition knownPriority (o : order) : Prop :=
  ord_priority o ∈ ["alta"; "media"; "baixa"].
#[global] Instance knownPriority_dec o : Decision (knownPriority o).
Proof. unfold knownPriority. apply _. Defined.

(** *** Groups by proximity *)

(** The orders of [rest], which starts at index [i] of the array, whose
    index is not in [processed]. *)
Fixpoint unprocessed (rest : list order) (i : nat) (processed : gset nat) : list order :=
  match rest with
  | [] => []
  | o :: rest' =>
      if decide (i ∈ processed) then unprocessed rest' (S i) processed
      else o :: unprocessed rest' (S i) processed
  end.

(** A group that starts with a seed, with every order within the threshold
    of the seed's location. *)
Definition aroundSeed (proximityThreshold : float) (group : list order) : Prop :=
  match group with
  | [] => False
  | seed :: others =>
      Forall (fun o => (calculateDistance (ord_location seed) (ord_location o)
                        <=? proximityThreshold) = true) others
  end.

(** *** Inputs of the examples *)

(** A random source whose draws are all 0. *)
Definition zeroDraws : rng := Rng (fun _ => Draw 0 0) 0.

Definition origin : point := Point 0 0 None None.

(** The drones of the repository's tests. *)
Definition testDrones : list drone :=
  [Drone "drone1" 10 60 "idle" 100 (Point 0 0 None None);
   Drone "drone2" 8 65 "idle" 80 (Point 5 5 None None)].

Definition idleDrone : drone :=
  Drone "drone1" 10 60 "idle" 100 (Point 0 0 None None).
Definition busyDrone : drone :=
  Drone "drone1" 10 60 "flying" 100 (Point 0 0 None None).

(** Two orders of the repository's tests. *)
Definition pendingOrder : order :=
  Order "order1" 3 (Point 10 15 None None) "alta" "pending" 120.
Definition lowPriorityOrder : order :=
  Order "order3" 2 (Point 12 18 None None) "baixa" "pending" 40.

(** The orders of the repository's capacity test. *)
Definition heavyOrder : order :=
  Order "heavy1" 15 (Point 10 10 None None) "alta" "pending" 100.
Definition heavyOrders : list order :=
  [heavyOrder; Order "heavy2" 12 (Point 15 15 None None) "alta" "pending" 90].


(** One route with one task and a battery estimate of 4. *)
Definition oneTaskRoute : optimizedRoute :=
  OptimizedRoute idleDrone [pendingOrder] [] 10 4.

(** The points of the repository's k-means test, with K = 2. *)
Definition clusteringTestPoints : list point :=
  [Point 1 1 None None; Point 2 2 None None; Point 10 10 None None; Point 11 11 None None].


(** Four delivery points with the ids of four orders. *)
Definition labelledPoints : list point :=
  [Point 10 10 (Some "order1") None; Point 20 20 (Some "order2") None;
   Point 5 5 (Some "order3") None; Point 7 1 (Some "order4") None].

(** Four delivery points with ids, one of them with a coordinate that is
    not a number. *)
Definition pointsWithNaN : list point :=
  [Point nan 10 (Some "order1") None; Point 20 20 (Some "order2") None;
   Point 5 5 (Some "order3") None; Point 7 1 (Some "order4") None].

(* ===================================================================== *)
(** * Properties                                                          *)
(* ===================================================================== *)

(** ** The order of binary64 numbers

    The comparisons of primitive floats are specified on [spec_float]; the
    facts below are the ones the algorithms rely on. *)

Module FloatOrder.

Lemma SFcompare_lt_trans a b c :
  SFcompare a b = Some Lt -> SFcompare b c = Some Lt -> SFcompare a c = Some Lt.
Proof.
  destruct a as [sa|sa| |sa ma ea], b as [sb|sb| |sb mb eb], c as [sc|sc| |sc mc ec];
    simpl; try discriminate;
    repeat match goal with s : bool |- _ => destruct s end;
    simpl; try discriminate; try reflexivity; intros H1 H2.
  all: injection H1 as H1; injection H2 as H2; f_equal.
  all: change (Pos.compare_cont Eq) with Pos.compare in *.
  all: destruct (Z.compare_spec ea eb), (Z.compare_spec eb ec), (Z.compare_spec ea ec);
    try discriminate; try lia; subst.
  all: destruct (Pos.compare_spec ma mb), (Pos.compare_spec mb mc), (Pos.compare_spec ma mc);
    simpl in *; try discriminate; try reflexivity; try lia.
Qed.

Lemma SFcompare_le_lt_trans a b c :
  SFleb a b = true -> SFcompare b c = Some Lt -> SFcompare a c = Some Lt.
Proof.
  unfold SFleb.
  destruct a as [sa|sa| |sa ma ea], b as [sb|sb| |sb mb eb], c as [sc|sc| |sc mc ec];
    simpl; try discriminate;
    repeat match goal with s : bool |- _ => destruct s end;
    simpl; try discriminate; try reflexivity; intros H1 H2.
  all: injection H2 as H2; f_equal.
  all: change (Pos.compare_cont Eq) with Pos.compare in *.
  all: destruct (Z.compare_spec ea eb), (Z.compare_spec eb ec), (Z.compare_spec ea ec);
    try discriminate; try lia; subst.
  all: destruct (Pos.compare_spec ma mb), (Pos.compare_spec mb mc), (Pos.compare_spec ma mc);
    simpl in *; try discriminate; try reflexivity; try lia.
Qed.

Lemma SFcompare_irrefl a : SFcompare a a <> Some Lt.
Proof.
  destruct a as [s|s| |s m e]; simpl; try discriminate;
    destruct s; try discriminate;
    rewrite Z.compare_refl; change (Pos.compare_cont Eq) with Pos.compare;
    rewrite Pos.compare_refl; discriminate.
Qed.

Lemma ltb_trans a b c : (a <? b) = true -> (b <? c) = true -> (a <? c) = true.
Proof.
  rewrite !FloatAxioms.ltb_spec. unfold SFltb.
  destruct (SFcompare (Prim2SF a) (Prim2SF b)) as [[]|] eqn:E1; try discriminate.
  destruct (SFcompare (Prim2SF b) (Prim2SF c)) as [[]|] eqn:E2; try discriminate.
  now rewrite (SFcompare_lt_trans _ _ _ E1 E2).
Qed.

Lemma leb_ltb_trans a b c : (a <=? b) = true -> (b <? c) = true -> (a <? c) = true.
Proof.
  rewrite !FloatAxioms.ltb_spec, FloatAxioms.leb_spec. unfold SFltb. intros H1.
  destruct (SFcompare (Prim2SF b) (Prim2SF c)) as [[]|] eqn:E2; try discriminate.
  intros _. now rewrite (SFcompare_le_lt_trans _ _ _ H1 E2).
Qed.

Lemma ltb_irrefl a : (a <? a) = false.
Proof.
  rewrite FloatAxioms.ltb_spec. unfold SFltb.
  destruct (SFcompare (Prim2SF a) (Prim2SF a)) as [[]|] eqn:E; auto.
  now apply SFcompare_irrefl in E.
Qed.


Lemma not_nan_spec a : PrimFloat.is_nan a = false -> Prim2SF a <> S754_nan.
Proof.
  unfold PrimFloat.is_nan. rewrite FloatAxioms.eqb_spec. intros H E.
  rewrite E in H. discriminate.
Qed.

Lemma eqb_refl a : PrimFloat.is_nan a = false -> (a =? a) = true.
Proof. unfold PrimFloat.is_nan. now destruct (a =? a). Qed.

(** A number that -Infinity is not below is -Infinity. *)
Lemma not_above_neg_infinity a :
  PrimFloat.is_nan a = false -> (neg_infinity <? a) = false -> (a =? neg_infinity) = true.
Proof.
  intros Hn%not_nan_spec. rewrite FloatAxioms.ltb_spec, FloatAxioms.eqb_spec.
  change (Prim2SF neg_infinity) with (S754_infinity true).
  unfold SFltb, SFeqb.
  destruct (Prim2SF a) as [s|s| |s m e]; simpl; try discriminate; try congruence.
  now destruct s.
Qed.

End FloatOrder.

(** ** Computations that return *)

Lemma returns_ret {A} (a : A) (Q : A -> Prop) : Q a -> returns (ret a) Q.
Proof. intros H s. now exists a, s. Qed.

Lemma returns_bind {A B} (m : M A) (k : A -> M B) (P : A -> Prop) (Q : B -> Prop) :
  returns m P -> (forall a, P a -> returns (k a) Q) -> returns (JS.bind m k) Q.
Proof.
  intros Hm Hk s. destruct (Hm s) as (a & s' & E & Ha).
  unfold JS.bind. rewrite E. apply (Hk a Ha).
Qed.

Lemma returns_weaken {A} (m : M A) (P Q : A -> Prop) :
  returns m P -> (forall a, P a -> Q a) -> returns m Q.
Proof.
  intros Hm HPQ s. destruct (Hm s) as (a & s' & E & Ha). exists a, s'. auto.
Qed.

Lemma returns_randomIndex (n : nat) :
  returns (randomIndex n) (fun i => (0 < n)%nat -> (i < n)%nat).
Proof.
  intros s. eexists _, _. split; [reflexivity|].
  intros Hn. destruct (decide (n = 0%nat)); [lia|].
  apply Nat.mod_upper_bound. assumption.
Qed.

Lemma returns_Math_random : returns Math_random (fun _ => True).
Proof. intros s. eexists _, _. split; [reflexivity|trivial]. Qed.

(* ===================================================================== *)
(** ** The optimization pass: no eligible unit or task                    *)
(* ===================================================================== *)

(** C9.  When no drone is available (idle with a battery level above 20) or
    no order is pending, [optimizeDeliveryRoutes] returns the failure object
    with its [success] flag false and its message; it computes no route, and
    no exception leaves it. *)
Theorem optimizeDeliveryRoutes_nothing_eligible
    (Math_exp : float -> float) (drones : list drone) (orders : list order)
    (algorithm : option string) (random : rng) :
  filter isAvailable drones = [] ∨ filter isPending orders = [] ->
  optimizeDeliveryRoutes Math_exp drones orders algorithm random
    = Failure "Não há drones ou pedidos disponíveis"
  ∧ success (optimizeDeliveryRoutes Math_exp drones orders algorithm random) = false.
Proof.
  intros H. unfold optimizeDeliveryRoutes.
  destruct (decide _) as [_|Hn]; [split; reflexivity|].
  exfalso. apply Hn. destruct H as [-> | ->]; auto.
Qed.

(** C9 on a drone that is flying and one pending order. *)
Lemma optimizeDeliveryRoutes_nothing_eligible_witness :
  optimizeDeliveryRoutes (fun _ => 0) [busyDrone] [pendingOrder] None zeroDraws
    = Failure "Não há drones ou pedidos disponíveis"
  ∧ success (optimizeDeliveryRoutes (fun _ => 0) [busyDrone] [pendingOrder] None zeroDraws)
    = false.
Proof.
  apply (optimizeDeliveryRoutes_nothing_eligible (fun _ => 0) [busyDrone] [pendingOrder]
           None zeroDraws).
  left. reflexivity.
Defined.

(* ===================================================================== *)
(** ** Fleet sizing                                                       *)
(* ===================================================================== *)




(* ===================================================================== *)
(** ** Statistics                                                         *)
(* ===================================================================== *)

Lemma fold_left_order_count (routes : list optimizedRoute) (n : nat) :
  fold_left (fun sum r => (sum + length (or_orders r))%nat) routes n
  = (n + taskCount routes)%nat.
Proof.
  unfold taskCount. revert n.
  induction routes as [|r routes IH]; intros n; simpl.
  - lia.
  - rewrite IH, length_app. lia.
Qed.

(** C7 as the design document states it fails on one route with one task
    and a battery estimate of 4: the efficiency is 50, not 1/2. *)
Lemma calculateOptimizationStats_not_as_stated :
  ¬ statsAsStated [oneTaskRoute] (calculateOptimizationStats [oneTaskRoute]).
Proof.
  intros (_ & _ & H & _).
  apply (f_equal (fun e => e =? 50)) in H. vm_compute in H. discriminate.
Qed.

(** C7, as the code has it.  The total task count is the sum of the order
    counts; the reported distance is the sum of the halved battery estimates
    rounded to two decimals; the efficiency is tasks per unit of the
    unrounded distance times 100, and 0 for no task; the utilization is
    tasks per route, and 0 for no route. *)
Theorem calculateOptimizationStats_formulas (routes : list optimizedRoute) :
  let s := calculateOptimizationStats routes in
  st_totalOrders s = taskCount routes
  ∧ st_totalDistance s = Math_round (derivedDistance routes * 100) / 100
  ∧ st_efficiency s
    = (if decide (0 < taskCount routes)%nat
       then of_nat (taskCount routes) / derivedDistance routes * 100 else 0)
  ∧ st_utilization s
    = (if decide (routes = []) then 0
       else of_nat (taskCount routes) / of_nat (length routes)).
Proof.
  cbn zeta. unfold calculateOptimizationStats.
  cbn [st_totalOrders st_totalDistance st_efficiency st_utilization].
  rewrite fold_left_order_count, Nat.add_0_l. fold (derivedDistance routes).
  repeat split.
  - destruct (decide _) as [H|H], (0 <? taskCount routes)%nat eqn:E; try reflexivity.
    + apply Nat.ltb_ge in E. lia.
    + apply Nat.ltb_lt in E. lia.
  - destruct (decide _) as [->|H]; [reflexivity|].
    destruct routes; [congruence|reflexivity].
Qed.

(* ===================================================================== *)
(** ** Facility location: k-means                                         *)
(* ===================================================================== *)

Lemma initialCentroids_returns (points : list point) (k : nat) :
  points ≠ [] ->
  forall centroids,
    returns (initialCentroids points k centroids)
            (fun cs => length cs = (length centroids + k)%nat).
Proof.
  intros Hne. induction k as [|k IH]; intros centroids; simpl.
  - apply returns_ret. lia.
  - eapply returns_bind; [apply returns_randomIndex|].
    intros index Hi. cbn beta.
    destruct (points !! index) as [randomPoint|] eqn:E.
    + eapply returns_weaken; [apply IH|].
      intros cs ->. rewrite length_app. simpl. lia.
    + apply lookup_ge_None in E. destruct points; [congruence|]. simpl in *. lia.
Qed.

Lemma assignToClusters_returns (centroids points : list point) :
  centroids ≠ [] ->
  forall clusters,
    returns (assignToClusters centroids points clusters)
            (fun cl => length cl = length clusters).
Proof.
  intros Hne. induction points as [|p points IH]; intros clusters; simpl.
  - apply returns_ret. reflexivity.
  - destruct centroids as [|c0 others]; [congruence|].
    eapply returns_weaken; [apply IH|].
    intros cl ->. apply length_alter.
Qed.

Lemma updateCentroids_length (clusters : list (list point)) (n : nat) :
  forall i centroids changed,
    length (updateCentroids clusters n i centroids changed).1 = length centroids.
Proof.
  induction n as [|n IH]; intros i centroids changed; simpl; [reflexivity|].
  destruct (clusters !! i), (centroids !! i); try apply IH.
  destruct (decide _); [|apply IH].
  destruct (0.1 <? _); [|apply IH].
  rewrite IH. apply length_insert.
Qed.

(** The loop keeps exactly [k] centroids, and ends. *)
Lemma lloyd_returns (points : list point) (k : nat) (fuel : nat) :
  (0 < k)%nat ->
  forall centroids changed iterations,
    length centroids = k ->
    returns (lloyd fuel points k centroids changed iterations)
            (fun r => length r.1 = k).
Proof.
  intros Hk. induction fuel as [|fuel IH]; intros centroids changed iterations Hlen; simpl.
  - apply returns_ret. assumption.
  - destruct changed; [|apply returns_ret; assumption].
    eapply returns_bind.
    + apply assignToClusters_returns. destruct centroids; simpl in *; [lia|congruence].
    + intros clusters _. cbn beta.
      pose proof (updateCentroids_length clusters k 0 centroids false) as Hl.
      destruct (updateCentroids clusters k 0 centroids false) as [centroids' changed'].
      apply IH. simpl in Hl. congruence.
Qed.

(** C2, as the code behaves.  For a non-empty point set and K > 1 the loop
    of [kMeansBasePlacement] ends with exactly K centroids, and the [return]
    statement then throws a ReferenceError: no result is returned. *)
Theorem kMeansBasePlacement_throws (points : list point) (k : nat) (random : rng) :
  points ≠ [] -> (1 < k)%nat ->
  kMeansBasePlacement points k random = Throws ReferenceError.
Proof.
  intros Hne Hk. unfold kMeansBasePlacement, JS.bind.
  destruct (initialCentroids_returns points k Hne [] random) as (cs & s1 & -> & Hcs).
  simpl in Hcs.
  destruct (lloyd_returns points k 100 ltac:(lia) cs true 0%nat Hcs s1)
    as ([cs' it] & s2 & -> & _).
  reflexivity.
Qed.

(** C2 on the points of the repository's k-means test, with K = 2. *)
Lemma kMeansBasePlacement_throws_witness :
  kMeansBasePlacement clusteringTestPoints 2 zeroDraws = Throws ReferenceError.
Proof.
  apply (kMeansBasePlacement_throws clusteringTestPoints 2 zeroDraws).
  - discriminate.
  - lia.
Defined.

(* ===================================================================== *)
(** ** Sorting in place                                                   *)
(* ===================================================================== *)

Lemma sort_insert_Permutation {A} (compare : A -> A -> float) (a : A) (sorted : list A) :
  Permutation (JS.sort_insert compare a sorted) (a :: sorted).
Proof.
  induction sorted as [|b rest IH]; simpl; [reflexivity|].
  destruct (0 <? compare b a); [reflexivity|].
  rewrite IH. apply perm_swap.
Qed.

Lemma sort_Permutation {A} (compare : A -> A -> float) (l : list A) :
  Permutation (JS.sort compare l) l.
Proof.
  unfold JS.sort.
  enough (H : forall acc, Permutation
            (fold_left (fun sorted a => JS.sort_insert compare a sorted) l acc)
            (acc ++ l)) by apply (H []).
  induction l as [|a l IH]; intros acc; simpl.
  - now rewrite app_nil_r.
  - rewrite IH, sort_insert_Permutation. apply Permutation_middle.
Qed.

(** C8, on the code.  [groupOrdersForOptimalDelivery], called on an array
    that holds a low-priority order before a high-priority one, leaves the
    two in the other order in the caller's array. *)
Theorem groupOrdersForOptimalDelivery_reorders_input :
  (groupOrdersForOptimalDelivery [lowPriorityOrder; pendingOrder] [idleDrone]).2
    = [pendingOrder; lowPriorityOrder]
  ∧ (groupOrdersForOptimalDelivery [lowPriorityOrder; pendingOrder] [idleDrone]).2
    ≠ [lowPriorityOrder; pendingOrder].
Proof.
  split.
  - vm_compute. reflexivity.
  - intros H. apply (f_equal (fun l => ord_id <$> head l)) in H.
    vm_compute in H. discriminate.
Qed.

(** [assignOrderGroupsToDrones] does the same to the array of groups. *)
Example assignOrderGroupsToDrones_reorders_input :
  (assignOrderGroupsToDrones [[lowPriorityOrder]; [pendingOrder]] testDrones).2
  = [[pendingOrder]; [lowPriorityOrder]].
Proof. vm_compute. reflexivity. Qed.

(** What the two functions keep: the caller's arrays hold the same elements
    afterwards, each order and each group as it was. *)
Lemma groupOrdersForOptimalDelivery_input_Permutation orders drones :
  Permutation (groupOrdersForOptimalDelivery orders drones).2 orders.
Proof. apply sort_Permutation. Qed.

Lemma assignOrderGroupsToDrones_input_Permutation orderGroups drones :
  Permutation (assignOrderGroupsToDrones orderGroups drones).2 orderGroups.
Proof. apply sort_Permutation. Qed.

(* ===================================================================== *)
(** ** Task grouping                                                      *)
(* ===================================================================== *)

Lemma totalWeightOf_snoc (group : list order) (o : order) :
  totalWeightOf (group ++ [o]) = totalWeightOf group + ord_weight o.
Proof. unfold totalWeightOf. now rewrite fold_left_app. Qed.

Lemma pushToFirstFit_spec (ceiling : float) (o : order) :
  forall groups groups',
    pushToFirstFit ceiling o groups = Some groups' ->
    concat groups' ≡ₚ o :: concat groups
    ∧ (groupsWithinCeiling ceiling groups -> groupsWithinCeiling ceiling groups').
Proof.
  induction groups as [|g rest IH]; intros groups' E; simpl in E; [discriminate|].
  destruct (_ && _) eqn:Hfit.
  - injection E as <-. split.
    + simpl. rewrite <- app_assoc. simpl.
      rewrite <- Permutation_middle. reflexivity.
    + intros Hok. inversion Hok as [|? ? [Hne _] Hrest]; subst.
      constructor; [|assumption]. split.
      * now destruct g.
      * intros _. rewrite totalWeightOf_snoc.
        now apply andb_true_iff in Hfit as [Hw _].
  - destruct (pushToFirstFit ceiling o rest) as [rest'|] eqn:Er; [|discriminate].
    injection E as <-. destruct (IH rest' eq_refl) as [Hp Hk]. split.
    + simpl. rewrite Hp. symmetry. apply Permutation_middle.
    + intros Hok. inversion Hok; subst. constructor; [assumption|]. now apply Hk.
Qed.

Lemma groupingStep_spec (ceiling : float) (groups : list (list order)) (o : order) :
  concat (groupingStep ceiling groups o) ≡ₚ o :: concat groups
  ∧ (groupsWithinCeiling ceiling groups ->
     groupsWithinCeiling ceiling (groupingStep ceiling groups o)).
Proof.
  unfold groupingStep.
  destruct (pushToFirstFit ceiling o groups) as [groups'|] eqn:E.
  - now apply pushToFirstFit_spec.
  - split.
    + rewrite concat_app. simpl.
      symmetry. apply Permutation_cons_append.
    + intros Hok. apply Forall_app. split; [assumption|].
      constructor; [|constructor]. split; [discriminate|]. simpl. lia.
Qed.

Lemma grouping_loop_spec (ceiling : float) (orders : list order) :
  forall groups,
    concat (fold_left (groupingStep ceiling) orders groups) ≡ₚ concat groups ++ orders
    ∧ (groupsWithinCeiling ceiling groups ->
       groupsWithinCeiling ceiling (fold_left (groupingStep ceiling) orders groups)).
Proof.
  induction orders as [|o orders IH]; intros groups; simpl.
  - rewrite app_nil_r. auto.
  - destruct (IH (groupingStep ceiling groups o)) as [Hp Hk].
    destruct (groupingStep_spec ceiling groups o) as [Hp' Hk']. split.
    + rewrite Hp, Hp'. apply Permutation_middle.
    + auto.
Qed.

(** C5 as the design document states it fails on the orders of the
    repository's capacity test: an order heavier than every drone's capacity
    makes a group of its own, above the ceiling. *)
Lemma groupOrdersForOptimalDelivery_above_ceiling :
  ¬ groupingAsStated heavyOrders testDrones
      (groupOrdersForOptimalDelivery heavyOrders testDrones).1.
Proof.
  intros (_ & _ & H). apply Forall_inv in H. vm_compute in H. discriminate.
Qed.

(** C5, as the code has it.  The groups partition the input orders: their
    concatenation is a permutation of the input, and their sizes add up to
    its length.  No group is empty, and no group of two or more orders is
    heavier than the ceiling, the largest capacity of the drones; an order
    that is put in a group of its own is not compared with the ceiling. *)
Theorem groupOrdersForOptimalDelivery_partition (orders : list order) (drones : list drone) :
  let groups := (groupOrdersForOptimalDelivery orders drones).1 in
  concat groups ≡ₚ orders
  ∧ sum_list (length <$> groups) = length orders
  ∧ Forall (fun g => g ≠ []) groups
  ∧ Forall (fun g => (2 ≤ length g)%nat ->
                     (totalWeightOf g <=? capacityCeiling drones) = true) groups.
Proof.
  cbn zeta. unfold groupOrdersForOptimalDelivery. cbn [fst].
  fold (capacityCeiling drones).
  destruct (grouping_loop_spec (capacityCeiling drones)
              (JS.sort byPriorityDesc orders) []) as [Hp Hk].
  simpl in Hp. pose proof (sort_Permutation byPriorityDesc orders) as Hs.
  assert (Hp' := Permutation_trans Hp Hs). clear Hp Hs.
  specialize (Hk (Forall_nil_2 _)).
  split; [exact Hp'|]. split.
  - rewrite <- length_concat. now apply Permutation_length.
  - split; eapply Forall_impl; try exact Hk; cbn beta; tauto.
Qed.

(* ===================================================================== *)
(** ** Assignment                                                         *)
(* ===================================================================== *)

Lemma bestDrone_loop_keeps_candidate (w : float) (c : point) (drones : list drone) :
  forall best, best.1 ≠ None -> (fold_left (bestDroneStep w c) drones best).1 ≠ None.
Proof.
  induction drones as [|d drones IH]; intros best Hb; simpl; [assumption|].
  apply IH. unfold bestDroneStep.
  destruct (drn_capacity d <? w); [assumption|].
  destruct (best.2 <? _); [discriminate|assumption].
Qed.

Lemma bestDrone_loop_chosen (w : float) (c : point) (drones : list drone) (d : drone) :
  forall best,
    (fold_left (bestDroneStep w c) drones best).1 = Some d ->
    best.1 = Some d ∨ (d ∈ drones ∧ (drn_capacity d <? w) = false).
Proof.
  induction drones as [|d' drones IH]; intros best E; simpl in E; [now left|].
  apply IH in E as [E|[Hin Hcap]].
  - unfold bestDroneStep in E.
    destruct (drn_capacity d' <? w) eqn:Hcap; [now left|].
    destruct (best.2 <? _); [|now left].
    injection E as ->. right. split; [left|assumption].
  - right. split; [now right|assumption].
Qed.

Lemma findBestDroneForGroup_chosen (group : list order) (drones : list drone) (d : drone) :
  findBestDroneForGroup group drones = Some d ->
  d ∈ drones ∧ (drn_capacity d <? totalWeightOf group) = false.
Proof.
  unfold findBestDroneForGroup. intros E.
  apply bestDrone_loop_chosen in E as [E|E]; [discriminate|assumption].
Qed.

Lemma findBestDroneForGroup_None (group : list order) (drones : list drone) :
  findBestDroneForGroup group drones = None <-> Forall (passedOver group) drones.
Proof.
  unfold findBestDroneForGroup, passedOver.
  set (w := totalWeightOf group). set (c := calculateCenterLocation _).
  induction drones as [|d drones IH]; simpl.
  - split; [constructor|reflexivity].
  - unfold bestDroneStep at 2. cbn [snd].
    destruct (drn_capacity d <? w) eqn:Hcap.
    + rewrite IH. split; [intros H; constructor; auto|now inversion 1].
    + destruct (-1 <? droneScore w c d) eqn:Hs.
      * split.
        -- intros E. exfalso. revert E. now apply bestDrone_loop_keeps_candidate.
        -- inversion 1 as [|? ? [?|?] ?]; congruence.
      * rewrite IH. split; [intros H; constructor; auto|now inversion 1].
Qed.

(** A group that no drone of the list would take is taken by no drone of a
    part of the list. *)
Lemma findBestDroneForGroup_None_filter (group : list order) (drones : list drone)
    (P : drone -> Prop) `{!forall d, Decision (P d)} :
  findBestDroneForGroup group drones = None ->
  findBestDroneForGroup group (filter P drones) = None.
Proof.
  rewrite !findBestDroneForGroup_None, !Forall_forall.
  intros Hall d Hd%list_elem_of_filter. apply Hall, Hd.
Qed.

Lemma assignStep_sound (drones : list drone) (processed : list (list order))
    (st : list assignment * gset string) (group : list order) :
  assignmentsSound drones processed st ->
  assignmentsSound drones (processed ++ [group]) (assignStep drones st group).
Proof.
  destruct st as [assignments usedDrones]. intros (Hsub & Hnd & Hused & Hall).
  cbn [fst snd] in *. unfold assignStep.
  destruct (findBestDroneForGroup group _) as [bestDrone|] eqn:E; cbn [fst snd].
  - pose proof (findBestDroneForGroup_chosen _ _ _ E) as [Hin Hcap].
    apply list_elem_of_filter in Hin as [Hfree Hin].
    assert (Hids : assignedIds (assignments ++ [Assignment bestDrone group None])
                   = assignedIds assignments ++ [drn_id bestDrone]).
    { unfold assignedIds. now rewrite fmap_app. }
    unfold assignmentsSound. cbn [fst snd].
    split; [|split; [|split]].
    + rewrite fmap_app. simpl. now apply submseteq_skips_r.
    + rewrite Hids. apply NoDup_app.
      split; [assumption|]. split; [|apply NoDup_singleton].
      intros i Hi ->%list_elem_of_singleton. apply Hfree, Hused, Hi.
    + intros i. rewrite Hids, elem_of_union, elem_of_app, Hused,
        elem_of_singleton, list_elem_of_singleton. tauto.
    + apply Forall_app. split; [assumption|].
      constructor; [|constructor]. cbn [asg_drone asg_orders asg_route].
      split; [assumption|]. split; [assumption|]. split; [|reflexivity].
      intros Hnone. eapply findBestDroneForGroup_None_filter in Hnone.
      rewrite E in Hnone. discriminate.
  - unfold assignmentsSound. cbn [fst snd].
    split; [|split; [|split]]; try assumption.
    now apply submseteq_inserts_r.
Qed.

Lemma assign_loop_sound (drones : list drone) (groups : list (list order)) :
  forall processed st,
    assignmentsSound drones processed st ->
    assignmentsSound drones (processed ++ groups) (fold_left (assignStep drones) groups st).
Proof.
  induction groups as [|g groups IH]; intros processed st Hst; simpl.
  - now rewrite app_nil_r.
  - replace (processed ++ g :: groups) with ((processed ++ [g]) ++ groups)
      by now rewrite <- app_assoc.
    apply IH.
    now apply assignStep_sound.
Qed.

(** C1 as the design document states it fails on one group of one order of
    weight 15 and drones of capacity 10 and 8: the returned array is empty,
    and the group is in no part of the output. *)
Lemma assignOrderGroupsToDrones_drops_group :
  ¬ everyGroupInOutput [[heavyOrder]]
      (assignOrderGroupsToDrones [[heavyOrder]] testDrones).1.
Proof.
  intros H. destruct (H [heavyOrder]) as (a & Ha & _); [left|].
  vm_compute in Ha. inversion Ha.
Qed.

Lemma noTaker_more_used (drones : list drone) (used used' : gset string)
    (group : list order) :
  used ⊆ used' -> noTaker drones used group -> noTaker drones used' group.
Proof. intros Hsub Hno d Hd Hfree. apply Hno; [assumption|]. set_solver. Qed.

Lemma assignStep_accounts (drones : list drone) (processed : list (list order))
    (st : list assignment * gset string) (leftOut : list (list order))
    (group : list order) :
  everyGroupAccountedFor drones processed st leftOut ->
  exists leftOut',
    everyGroupAccountedFor drones (processed ++ [group]) (assignStep drones st group)
                           leftOut'.
Proof.
  destruct st as [assignments usedDrones]. intros [Hperm Hleft].
  cbn [fst snd] in *. unfold assignStep.
  destruct (findBestDroneForGroup group _) as [bestDrone|] eqn:E.
  - exists leftOut. split; cbn [fst snd].
    + rewrite fmap_app, Hperm. simpl. rewrite <- !app_assoc.
      apply Permutation_app_head, Permutation_app_comm.
    + eapply Forall_impl; [exact Hleft|]. intros g.
      apply noTaker_more_used. set_solver.
  - exists (leftOut ++ [group]). split; cbn [fst snd].
    + now rewrite Hperm, app_assoc.
    + apply Forall_app. split; [assumption|]. constructor; [|constructor].
      intros d Hd Hfree. apply findBestDroneForGroup_None in E.
      rewrite Forall_forall in E. apply E. now apply list_elem_of_filter.
Qed.

Lemma assign_loop_accounts (drones : list drone) (groups : list (list order)) :
  forall processed st leftOut,
    everyGroupAccountedFor drones processed st leftOut ->
    exists leftOut',
      everyGroupAccountedFor drones (processed ++ groups)
                             (fold_left (assignStep drones) groups st) leftOut'.
Proof.
  induction groups as [|g groups IH]; intros processed st leftOut Hst; simpl.
  - exists leftOut. now rewrite app_nil_r.
  - replace (processed ++ g :: groups) with ((processed ++ [g]) ++ groups)
      by now rewrite <- app_assoc.
    destruct (assignStep_accounts drones processed st leftOut g Hst) as (leftOut' & Hst').
    now apply (IH _ _ leftOut').
Qed.

(** C1, as the code has it.  [assignOrderGroupsToDrones] returns the
    assignments only.  Every group is the group of exactly one assignment
    or is left out of the output: the input groups are the groups of the
    assignments and the groups left out, each as often as it was given.
    An assignment gives its group one drone of the list that can carry it,
    and no drone id is in two assignments.  A group is left out only when
    no eligible unused drone exists for it: every drone of the list that
    ends without an assignment cannot carry the group, or has a score for
    it that is not above -1.  And a group for which [findBestDroneForGroup]
    finds no drone in the whole list is in no assignment. *)
Theorem assignOrderGroupsToDrones_assignments (orderGroups : list (list order))
    (drones : list drone) :
  let assignments := (assignOrderGroupsToDrones orderGroups drones).1 in
  (asg_orders <$> assignments) ⊆+ orderGroups
  ∧ NoDup (assignedIds assignments)
  ∧ Forall (fun a => asg_drone a ∈ drones
                     ∧ (drn_capacity (asg_drone a) <? totalWeightOf (asg_orders a)) = false)
           assignments
  ∧ (forall g, findBestDroneForGroup g drones = None -> g ∉ asg_orders <$> assignments)
  ∧ exists leftOut,
      orderGroups ≡ₚ (asg_orders <$> assignments) ++ leftOut
      ∧ forall g, g ∈ leftOut ->
          forall d, d ∈ drones -> drn_id d ∉ assignedIds assignments -> passedOver g d.
Proof.
  cbn zeta. unfold assignOrderGroupsToDrones. cbn [fst].
  set (sorted := JS.sort byAveragePriorityDesc orderGroups).
  destruct (assign_loop_sound drones sorted [] ([], ∅)) as (Hsub & Hnd & Hused & Hall).
  { unfold assignmentsSound. cbn [fst snd].
    split; [|split; [|split]]; try constructor; set_solver. }
  destruct (assign_loop_accounts drones sorted [] ([], ∅) [])
    as (leftOut & Hperm & Hleft).
  { split; [reflexivity|constructor]. }
  simpl app in Hsub, Hperm.
  set (st := fold_left (assignStep drones) sorted ([], ∅)) in *.
  split; [|split; [|split; [|split]]].
  - etrans; [exact Hsub|]. apply Permutation_submseteq, sort_Permutation.
  - exact Hnd.
  - eapply Forall_impl; [exact Hall|]. cbn beta. tauto.
  - intros g Hnone (a & -> & Ha)%list_elem_of_fmap.
    rewrite Forall_forall in Hall. now destruct (Hall a Ha) as (_ & _ & Hsome & _).
  - exists leftOut. split.
    + rewrite <- Hperm. symmetry. apply sort_Permutation.
    + intros g Hg d Hd Hfree. rewrite Forall_forall in Hleft.
      apply (Hleft g Hg d Hd). now rewrite Hused.
Qed.

(** On the drones of the tests and a heavy and a light group: the light
    group gets the first drone, and the heavy group is left out, for the
    second drone, of capacity 8, cannot carry its 15 kg. *)
Example assignOrderGroupsToDrones_one_of_two :
  (fun a => (drn_id (asg_drone a), ord_id <$> asg_orders a))
    <$> (assignOrderGroupsToDrones [[heavyOrder]; [pendingOrder]] testDrones).1
  = [("drone1", ["order1"])].
Proof. vm_compute. reflexivity. Qed.

(* ===================================================================== *)
(** ** The optimization pass: time and battery estimates                  *)
(* ===================================================================== *)

(** Both estimators return 0 for a missing route. *)
Lemma estimators_of_missing_route (d : drone) :
  calculateRouteTime None d = 0 ∧ calculateBatteryConsumption None = 0.
Proof. split; reflexivity. Qed.

(** No assignment made by [assignOrderGroupsToDrones] has a route. *)
Lemma assignOrderGroupsToDrones_no_route (orderGroups : list (list order))
    (drones : list drone) :
  Forall (fun a => asg_route a = None) (assignOrderGroupsToDrones orderGroups drones).1.
Proof.
  unfold assignOrderGroupsToDrones. cbn [fst].
  destruct (assign_loop_sound drones (JS.sort byAveragePriorityDesc orderGroups) [] ([], ∅))
    as (_ & _ & _ & Hall).
  { repeat split; cbn [fst snd]; try constructor. - set_solver. - set_solver. }
  eapply Forall_impl; [exact Hall|]. cbn beta. tauto.
Qed.

Lemma mapAssignments_estimates (Math_exp : float -> float) (algorithm : string)
    (assignments : list assignment) :
  Forall (fun a => asg_route a = None) assignments ->
  forall s routes s',
    mapAssignments Math_exp algorithm assignments s = Returns routes s' ->
    Forall (fun r => or_estimatedTime r = 0 ∧ or_estimatedBattery r = 0) routes.
Proof.
  induction 1 as [|a rest Ha _ IH]; intros s routes s' E; simpl in E.
  - injection E as <- _. constructor.
  - unfold JS.bind, optimizeAssignment in E. unfold JS.bind in E.
    destruct (calculateOptimalRoute _ _ _ _ s) as [route s1|e]; [|discriminate].
    simpl in E.
    destruct (mapAssignments _ _ rest s1) as [rs s2|e] eqn:E2; [|discriminate].
    injection E as <- _. constructor.
    + rewrite Ha. split; reflexivity.
    + eapply IH, E2.
Qed.

(** C10.  In every successful result of [optimizeDeliveryRoutes], every entry
    of [routes] has [estimatedTime] 0 and [estimatedBattery] 0, whatever the
    route: both are computed from [assignment.route], which the assignment
    does not have, and both estimators return 0 for a missing route. *)
Theorem successful_routes_have_zero_estimates
    (Math_exp : float -> float) (drones : list drone) (orders : list order)
    (algorithm : option string) (random : rng)
    (routes : list optimizedRoute) (stats : optimizationStats) (used : string) :
  optimizeDeliveryRoutes Math_exp drones orders algorithm random
    = Success routes stats used ->
  Forall (fun r => or_estimatedTime r = 0 ∧ or_estimatedBattery r = 0) routes.
Proof.
  unfold optimizeDeliveryRoutes. destruct (decide _); [discriminate|].
  destruct (mapAssignments _ _ _ _) as [rs s'|e] eqn:E; [|discriminate].
  intros [= <- _ _].
  eapply mapAssignments_estimates; [|exact E].
  apply assignOrderGroupsToDrones_no_route.
Qed.

(** C10 on one idle drone and one pending order. *)
Lemma successful_routes_have_zero_estimates_witness :
  exists routes,
    length routes = 1%nat
    ∧ Forall (fun r => or_estimatedTime r = 0 ∧ or_estimatedBattery r = 0) routes.
Proof.
  eexists. split; cycle 1.
  - eapply (successful_routes_have_zero_estimates (fun _ => 0) [idleDrone] [pendingOrder]
              None zeroDraws).
    vm_compute. reflexivity.
  - reflexivity.
Defined.

Lemma slice_of_round_trip {A} (startPoint : A) (tour : list A) :
  slice_1_m1 ([startPoint] ++ tour ++ [startPoint]) = tour.
Proof.
  unfold slice_1_m1. simpl. rewrite drop_0, length_app. simpl.
  replace (length tour + 1 - 1)%nat with (length tour) by lia.
  now rewrite take_app_length.
Qed.

(** On a route that leaves from a start point, visits a tour and comes
    back, the estimators measure the tour from and to the start point: the
    battery estimate is twice that distance, and the time estimate is the
    travel time at the drone's speed, in minutes, plus 3 minutes per point
    of the tour and 5 minutes of loading. *)
Lemma estimators_of_round_trip (startPoint : point) (tour : list point) (d : drone) :
  let route := [startPoint] ++ tour ++ [startPoint] in
  calculateBatteryConsumption (Some route) = calculateRouteDistance tour startPoint * 2
  ∧ calculateRouteTime (Some route) d
    = calculateRouteDistance tour startPoint / drn_speed d * 60
      + of_nat (length tour) * 3 + 5.
Proof.
  cbn zeta. pose proof (slice_of_round_trip startPoint tour) as E.
  cbn [app] in *. cbn [calculateBatteryConsumption calculateRouteTime]. rewrite E.
  split; [reflexivity|].
  unfold of_nat. do 3 f_equal. cbn [length]. rewrite length_app. cbn [length].
  f_equal. lia.
Qed.

(** The round trip from the origin to (10,15): twice the square root of 325
    in distance, at 60 per hour, one delivery. *)
Example estimators_on_a_round_trip :
  calculateBatteryConsumption (Some [origin; Point 10 15 None None; origin])
  = 72.111025509279784
  ∧ calculateRouteTime (Some [origin; Point 10 15 None None; origin]) idleDrone
    = 44.055512754639892.
Proof. split; vm_compute; reflexivity. Qed.

(** A route without a stop: no distance, minus one delivery, the loading. *)
Example estimators_without_a_stop :
  calculateBatteryConsumption (Some [origin]) = 0
  ∧ calculateRouteTime (Some [origin]) idleDrone = 2.
Proof. split; vm_compute; reflexivity. Qed.

(* ===================================================================== *)
(** ** Route construction: nearest neighbour                              *)
(* ===================================================================== *)

Lemma greedyTour_Permutation current unvisited tour :
  greedyTour current unvisited tour -> tour ≡ₚ unvisited.
Proof.
  induction 1 as [|current unvisited k p tour [Hk _] _ IH]; [reflexivity|].
  rewrite IH. symmetry. now apply delete_Permutation.
Qed.

(** Removing the visited point keeps the other points in the order of the
    input, so the first of the nearest points is the first in that order. *)
Lemma unvisited_keeps_order (unvisited : list point) (k : nat) :
  delete k unvisited `sublist_of` unvisited.
Proof. apply sublist_delete. Qed.

Lemma scanNearest_spec (current : point) (rest : list point) :
  forall (before : list point) (nearestIndex : nat) (nearest : point),
    (before ++ rest) !! nearestIndex = Some nearest ->
    (forall j q, (j < length before)%nat -> (before ++ rest) !! j = Some q ->
       (calculateDistance current q <? calculateDistance current nearest) = false) ->
    (forall j q, (j < nearestIndex)%nat -> (before ++ rest) !! j = Some q ->
       (calculateDistance current q <=? calculateDistance current nearest) = false) ->
    exists p,
      nearestFirstAt current (before ++ rest)
        (scanNearest current rest (length before) nearestIndex
                     (calculateDistance current nearest)) p.
Proof.
  induction rest as [|p rest IH]; intros before nearestIndex nearest Hn Hlt Hle; simpl.
  - exists nearest. split; [assumption|]. split; [|assumption].
    intros j q Hj. apply (Hlt j q); [|assumption].
    apply lookup_lt_Some in Hj. now rewrite app_nil_r in Hj.
  - assert (Happ : before ++ p :: rest = (before ++ [p]) ++ rest)
      by now rewrite <- app_assoc.
    assert (Hp : (before ++ p :: rest) !! length before = Some p)
      by now rewrite (list_lookup_middle before rest p).
    replace (S (length before)) with (length (before ++ [p]))
      by (rewrite length_app; simpl; lia).
    rewrite Happ in *.
    destruct (calculateDistance current p <? calculateDistance current nearest) eqn:Hnear.
    + apply IH; [assumption| |].
      * intros j q Hj Hq. rewrite length_app in Hj. simpl in Hj.
        destruct (decide (j = length before)) as [->|Hne].
        -- rewrite Hp in Hq. injection Hq as <-. apply FloatOrder.ltb_irrefl.
        -- destruct (calculateDistance current q <? calculateDistance current p) eqn:Hc;
             [|reflexivity].
           rewrite <- (Hlt j q ltac:(lia) Hq).
           symmetry. eapply FloatOrder.ltb_trans; eassumption.
      * intros j q Hj Hq.
        destruct (calculateDistance current q <=? calculateDistance current p) eqn:Hc;
          [|reflexivity].
        rewrite <- (Hlt j q ltac:(lia) Hq).
        symmetry. eapply FloatOrder.leb_ltb_trans; eassumption.
    + apply IH; [assumption| |assumption].
      intros j q Hj Hq. rewrite length_app in Hj. simpl in Hj.
      destruct (decide (j = length before)) as [->|Hne].
      * rewrite Hp in Hq. now injection Hq as <-.
      * apply (Hlt j q); [lia|assumption].
Qed.

Lemma nearestIndexOf_spec (current p0 : point) (rest : list point) :
  exists p, nearestFirstAt current (p0 :: rest) (nearestIndexOf current (p0 :: rest)) p.
Proof.
  apply (scanNearest_spec current rest [p0] 0%nat p0); [reflexivity| |].
  - intros [|j] q Hj; [|simpl in Hj; lia].
    intros [= <-]. apply FloatOrder.ltb_irrefl.
  - intros j q Hj. lia.
Qed.

Lemma visitNearest_spec (fuel : nat) :
  forall route unvisited current,
    (length unvisited ≤ fuel)%nat ->
    exists tour,
      visitNearest fuel route unvisited current = route ++ tour
      ∧ greedyTour current unvisited tour.
Proof.
  induction fuel as [|fuel IH]; intros route unvisited current Hfuel.
  - destruct unvisited; [|simpl in Hfuel; lia].
    exists []. split; [now rewrite app_nil_r|constructor].
  - destruct unvisited as [|p0 rest].
    + exists []. split; [now rewrite app_nil_r|constructor].
    + destruct (nearestIndexOf_spec current p0 rest) as (p & Hp).
      pose proof Hp as (Hk & _).
      cbn [visitNearest]. rewrite Hk.
      destruct (IH (route ++ [p]) (delete (nearestIndexOf current (p0 :: rest)) (p0 :: rest)) p)
        as (tour & -> & Htour).
      { rewrite length_delete by (rewrite Hk; eauto). simpl in *. lia. }
      exists (p :: tour). split; [now rewrite <- app_assoc|].
      econstructor; eassumption.
Qed.

(** C4.  For no point the route is [[origin]].  For a non-empty array of
    points the route is the origin, a tour, and the origin again, of length
    n + 2, where the tour is a permutation of the points and is built by
    moving, each time, the unvisited point nearest to the current position
    (the first of them in the array) to the route. *)
Theorem nearestNeighborRoute_greedy (startPoint : point) :
  nearestNeighborRoute [] startPoint = [startPoint]
  ∧ forall (p : point) (rest : list point),
      exists tour,
        nearestNeighborRoute (p :: rest) startPoint = [startPoint] ++ tour ++ [startPoint]
        ∧ greedyTour startPoint (p :: rest) tour
        ∧ tour ≡ₚ p :: rest
        ∧ length (nearestNeighborRoute (p :: rest) startPoint)
          = (length (p :: rest) + 2)%nat.
Proof.
  split; [reflexivity|]. intros p rest.
  destruct (visitNearest_spec (length (p :: rest)) [startPoint] (p :: rest) startPoint)
    as (tour & E & Htour); [lia|].
  exists tour. unfold nearestNeighborRoute.
  destruct (decide _) as [Hz|_]; [discriminate|].
  rewrite E. pose proof (greedyTour_Permutation _ _ _ Htour) as Hperm.
  split; [now rewrite <- app_assoc|]. split; [assumption|]. split; [assumption|].
  rewrite !length_app, (Permutation_length Hperm). simpl. lia.
Qed.

(* ===================================================================== *)
(** ** Route refinement: swaps and shuffles                               *)
(* ===================================================================== *)

Lemma insert_Permutation {A} (l : list A) (i : nat) (a b : A) :
  l !! i = Some a -> <[i := b]> l ≡ₚ b :: delete i l.
Proof.
  revert i. induction l as [|c l IH]; intros [|i] E; simpl in *; try discriminate.
  - reflexivity.
  - rewrite (IH i E). apply perm_swap.
Qed.

Lemma swap_Permutation {A} (array : list A) (i j : nat) : swap array i j ≡ₚ array.
Proof.
  unfold swap.
  destruct (array !! i) as [ai|] eqn:Ei; [|reflexivity].
  destruct (array !! j) as [aj|] eqn:Ej; [|reflexivity].
  destruct (decide (i = j)) as [->|Hne].
  - rewrite list_insert_insert_eq, list_insert_id; [reflexivity|congruence].
  - revert i j Ei Ej Hne.
    induction array as [|c array IH]; intros [|i] [|j] Ei Ej Hne;
      simpl in *; try discriminate; try congruence.
    + injection Ei as ->.
      etrans; [apply perm_skip, (insert_Permutation _ _ _ _ Ej)|].
      etrans; [apply perm_swap|].
      apply perm_skip. symmetry. now apply delete_Permutation.
    + injection Ej as ->.
      etrans; [apply perm_skip, (insert_Permutation _ _ _ _ Ei)|].
      etrans; [apply perm_swap|].
      apply perm_skip. symmetry. now apply delete_Permutation.
    + rewrite (IH i j); auto.
Qed.

Lemma swap_fmap {A B} (f : A -> B) (array : list A) (i j : nat) :
  swap (f <$> array) i j = f <$> swap array i j.
Proof.
  unfold swap. rewrite !list_lookup_fmap.
  destruct (array !! i), (array !! j); simpl; try reflexivity.
  now rewrite !list_fmap_insert.
Qed.

Lemma shuffleFrom_returns {A} (i : nat) :
  forall array : list A, returns (shuffleFrom i array) (fun r => r ≡ₚ array).
Proof.
  induction i as [|i IH]; intros array; simpl.
  - now apply returns_ret.
  - eapply returns_bind; [apply returns_randomIndex|].
    intros j _. eapply returns_weaken; [apply IH|].
    intros r ->. apply swap_Permutation.
Qed.

Lemma shuffleArray_returns {A} (array : list A) :
  returns (shuffleArray array) (fun r => r ≡ₚ array).
Proof. apply shuffleFrom_returns. Qed.

(* ===================================================================== *)
(** ** Route refinement: simulated annealing                              *)
(* ===================================================================== *)

Section Annealing.

Variable Math_exp : float -> float.
Variable points : list point.
Variable startPoint : point.

Lemma annealingStep_returns (st : annealing) :
  annealingSound points st ->
  returns (annealingStep Math_exp startPoint st) (annealingSound points).
Proof.
  intros [Hc Hb]. unfold annealingStep.
  eapply returns_bind; [apply returns_randomIndex|]. intros i _.
  eapply returns_bind; [apply returns_randomIndex|]. intros j _.
  assert (Hn : swap (currentRoute st) i j ≡ₚ points)
    by now rewrite swap_Permutation.
  eapply returns_bind with (P := fun _ => True).
  - destruct (_ <? currentDistance st); [now apply returns_ret|].
    eapply returns_bind; [apply returns_Math_random|].
    intros r _. now apply returns_ret.
  - intros accepted _. apply returns_ret.
    destruct accepted; [|now split].
    destruct (_ <? bestDistance st); now split.
Qed.

Lemma anneal_returns (iterations : nat) :
  forall st, annealingSound points st ->
             returns (anneal Math_exp iterations startPoint st) (annealingSound points).
Proof.
  induction iterations as [|n IH]; intros st Hst; simpl.
  - now apply returns_ret.
  - eapply returns_bind; [now apply annealingStep_returns|]. exact IH.
Qed.

Lemma simulatedAnnealingRoute_returns (maxIterations : nat) :
  points ≠ [] ->
  returns (simulatedAnnealingRoute Math_exp points startPoint maxIterations)
          (fun route => exists tour,
               route = [startPoint] ++ tour ++ [startPoint] ∧ tour ≡ₚ points).
Proof.
  intros Hne. unfold simulatedAnnealingRoute.
  destruct (decide _) as [Hz|_]; [now destruct points|].
  eapply returns_bind; [apply shuffleArray_returns|]. intros route Hroute. cbn beta.
  eapply returns_bind; [apply anneal_returns; now split|].
  intros st [_ Hb]. apply returns_ret. now exists (bestRoute st).
Qed.

End Annealing.

(* ===================================================================== *)
(** ** Route refinement: order crossover                                  *)
(* ===================================================================== *)

(** On an individual without empty slots, [copySegment] writes the slice of
    the parent over the empty slots it is run on, and collects its keys. *)
Lemma copySegment_dense (parent : list point) (n : nat) :
  forall (before after : list (option point)) (selected : gset (option string)) s,
    (length before + n ≤ length parent)%nat ->
    copySegment (Some <$> parent) n (length before)
                (before ++ replicate n None ++ after) selected s
    = Returns (before ++ (Some <$> take n (drop (length before) parent)) ++ after,
               selected ∪ list_to_set (keyOf <$> take n (drop (length before) parent))) s.
Proof.
  induction n as [|n IH]; intros before after selected s Hlen; simpl.
  - unfold ret. do 2 f_equal. set_solver.
  - rewrite list_lookup_fmap.
    destruct (parent !! length before) as [item|] eqn:E.
    2:{ apply lookup_ge_None in E. lia. }
    simpl. rewrite (drop_S _ _ _ E). simpl.
    replace (length before) with (length before + 0)%nat at 2 by lia.
    rewrite insert_app_r. simpl.
    replace (S (length before)) with (length (before ++ [Some item]))
      by (rewrite length_app; simpl; lia).
    replace (before ++ Some item :: replicate n None ++ after)
      with ((before ++ [Some item]) ++ replicate n None ++ after)
      by now rewrite <- app_assoc.
    rewrite IH by (rewrite length_app; simpl; lia).
    rewrite <- app_assoc. simpl. do 2 f_equal. set_solver.
Qed.

Section Layout.

(** The child of a crossover: [start] slots, the slice [segment] of the
    first parent, and the slots after it, [size] slots in all. *)
Variables (start size : nat) (segment : list point).
Hypothesis segment_fits : (start + length segment ≤ size)%nat.
Hypothesis segment_not_empty : (0 < length segment)%nat.

Lemma layout_nil :
  layout start size segment []
  = replicate start None ++ (Some <$> segment)
    ++ replicate (size - length segment - start) None.
Proof.
  unfold layout. rewrite take_nil, drop_nil. simpl.
  now rewrite Nat.sub_0_r, Nat.max_0_r.
Qed.

Lemma layout_place (placed : list point) (item : point) :
  (length placed < size - length segment)%nat ->
  <[slot start segment (length placed) := Some item]> (layout start size segment placed)
  = layout start size segment (placed ++ [item]).
Proof.
  intros Hroom. unfold layout, slot. rewrite length_app. simpl.
  destruct (decide (length placed < start)%nat) as [Hlt|Hge].
  - rewrite !take_ge by (try rewrite length_app; simpl; lia).
    rewrite !drop_ge by (try rewrite length_app; simpl; lia).
    replace (start - length placed)%nat with (S (start - (length placed + 1))) by lia.
    replace (Nat.max start (length placed + 1)) with (Nat.max start (length placed)) by lia.
    rewrite fmap_app. simpl. rewrite <- app_assoc. simpl.
    replace (length placed) with (length (Some <$> placed) + 0)%nat at 1
      by (rewrite length_fmap; lia).
    now rewrite insert_app_r.
  - rewrite take_app_le by lia.
    rewrite drop_app_le by lia.
    replace (start - length placed)%nat with 0%nat by lia.
    replace (start - (length placed + 1))%nat with 0%nat by lia.
    replace (size - length segment - Nat.max start (length placed))%nat
      with (S (size - length segment - Nat.max start (length placed + 1))) by lia.
    simpl. rewrite fmap_app. simpl. rewrite <- !app_assoc. simpl.
    set (tl := replicate _ None).
    replace (length placed + length segment)%nat
      with (length (Some <$> take start placed) + (length (Some <$> segment)
            + (length (Some <$> drop start placed) + 0)))%nat.
    2:{ rewrite !length_fmap, length_take, length_drop. lia. }
    now rewrite !insert_app_r.
Qed.

Lemma layout_full (placed : list point) :
  length placed = (size - length segment)%nat ->
  layout start size segment placed
  = Some <$> (take start placed ++ segment ++ drop start placed).
Proof.
  intros Hlen. unfold layout.
  replace (start - length placed)%nat with 0%nat by lia.
  replace (size - length segment - Nat.max start (length placed))%nat with 0%nat by lia.
  simpl. now rewrite app_nil_r, !fmap_app.
Qed.

(** The fill loop on a parent without empty slots: the items that are not
    selected are placed in their order until the child is full. *)
Lemma fillRemaining_dense (parent2 : list point) (selected : gset (option string))
    (n : nat) :
  forall (i : nat) (placed : list point) (childIndex : nat) s,
    (i + n = length parent2)%nat ->
    (length placed ≤ size - length segment)%nat ->
    (if decide (childIndex = start) then (start + length segment)%nat else childIndex)
      = slot start segment (length placed) ->
    fillRemaining (Some <$> parent2) start (start + length segment - 1) size selected
                  n i (layout start size segment placed) childIndex s
    = Returns (layout start size segment
                 (take (size - length segment)
                            (placed ++ filter (fun p => keyOf p ∉ selected)
                                              (drop i parent2)))) s.
Proof.
  induction n as [|n IH]; intros i placed childIndex s Hi Hroom Hidx; simpl.
  - rewrite drop_ge by lia. rewrite filter_nil, app_nil_r, take_ge by lia.
    reflexivity.
  - replace (start + length segment - 1 + 1)%nat with (start + length segment)%nat by lia.
    rewrite Hidx.
    destruct (decide (size ≤ slot start segment (length placed))%nat) as [Hfull|Hfree].
    + assert (length placed = size - length segment)%nat as Hlen
        by (unfold slot in *; repeat case_decide; lia).
      now rewrite take_app_length'.
    + assert (length placed < size - length segment)%nat as Hlt
        by (unfold slot in *; repeat case_decide; lia).
      rewrite list_lookup_fmap.
      destruct (parent2 !! i) as [item|] eqn:E.
      2:{ apply lookup_ge_None in E. lia. }
      simpl. rewrite (drop_S _ _ _ E).
      destruct (decide (keyOf item ∈ selected)) as [Hin|Hout].
      * rewrite filter_cons_False by tauto.
        apply IH; [lia|lia|].
        unfold slot in *. repeat case_decide; lia.
      * rewrite filter_cons_True by assumption.
        rewrite layout_place by assumption.
        rewrite IH.
        -- now rewrite <- app_assoc.
        -- lia.
        -- rewrite length_app. simpl. lia.
        -- rewrite length_app. simpl. unfold slot in *. repeat case_decide; lia.
Qed.

End Layout.

Lemma filter_all {A} (P : A -> Prop) `{!forall a, Decision (P a)} (l : list A) :
  Forall P l -> filter P l = l.
Proof.
  induction 1 as [|a l Ha _ IH]; [reflexivity|].
  now rewrite filter_cons_True, IH.
Qed.

Lemma filter_none {A} (P : A -> Prop) `{!forall a, Decision (P a)} (l : list A) :
  Forall (fun a => ¬ P a) l -> filter P l = [].
Proof.
  induction 1 as [|a l Ha _ IH]; [reflexivity|].
  now rewrite filter_cons_False, IH.
Qed.

(** With pairwise distinct keys, the points whose key is not a key of the
    slice are the points outside the slice. *)
Lemma filter_unselected (before slice after : list point) :
  NoDup (keyOf <$> (before ++ slice ++ after)) ->
  filter (fun p => keyOf p ∉ (list_to_set (keyOf <$> slice) : gset (option string)))
         (before ++ slice ++ after)
  = before ++ after.
Proof.
  rewrite !fmap_app. intros (Hb & Hbs & (Hs & Hsa & Ha)%NoDup_app)%NoDup_app.
  rewrite !filter_app.
  rewrite (filter_all _ before), (filter_none _ slice), (filter_all _ after);
    [reflexivity| | |]; apply Forall_forall; intros p Hp.
  - rewrite elem_of_list_to_set. intros Hk.
    apply (Hsa (keyOf p)); [assumption|]. apply list_elem_of_fmap. eauto.
  - rewrite elem_of_list_to_set. intros Hk. apply Hk.
    apply list_elem_of_fmap. eauto.
  - rewrite elem_of_list_to_set. intros Hk.
    apply (Hbs (keyOf p)); [apply list_elem_of_fmap; eauto|].
    apply elem_of_app. now left.
Qed.

Section Genetic.

Variable points : list point.
Variable startPoint : point.

(** The keys [orderId || id] of the points are pairwise distinct. *)
Hypothesis distinct_keys : NoDup (keyOf <$> points).

Lemma dense_fmap_Some {A} (r : list A) : dense (Some <$> r) = Some r.
Proof. unfold dense. now apply mapM_fmap_Some. Qed.

Lemma orderCrossover_returns (parent1 parent2 : list (option point)) :
  points ≠ [] -> validIndividual points parent1 -> validIndividual points parent2 ->
  returns (orderCrossover (Some parent1) (Some parent2)) (validIndividual points).
Proof.
  intros Hne (r1 & -> & H1) (r2 & -> & H2). unfold orderCrossover.
  rewrite length_fmap.
  assert (Hlen : (0 < length r1)%nat).
  { rewrite (Permutation_length H1). destruct points; [congruence|simpl; lia]. }
  eapply returns_bind; [apply returns_randomIndex|]. intros start Hstart.
  specialize (Hstart Hlen). cbn beta.
  eapply returns_bind; [apply returns_randomIndex|]. intros r Hr.
  specialize (Hr ltac:(lia)). cbn beta zeta.
  replace (S (r + start) - start)%nat with (S r) by lia.
  set (segment := take (S r) (drop start r1)).
  assert (Hseg : length segment = S r).
  { unfold segment. rewrite length_take, length_drop. lia. }
  intros s.
  replace (replicate (length r1) None : list (option point))
    with (replicate start None ++ replicate (S r) None
          ++ replicate (length r1 - length segment - start) (None : option point)).
  2:{ rewrite <- !replicate_add. f_equal. lia. }
  pose proof (copySegment_dense r1 (S r) (replicate start None)
                (replicate (length r1 - length segment - start) None) ∅ s) as Hcopy.
  rewrite length_replicate in Hcopy. fold segment in Hcopy.
  unfold JS.bind at 1. rewrite Hcopy by lia. clear Hcopy.
  rewrite (left_id_L ∅ (∪)). simpl default.
  rewrite <- (layout_nil start (length r1) segment).
  replace (r + start)%nat with (start + length segment - 1)%nat by lia.
  rewrite (fillRemaining_dense start (length r1) segment ltac:(lia) ltac:(lia)
             r2 _ (length r1) 0 [] 0 s).
  - eexists _, _. split; [reflexivity|].
    rewrite drop_0. simpl.
    set (unselected := filter _ r2).
    assert (Hsplit : r1 = take start r1 ++ segment ++ drop (start + S r) r1).
    { unfold segment. now rewrite app_assoc, take_take_drop, take_drop. }
    assert (Hun : unselected ≡ₚ take start r1 ++ drop (start + S r) r1).
    { unfold unselected. rewrite H2, <- H1.
      rewrite <- (filter_unselected (take start r1) segment (drop (start + S r) r1)).
      - now rewrite <- Hsplit.
      - rewrite <- Hsplit. now rewrite H1. }
    assert (Hul : length unselected = (length r1 - length segment)%nat).
    { rewrite (Permutation_length Hun), length_app, length_take, length_drop. lia. }
    rewrite take_ge by lia.
    rewrite layout_full by (exact Hul || lia).
    eexists. split; [reflexivity|].
    rewrite (Permutation_app_comm segment), app_assoc, take_drop.
    rewrite Hun, <- H1.
    unfold segment.
    rewrite <- (take_drop start r1) at 4.
    rewrite <- (take_drop (S r) (drop start r1)) at 2.
    rewrite drop_drop.
    rewrite <- !app_assoc. apply Permutation_app_head, Permutation_app_comm.
  - rewrite (Permutation_length H1), (Permutation_length H2). simpl. lia.
  - simpl. lia.
  - unfold slot. simpl. repeat case_decide; lia.
Qed.

Lemma mutateRoute_returns (route : list (option point)) :
  validIndividual points route -> returns (mutateRoute route) (validIndividual points).
Proof.
  intros (r & -> & Hr). unfold mutateRoute.
  eapply returns_bind; [apply returns_randomIndex|]. intros i _.
  eapply returns_bind; [apply returns_randomIndex|]. intros j _.
  apply returns_ret. exists (swap r i j).
  split; [apply swap_fmap|]. now rewrite swap_Permutation.
Qed.

Lemma tournamentSelection_returns (population : list (list (option point)))
    (fitness : list float) :
  population ≠ [] -> Forall (validIndividual points) population ->
  returns (tournamentSelection population fitness)
          (fun selected => exists route,
               selected = Some route ∧ validIndividual points route).
Proof.
  intros Hne Hall. unfold tournamentSelection.
  assert (Hlen : (0 < length population)%nat) by (destruct population; [congruence|simpl; lia]).
  eapply returns_bind; [apply returns_randomIndex|]. intros b Hb. specialize (Hb Hlen).
  eapply returns_bind; [apply returns_randomIndex|]. intros c1 Hc1. specialize (Hc1 Hlen).
  eapply returns_bind; [apply returns_randomIndex|]. intros c2 Hc2. specialize (Hc2 Hlen).
  apply returns_ret. cbn zeta.
  set (bestIndex := if fitterThan fitness c2 _ then c2 else _).
  assert (Hbest : (bestIndex < length population)%nat).
  { unfold bestIndex. repeat destruct (fitterThan _ _ _); assumption. }
  destruct (lookup_lt_is_Some_2 _ _ Hbest) as [route Hroute].
  exists route. split; [assumption|].
  eapply Forall_lookup_1; eassumption.
Qed.

(** Every ordering of the points has a fitness that is a number. *)
Hypothesis fitness_defined :
  forall r, r ≡ₚ points ->
            PrimFloat.is_nan (1 / calculateRouteDistance r startPoint) = false.

Lemma evaluateFitness_returns (population : list (list (option point))) :
  Forall (validIndividual points) population ->
  returns (evaluateFitness population startPoint)
          (fun fitness => length fitness = length population
                          ∧ Forall (fun f => PrimFloat.is_nan f = false) fitness).
Proof.
  induction 1 as [|route rest (r & -> & Hr) _ IH]; simpl.
  - apply returns_ret. split; [reflexivity|constructor].
  - rewrite dense_fmap_Some.
    eapply returns_bind; [exact IH|]. intros fitness [Hlen Hnan].
    apply returns_ret. split; [simpl; congruence|].
    constructor; [now apply fitness_defined|assumption].
Qed.

Lemma breed_returns (population : list (list (option point))) (fitness : list float)
    (n : nat) :
  points ≠ [] -> population ≠ [] -> Forall (validIndividual points) population ->
  returns (breed population fitness n)
          (fun newPopulation => length newPopulation = n
                                ∧ Forall (validIndividual points) newPopulation).
Proof.
  intros Hpts Hne Hall. induction n as [|n IH]; simpl.
  - apply returns_ret. split; [reflexivity|constructor].
  - eapply returns_bind; [now apply tournamentSelection_returns|].
    intros ? (parent1 & -> & Hp1).
    eapply returns_bind; [now apply tournamentSelection_returns|].
    intros ? (parent2 & -> & Hp2).
    eapply returns_bind; [now apply orderCrossover_returns|].
    intros child Hchild.
    eapply returns_bind; [apply returns_Math_random|]. intros r _.
    eapply returns_bind with (P := validIndividual points).
    { destruct (r <? 0.1); [now apply mutateRoute_returns|now apply returns_ret]. }
    intros child' Hchild'.
    eapply returns_bind; [exact IH|]. intros newPopulation [Hlen Hnew].
    apply returns_ret. split; [simpl; congruence|now constructor].
Qed.

Lemma evolve_returns (generations populationSize : nat) :
  points ≠ [] -> (0 < populationSize)%nat ->
  forall population,
    length population = populationSize -> Forall (validIndividual points) population ->
    returns (evolve generations populationSize population startPoint)
            (fun final => length final = populationSize
                          ∧ Forall (validIndividual points) final).
Proof.
  intros Hpts Hsize. induction generations as [|g IH]; intros population Hlen Hall; simpl.
  - now apply returns_ret.
  - eapply returns_bind; [now apply evaluateFitness_returns|]. intros fitness _.
    eapply returns_bind.
    + apply breed_returns; try assumption. destruct population; [simpl in Hlen; lia|congruence].
    + intros newPopulation [Hl Hv]. now apply IH.
Qed.

Lemma initializePopulation_returns (populationSize : nat) :
  returns (initializePopulation points populationSize)
          (fun population => length population = populationSize
                             ∧ Forall (fun r => r ≡ₚ points) population).
Proof.
  induction populationSize as [|n IH]; simpl.
  - apply returns_ret. split; [reflexivity|constructor].
  - eapply returns_bind; [apply shuffleArray_returns|]. intros route Hroute.
    eapply returns_bind; [exact IH|]. intros population [Hlen Hall].
    apply returns_ret. split; [simpl; congruence|now constructor].
Qed.

End Genetic.

(* ===================================================================== *)
(** ** Route refinement: the best individual                              *)
(* ===================================================================== *)

Lemma max_step_cases (highest number : float) :
  PrimFloat.is_nan highest = false -> PrimFloat.is_nan number = false ->
  max_step highest number = number
  ∨ (max_step highest number = highest ∧ (highest <? number) = false).
Proof.
  intros Hh Hn. unfold max_step. rewrite Hh, Hn. simpl.
  destruct (_ && _); [now left|].
  destruct (highest <? number); [now left|now right].
Qed.

Lemma max_loop_spec (l : list float) :
  forall highest,
    PrimFloat.is_nan highest = false ->
    Forall (fun f => PrimFloat.is_nan f = false) l ->
    fold_left max_step l highest ∈ l
    ∨ (fold_left max_step l highest = highest
       ∧ Forall (fun f => (highest <? f) = false) l).
Proof.
  induction l as [|a l IH]; intros highest Hh Hl; simpl.
  - right. split; [reflexivity|constructor].
  - inversion Hl as [|? ? Ha Hl']; subst.
    destruct (max_step_cases highest a Hh Ha) as [E|[E Hlt]]; rewrite E.
    + destruct (IH a Ha Hl') as [Hin|[-> _]]; left; [now right|left].
    + destruct (IH highest Hh Hl') as [Hin|[-> Hall]]; [left; now right|].
      right. split; [reflexivity|now constructor].
Qed.

Lemma Math_max_found (l : list float) :
  l ≠ [] -> Forall (fun f => PrimFloat.is_nan f = false) l ->
  exists a, a ∈ l ∧ (a =? Math_max l) = true.
Proof.
  intros Hne Hl. unfold Math_max.
  destruct (max_loop_spec l neg_infinity eq_refl Hl) as [Hin|[-> Hall]].
  - eexists. split; [exact Hin|]. apply FloatOrder.eqb_refl.
    rewrite Forall_forall in Hl. now apply Hl.
  - destruct l as [|a l]; [congruence|]. exists a. split; [left|].
    inversion Hl; subst. inversion Hall; subst.
    now apply FloatOrder.not_above_neg_infinity.
Qed.

Lemma indexOf_from_found (l : list float) (v : float) :
  (exists a, a ∈ l ∧ (a =? v) = true) ->
  forall k, exists i, indexOf_from k l v = Some (k + i)%nat ∧ (i < length l)%nat.
Proof.
  induction l as [|b l IH]; intros (a & Hin & Ha) k.
  - inversion Hin.
  - simpl. destruct (b =? v) eqn:Hb.
    + exists 0%nat. split; [f_equal; lia|lia].
    + destruct (IH ltac:(exists a; split; [|assumption];
                          inversion Hin; subst; [congruence|assumption]) (S k))
        as (i & -> & Hi).
      exists (S i). split; [f_equal; lia|lia].
Qed.

Lemma nearestNeighborRoute_tour (points : list point) (startPoint : point) :
  points ≠ [] ->
  exists tour,
    nearestNeighborRoute points startPoint = [startPoint] ++ tour ++ [startPoint]
    ∧ tour ≡ₚ points.
Proof.
  intros Hne.
  destruct (visitNearest_spec (length points) [startPoint] points startPoint)
    as (tour & E & Htour); [lia|].
  exists tour. unfold nearestNeighborRoute.
  destruct (decide _) as [Hz|_]; [now destruct points|].
  rewrite E. split; [now rewrite <- app_assoc|].
  eapply greedyTour_Permutation, Htour.
Qed.

Lemma geneticAlgorithmRoute_returns (points : list point) (startPoint : point)
    (maxGenerations : nat) :
  points ≠ [] ->
  NoDup (keyOf <$> points) ->
  (forall r, r ≡ₚ points ->
             PrimFloat.is_nan (1 / calculateRouteDistance r startPoint) = false) ->
  returns (geneticAlgorithmRoute points startPoint maxGenerations)
          (fun route => exists tour,
               route = [startPoint] ++ tour ++ [startPoint] ∧ tour ≡ₚ points).
Proof.
  intros Hne Hkeys Hfit. unfold geneticAlgorithmRoute.
  destruct (decide _) as [Hz|_]; [now destruct points|].
  destruct (decide _) as [Hsmall|Hbig].
  { apply returns_ret. now apply nearestNeighborRoute_tour. }
  set (populationSize := Nat.min 50 (length points * 4)).
  assert (Hsize : (0 < populationSize)%nat) by (unfold populationSize; lia).
  eapply returns_bind; [apply initializePopulation_returns|].
  intros population0 [Hlen0 Hall0]. cbn beta.
  eapply returns_bind.
  { apply (evolve_returns points startPoint Hkeys Hfit maxGenerations populationSize Hne Hsize).
    - now rewrite length_fmap.
    - apply Forall_fmap. eapply Forall_impl; [exact Hall0|].
      intros r Hr. now exists r. }
  intros population [Hlen Hall]. cbn beta.
  eapply returns_bind.
  { now apply (evaluateFitness_returns points startPoint Hfit). }
  intros fitness [Hflen Hnan]. cbn beta.
  assert (Hfne : fitness ≠ []) by (destruct fitness; [simpl in Hflen; lia|congruence]).
  destruct (indexOf_from_found fitness (Math_max fitness)
              (Math_max_found fitness Hfne Hnan) 0%nat) as (i & Hi & Hilt).
  unfold indexOf. rewrite Hi. simpl.
  destruct (lookup_lt_is_Some_2 population i ltac:(lia)) as [best Hbest].
  rewrite Hbest. simpl.
  destruct (Forall_lookup_1 _ _ _ _ Hall Hbest) as (r & -> & Hr).
  rewrite dense_fmap_Some. apply returns_ret. now exists r.
Qed.

(* ===================================================================== *)
(** ** Route refinement: the routes are tours of the input points         *)
(* ===================================================================== *)

(** With a fitness that is NaN, [fitness.indexOf(Math.max(...fitness))] is
    -1 and the genetic algorithm throws on [population[-1]]. *)
Lemma geneticAlgorithmRoute_needs_numbers :
  geneticAlgorithmRoute pointsWithNaN origin 100 zeroDraws = Throws TypeError.
Proof. vm_compute. reflexivity. Qed.




(* ===================================================================== *)
(** ** The arithmetic of binary64 numbers

    The operations of primitive floats are specified on [spec_float] by
    rounding an exact result.  The facts below are read off that
    specification: a difference and its opposite, the sign of a rounded
    result, and the operations on numbers that are not negative. *)
(* ===================================================================== *)

Module FloatArith.

Lemma iter_pos_keeps {A} (P : A -> Prop) (f : A -> A) :
  (forall a, P a -> P (f a)) -> forall p a, P a -> P (SpecFloat.iter_pos f p a).
Proof.
  intros Hf. induction p as [p IH|p IH|]; intros a Ha; simpl; auto.
Qed.

Lemma shr_1_nonneg mrs : (0 <= shr_m mrs)%Z -> (0 <= shr_m (shr_1 mrs))%Z.
Proof.
  destruct mrs as [m r s]. simpl. destruct m as [|[p|p|]|p]; simpl; lia.
Qed.

Lemma shr_nonneg mrs e n : (0 <= shr_m mrs)%Z -> (0 <= shr_m (shr mrs e n).1)%Z.
Proof.
  intros H. unfold shr. destruct n; simpl; try assumption.
  now apply (iter_pos_keeps (fun mrs => (0 <= shr_m mrs)%Z) shr_1 shr_1_nonneg).
Qed.

Lemma shr_fexp_nonneg p e m ex l :
  (0 <= m)%Z -> (0 <= shr_m (shr_fexp p e m ex l).1)%Z.
Proof.
  intros H. unfold shr_fexp. apply shr_nonneg. now destruct l as [|[]].
Qed.

Lemma round_nearest_even_nonneg m l : (0 <= m)%Z -> (0 <= round_nearest_even m l)%Z.
Proof.
  intros H. unfold round_nearest_even.
  destruct l as [|[]]; try destruct (Z.even m); lia.
Qed.

(** Rounding a mantissa that is not negative gives a number of the sign
    asked for: a zero, a finite number or an infinity, never NaN. *)
Lemma binary_round_aux_signed p e s m ex l :
  (0 <= m)%Z -> signedSF s (binary_round_aux p e s m ex l).
Proof.
  intros H. unfold binary_round_aux.
  pose proof (shr_fexp_nonneg p e m ex l H) as H1.
  destruct (shr_fexp p e m ex l) as [mrs' e']. simpl in H1.
  pose proof (shr_fexp_nonneg p e _ e' loc_Exact
                (round_nearest_even_nonneg _ (loc_of_shr_record mrs') H1)) as H2.
  destruct (shr_fexp p e _ e' loc_Exact) as [mrs'' e'']. simpl in H2.
  destruct (shr_m mrs''); simpl; [reflexivity| |lia].
  now destruct (Z.leb _ _).
Qed.

Lemma binary_round_signed p e s m ex : signedSF s (binary_round p e s m ex).
Proof.
  unfold binary_round. destruct (shl_align _ _ _) as [mz ez].
  now apply binary_round_aux_signed.
Qed.

Lemma binary_round_opp p e m ex :
  binary_round p e true m ex = SFopp (binary_round p e false m ex).
Proof.
  unfold binary_round. destruct (shl_align _ _ _) as [mz ez].
  unfold binary_round_aux.
  destruct (shr_fexp p e _ ez loc_Exact) as [mrs' e'].
  destruct (shr_fexp p e _ e' loc_Exact) as [mrs'' e''].
  destruct (shr_m mrs''); simpl; try reflexivity.
  now destruct (Z.leb _ _).
Qed.

Lemma binary_normalize_opp p e m ex :
  binary_normalize p e (- m) ex false = binary_normalize p e m ex false
  \/ binary_normalize p e (- m) ex false = SFopp (binary_normalize p e m ex false).
Proof.
  destruct m as [|m|m]; simpl.
  - now left.
  - right. apply binary_round_opp.
  - right. rewrite binary_round_opp.
    now destruct (binary_round p e false m ex) as [[]|[]| |[] ? ?].
Qed.

Lemma binary_normalize_number p e m ex : binary_normalize p e m ex false <> S754_nan.
Proof.
  destruct m as [|m|m]; simpl; [discriminate| |].
  - pose proof (binary_round_signed p e false m ex) as H.
    now destruct (binary_round p e false m ex).
  - pose proof (binary_round_signed p e true m ex) as H.
    now destruct (binary_round p e true m ex).
Qed.

(** [b - a] is [a - b] or its opposite (the two are the same zero when
    [a] and [b] are equal). *)
Lemma SFsub_swap p e a b :
  SFsub p e b a = SFsub p e a b \/ SFsub p e b a = SFopp (SFsub p e a b).
Proof.
  destruct a as [sa|sa| |sa ma ea], b as [sb|sb| |sb mb eb];
    try (destruct sa); try (destruct sb);
    try (left; reflexivity); try (right; reflexivity).
  all: unfold SFsub; rewrite (Z.min_comm eb ea).
  all: match goal with
       | |- context [binary_normalize _ _ (?B - ?A)%Z] =>
           replace (B - A)%Z with (- (A - B))%Z by (simpl; lia)
       end; apply binary_normalize_opp.
Qed.

Lemma SFsub_finite p e a b : finiteSF a -> finiteSF b -> SFsub p e a b <> S754_nan.
Proof.
  destruct a as [sa|sa| |sa ma ea], b as [sb|sb| |sb mb eb]; simpl; try tauto; intros _ _.
  - destruct sa, sb; discriminate.
  - discriminate.
  - discriminate.
  - apply binary_normalize_number.
Qed.

Lemma SFsub_self p e a : finiteSF a -> SFsub p e a a = S754_zero false.
Proof.
  destruct a as [[]|sa| |sa ma ea]; simpl; try tauto; intros _.
  now rewrite Z.sub_diag.
Qed.

Lemma SFmul_opp p e a : SFmul p e (SFopp a) (SFopp a) = SFmul p e a a.
Proof. destruct a as [[]|[]| |[] ? ?]; reflexivity. Qed.

Lemma SFmul_square p e a : a <> S754_nan -> signedSF false (SFmul p e a a).
Proof.
  destruct a as [sa|sa| |sa ma ea]; simpl; try congruence; intros _;
    try (now destruct sa).
  replace (xorb sa sa) with false by now destruct sa.
  now apply binary_round_aux_signed.
Qed.

Lemma SFmul_square_unsigned p e a : unsignedSF (SFmul p e a a).
Proof.
  destruct a as [sa|sa| |sa ma ea] eqn:E; try (now left); right;
    apply SFmul_square; discriminate.
Qed.

Lemma SFadd_signed p e a b :
  signedSF false a -> signedSF false b -> signedSF false (SFadd p e a b).
Proof.
  destruct a as [sa|sa| |sa ma ea], b as [sb|sb| |sb mb eb]; simpl; try tauto;
    intros -> ->; try reflexivity.
  simpl. apply binary_round_signed.
Qed.

Lemma SFadd_unsigned p e a b :
  unsignedSF a -> unsignedSF b -> unsignedSF (SFadd p e a b).
Proof.
  intros [->|Ha]; [now left|]. intros [->|Hb].
  - left. now destruct a.
  - right. now apply SFadd_signed.
Qed.

Lemma SFsqrt_signed p e a : signedSF false a -> signedSF false (SFsqrt p e a).
Proof.
  destruct a as [sa|sa| |sa ma ea]; simpl; try tauto; intros ->; try reflexivity.
  unfold SFsqrt_core_binary.
  set (m' := match _ with Z0 => Z.pos ma | Zpos _ => Z.shiftl _ _ | Zneg _ => 0%Z end).
  assert (Hm' : (0 <= m')%Z).
  { unfold m'. destruct (_ - _)%Z; try lia. apply Z.shiftl_nonneg. lia. }
  pose proof (Z.sqrtrem_spec m' Hm') as Hs.
  destruct (Z.sqrtrem m') as [q r].
  apply binary_round_aux_signed. lia.
Qed.

Lemma SFsqrt_unsigned p e a : unsignedSF a -> unsignedSF (SFsqrt p e a).
Proof.
  intros [->|Ha]; [now left|]. right. now apply SFsqrt_signed.
Qed.

(** A quotient of two numbers that are not negative is not negative, and
    is a number unless both are zero or both are infinite. *)
Lemma SFdiv_signed p e m ex b :
  signedSF false b -> signedSF false (SFdiv p e (S754_finite false m ex) b).
Proof.
  destruct b as [sb|sb| |sb mb eb]; simpl; try tauto; intros ->; try reflexivity.
  unfold SFdiv_core_binary.
  set (m' := match _ with Z0 => Z.pos m | Zpos _ => Z.shiftl _ _ | Zneg _ => 0%Z end).
  assert (Hm' : (0 <= m')%Z).
  { unfold m'. destruct (_ - _ - _)%Z; try lia. apply Z.shiftl_nonneg. lia. }
  pose proof (Z.div_pos m' (Z.pos mb) Hm' ltac:(lia)) as Hq.
  unfold Z.div in Hq.
  destruct (Z.div_eucl m' (Z.pos mb)) as [q r]. simpl in Hq.
  now apply binary_round_aux_signed.
Qed.

Lemma SFdiv_zero p e b :
  match SFdiv p e (S754_zero false) b with
  | S754_nan | S754_zero _ => True
  | _ => False
  end.
Proof. now destruct b. Qed.

Lemma SFcompare_refl a : a <> S754_nan -> SFcompare a a = Some Eq.
Proof.
  destruct a as [[]|[]| |[] m e]; simpl; try congruence; intros _.
  all: rewrite Z.compare_refl; change (Pos.compare_cont Eq) with Pos.compare.
  all: now rewrite ?Pos.compare_refl.
Qed.

Lemma is_nan_spec a : PrimFloat.is_nan a = false <-> Prim2SF a <> S754_nan.
Proof.
  unfold PrimFloat.is_nan. rewrite FloatAxioms.eqb_spec. unfold SFeqb. split.
  - intros H E. rewrite E in H. discriminate.
  - intros H. now rewrite SFcompare_refl.
Qed.

Lemma is_finite_spec a : PrimFloat.is_finite a = true -> finiteSF (Prim2SF a).
Proof.
  unfold PrimFloat.is_finite, PrimFloat.is_nan, PrimFloat.is_infinity.
  rewrite !FloatAxioms.eqb_spec, FloatAxioms.abs_spec.
  change (Prim2SF infinity) with (S754_infinity false).
  now destruct (Prim2SF a) as [[]|[]| |[] m e].
Qed.

Lemma signed_isLength a : signedSF false (Prim2SF a) -> isLength a.
Proof.
  intros H. split.
  - apply is_nan_spec. intros E. now rewrite E in H.
  - rewrite FloatAxioms.leb_spec. change (Prim2SF 0) with (S754_zero false).
    destruct (Prim2SF a) as [sa|sa| |sa ma ea]; simpl in *; try tauto; now subst.
Qed.

(** Adding a number that is not negative, or NaN, to 0 gives it back. *)
Lemma add_zero_l a : unsignedSF (Prim2SF a) -> 0 + a = a.
Proof.
  intros H. apply Prim2SF_inj. rewrite FloatAxioms.add_spec.
  change (Prim2SF 0) with (S754_zero false). unfold SF64add.
  destruct H as [->|H]; [reflexivity|].
  destruct (Prim2SF a) as [sa|sa| |sa ma ea]; simpl in *; try tauto; now subst.
Qed.

(** [(b - a) * (b - a)] and [(a - b) * (a - b)] are the same Number. *)
Lemma square_of_difference (a b : float) : (b - a) * (b - a) = (a - b) * (a - b).
Proof.
  apply Prim2SF_inj. rewrite !FloatAxioms.mul_spec, !FloatAxioms.sub_spec.
  unfold SF64mul, SF64sub.
  destruct (SFsub_swap prec emax (Prim2SF b) (Prim2SF a)) as [->| ->].
  - reflexivity.
  - symmetry. apply SFmul_opp.
Qed.

Lemma square_unsigned (a : float) : unsignedSF (Prim2SF (a * a)).
Proof. rewrite FloatAxioms.mul_spec. apply SFmul_square_unsigned. Qed.

Lemma square_of_difference_signed (a b : float) :
  PrimFloat.is_finite a = true -> PrimFloat.is_finite b = true ->
  signedSF false (Prim2SF ((b - a) * (b - a))).
Proof.
  intros Ha%is_finite_spec Hb%is_finite_spec.
  rewrite FloatAxioms.mul_spec, FloatAxioms.sub_spec.
  apply SFmul_square. now apply SFsub_finite.
Qed.

End FloatArith.

(* ===================================================================== *)
(** ** Geometry                                                           *)
(* ===================================================================== *)

Lemma calculateDistance_unsigned (p q : point) :
  unsignedSF (Prim2SF (calculateDistance p q)).
Proof.
  unfold calculateDistance. cbn zeta.
  rewrite FloatAxioms.sqrt_spec, FloatAxioms.add_spec.
  apply FloatArith.SFsqrt_unsigned, FloatArith.SFadd_unsigned;
    apply FloatArith.square_unsigned.
Qed.

Lemma calculateDistance_signed (p q : point) :
  finitePoint p -> finitePoint q -> signedSF false (Prim2SF (calculateDistance p q)).
Proof.
  intros [Hpx Hpy] [Hqx Hqy]. unfold calculateDistance. cbn zeta.
  rewrite FloatAxioms.sqrt_spec, FloatAxioms.add_spec.
  apply FloatArith.SFsqrt_signed, FloatArith.SFadd_signed;
    now apply FloatArith.square_of_difference_signed.
Qed.

(** X1.  [calculateDistance] is symmetric: the distance from [p] to [q] is
    the same Number as the distance from [q] to [p], for all coordinates
    (NaN and the infinities included). *)
Theorem calculateDistance_symmetric (p q : point) :
  calculateDistance p q = calculateDistance q p.
Proof.
  unfold calculateDistance. cbn zeta.
  now rewrite (FloatArith.square_of_difference (pt_x p) (pt_x q)),
    (FloatArith.square_of_difference (pt_y p) (pt_y q)).
Qed.

(** X2.  The distance from a point with finite coordinates to itself is 0. *)
Theorem calculateDistance_to_itself (p : point) :
  finitePoint p -> calculateDistance p p = 0.
Proof.
  intros [Hx%FloatArith.is_finite_spec Hy%FloatArith.is_finite_spec].
  apply Prim2SF_inj. unfold calculateDistance. cbn zeta.
  rewrite FloatAxioms.sqrt_spec, FloatAxioms.add_spec, !FloatAxioms.mul_spec,
    !FloatAxioms.sub_spec.
  unfold SF64sqrt, SF64add, SF64mul, SF64sub.
  now rewrite !FloatArith.SFsub_self.
Qed.

Lemma calculateDistance_to_itself_witness :
  calculateDistance (Point 3 4 None None) (Point 3 4 None None) = 0.
Proof.
  apply (calculateDistance_to_itself (Point 3 4 None None)).
  split; reflexivity.
Defined.

(** X3.  Between two points with finite coordinates the distance is a
    length: it is not NaN and it is not below 0. *)
Theorem calculateDistance_is_a_length (p q : point) :
  finitePoint p -> finitePoint q -> isLength (calculateDistance p q).
Proof.
  intros Hp Hq. now apply FloatArith.signed_isLength, calculateDistance_signed.
Qed.

Lemma calculateDistance_is_a_length_witness :
  isLength (calculateDistance (Point 0 0 None None) (Point 3 4 None None)).
Proof.
  apply (calculateDistance_is_a_length (Point 0 0 None None) (Point 3 4 None None));
    split; reflexivity.
Defined.

(* ===================================================================== *)
(** ** Route length                                                       *)
(* ===================================================================== *)

Lemma leg_sum_signed (legs : list (point * point)) :
  Forall (fun '(a, b) => finitePoint a ∧ finitePoint b) legs ->
  forall total,
    signedSF false (Prim2SF total) ->
    signedSF false
      (Prim2SF (fold_left (fun total '(a, b) => total + calculateDistance a b) legs total)).
Proof.
  induction 1 as [|[a b] legs [Ha Hb] _ IH]; intros total Ht; simpl; [assumption|].
  apply IH. rewrite FloatAxioms.add_spec.
  apply FloatArith.SFadd_signed; [assumption|now apply calculateDistance_signed].
Qed.

Lemma Forall_zip_tail {A} (P : A -> Prop) (l : list A) :
  Forall P l -> Forall (fun '(a, b) => P a ∧ P b) (zip l (tail l)).
Proof.
  induction 1 as [|a l Ha Hl IH]; [constructor|].
  destruct l as [|b l]; [constructor|].
  simpl in *. constructor; [|exact IH]. split; [assumption|]. now inversion Hl.
Qed.

Lemma calculateRouteDistance_signed (route : list point) (startPoint : point) :
  Forall finitePoint route -> finitePoint startPoint ->
  signedSF false (Prim2SF (calculateRouteDistance route startPoint)).
Proof.
  intros Hroute Hstart. destruct route as [|first rest]; [reflexivity|].
  unfold calculateRouteDistance. cbn zeta.
  rewrite FloatAxioms.add_spec. apply FloatArith.SFadd_signed.
  - apply leg_sum_signed; [now apply Forall_zip_tail|].
    apply calculateDistance_signed; [assumption|now inversion Hroute].
  - apply calculateDistance_signed; [|assumption].
    destruct (last (first :: rest)) as [l|] eqn:E; simpl; [|now inversion Hroute].
    rewrite Forall_forall in Hroute. apply Hroute.
    apply last_Some in E as [l' ->]. set_solver.
Qed.

(** The fitness [1 / distance] of a route through finite points is a
    number. *)
Lemma fitness_of_finite_points (route : list point) (startPoint : point) :
  Forall finitePoint route -> finitePoint startPoint ->
  PrimFloat.is_nan (1 / calculateRouteDistance route startPoint) = false.
Proof.
  intros Hroute Hstart. apply FloatArith.is_nan_spec.
  pose proof (calculateRouteDistance_signed route startPoint Hroute Hstart) as Hd.
  rewrite FloatAxioms.div_spec. unfold SF64div.
  assert (E : exists m e, Prim2SF 1 = S754_finite false m e)
    by (vm_compute; eauto).
  destruct E as (m & e & ->).
  pose proof (FloatArith.SFdiv_signed prec emax m e _ Hd) as Hq.
  intros E. now rewrite E in Hq.
Qed.

(** X4.  The length of a route through points with finite coordinates,
    from and back to a start point with finite coordinates, is a length: it
    is not NaN and it is not below 0. *)
Theorem calculateRouteDistance_is_a_length (route : list point) (startPoint : point) :
  Forall finitePoint route -> finitePoint startPoint ->
  isLength (calculateRouteDistance route startPoint).
Proof.
  intros Hroute Hstart.
  now apply FloatArith.signed_isLength, calculateRouteDistance_signed.
Qed.

Lemma calculateRouteDistance_is_a_length_witness :
  isLength (calculateRouteDistance labelledPoints origin).
Proof.
  apply (calculateRouteDistance_is_a_length labelledPoints origin).
  - repeat constructor.
  - split; reflexivity.
Defined.

(** X5.  For a non-empty array of points with pairwise distinct keys
    [orderId || id] and finite coordinates, and a start point with finite
    coordinates, [geneticAlgorithmRoute] returns, for every sequence of
    random draws and every number of generations, the start point, a
    permutation of the points, and the start point: no fitness is NaN, and
    no exception is thrown. *)
Theorem geneticAlgorithmRoute_tour_of_finite_points (points : list point)
    (startPoint : point) (maxGenerations : nat) (random : rng) :
  points ≠ [] -> NoDup (keyOf <$> points) ->
  Forall finitePoint points -> finitePoint startPoint ->
  returnsTourOf points startPoint
    (geneticAlgorithmRoute points startPoint maxGenerations random).
Proof.
  intros Hne Hkeys Hpoints Hstart.
  destruct (geneticAlgorithmRoute_returns points startPoint maxGenerations Hne Hkeys)
    with (s := random) as (route & random' & E & tour & -> & Htour).
  - intros r Hr. apply fitness_of_finite_points; [|assumption].
    now rewrite Hr.
  - now exists tour, random'.
Qed.

Lemma geneticAlgorithmRoute_tour_of_finite_points_witness :
  returnsTourOf labelledPoints origin
    (geneticAlgorithmRoute labelledPoints origin 100 zeroDraws).
Proof.
  apply (geneticAlgorithmRoute_tour_of_finite_points labelledPoints origin 100 zeroDraws).
  - discriminate.
  - refine (bool_decide_unpack _ _). vm_compute. exact I.
  - repeat constructor.
  - split; reflexivity.
Defined.

(* ===================================================================== *)
(** ** Route refinement: the operators of the genetic algorithm           *)
(* ===================================================================== *)

Lemma returnsAfter_ret {A} (a : A) (Q : A -> Prop) : Q a -> returnsAfter (ret a) 0 Q.
Proof. intros H [d c]. exists a. simpl. now rewrite Nat.add_0_r. Qed.

Lemma returnsAfter_bind {A B} (m : M A) (k : A -> M B) (n1 n2 : nat)
    (P : A -> Prop) (Q : B -> Prop) :
  returnsAfter m n1 P -> (forall a, P a -> returnsAfter (k a) n2 Q) ->
  returnsAfter (JS.bind m k) (n1 + n2) Q.
Proof.
  intros Hm Hk s. destruct (Hm s) as (a & E & Ha).
  unfold JS.bind. rewrite E.
  destruct (Hk a Ha (Rng (draws s) (calls s + n1))) as (b & E' & Hb).
  exists b. simpl in E'. now rewrite E', Nat.add_assoc.
Qed.

Lemma returnsAfter_randomIndex (n : nat) :
  returnsAfter (randomIndex n) 1 (fun i => (0 < n)%nat -> (i < n)%nat).
Proof.
  intros s. eexists. split; [unfold randomIndex; now rewrite Nat.add_1_r|].
  intros Hn. destruct (decide (n = 0%nat)); [lia|].
  now apply Nat.mod_upper_bound.
Qed.

Lemma returnsAfter_weaken {A} (m : M A) (n : nat) (P Q : A -> Prop) :
  returnsAfter m n P -> (forall a, P a -> Q a) -> returnsAfter m n Q.
Proof. intros Hm HPQ s. destruct (Hm s) as (a & E & Ha). exists a. auto. Qed.

Lemma shuffleFrom_returnsAfter {A} (i : nat) :
  forall array : list A, returnsAfter (shuffleFrom i array) i (fun r => r ≡ₚ array).
Proof.
  induction i as [|i IH]; intros array; cbn [shuffleFrom].
  - now apply returnsAfter_ret.
  - refine (returnsAfter_bind _ _ 1 i _ _ (returnsAfter_randomIndex _) _).
    intros j _. eapply returnsAfter_weaken; [apply IH|].
    intros r ->. apply swap_Permutation.
Qed.

(** X6.  [shuffleArray] leaves in the array a permutation of what it held,
    and calls [Math.random()] once for every element but one. *)
Theorem shuffleArray_permutation {A} (array : list A) (random : rng) :
  exists shuffled,
    shuffleArray array random
    = Returns shuffled (Rng (draws random) (calls random + (length array - 1)))
    ∧ shuffled ≡ₚ array.
Proof. apply (shuffleFrom_returnsAfter (length array - 1) array random). Qed.

Lemma swap_lookup {A} (array : list A) (i j : nat) :
  (i < length array)%nat -> (j < length array)%nat ->
  swap array i j !! i = array !! j
  ∧ swap array i j !! j = array !! i
  ∧ forall k, k ≠ i -> k ≠ j -> swap array i j !! k = array !! k.
Proof.
  intros Hi Hj. unfold swap.
  destruct (lookup_lt_is_Some_2 array i Hi) as [ai Ei].
  destruct (lookup_lt_is_Some_2 array j Hj) as [aj Ej].
  rewrite Ei, Ej. split; [|split].
  - destruct (decide (i = j)) as [->|Hne].
    + rewrite list_lookup_insert_eq by (now rewrite length_insert). congruence.
    + rewrite list_lookup_insert_ne by congruence.
      now rewrite list_lookup_insert_eq.
  - rewrite list_lookup_insert_eq by (now rewrite length_insert). reflexivity.
  - intros k Hki Hkj. now rewrite !list_lookup_insert_ne by congruence.
Qed.

(** X7.  On a route that is not empty, [mutateRoute] returns the route with
    the elements at two indices (which may be the same) exchanged and every
    other element in its place, after two calls of [Math.random()]. *)
Theorem mutateRoute_exchanges_two {A} (route : list A) (random : rng) :
  route ≠ [] ->
  exists mutated i j,
    mutateRoute route random = Returns mutated (Rng (draws random) (calls random + 2))
    ∧ (i < length route)%nat ∧ (j < length route)%nat
    ∧ mutated !! i = route !! j
    ∧ mutated !! j = route !! i
    ∧ (forall k, k ≠ i -> k ≠ j -> mutated !! k = route !! k)
    ∧ mutated ≡ₚ route.
Proof.
  intros Hne.
  assert (Hlen : (0 < length route)%nat) by (destruct route; [congruence|simpl; lia]).
  unfold mutateRoute, JS.bind.
  destruct (returnsAfter_randomIndex (length route) random) as (i & -> & Hi).
  destruct (returnsAfter_randomIndex (length route)
              (Rng (draws random) (calls random + 1))) as (j & -> & Hj).
  specialize (Hi Hlen). specialize (Hj Hlen).
  exists (swap route i j), i, j. cbn [draws calls ret].
  destruct (swap_lookup route i j Hi Hj) as (H1 & H2 & H3).
  replace (calls random + 1 + 1)%nat with (calls random + 2)%nat by lia.
  repeat split; try assumption. apply swap_Permutation.
Qed.

Lemma mutateRoute_exchanges_two_witness :
  exists mutated i j,
    mutateRoute labelledPoints zeroDraws = Returns mutated (Rng (draws zeroDraws) 2)
    ∧ (i < 4)%nat ∧ (j < 4)%nat
    ∧ mutated !! i = labelledPoints !! j
    ∧ mutated !! j = labelledPoints !! i
    ∧ (forall k, k ≠ i -> k ≠ j -> mutated !! k = labelledPoints !! k)
    ∧ mutated ≡ₚ labelledPoints.
Proof.
  apply (mutateRoute_exchanges_two labelledPoints zeroDraws). discriminate.
Defined.

Lemma returnsAfter_calls {A} (m : M A) (n n' : nat) (Q : A -> Prop) :
  n = n' -> returnsAfter m n Q -> returnsAfter m n' Q.
Proof. now intros ->. Qed.

(** X8.  [initializePopulation] returns [populationSize] routes, each a
    permutation of the points, for every sequence of random draws, after
    one shuffle, that is length - 1 calls of [Math.random()], per route. *)
Theorem initializePopulation_permutations (points : list point) (populationSize : nat)
    (random : rng) :
  exists population,
    initializePopulation points populationSize random
    = Returns population
              (Rng (draws random) (calls random + populationSize * (length points - 1)))
    ∧ length population = populationSize
    ∧ Forall (fun route => route ≡ₚ points) population.
Proof.
  revert random.
  change (returnsAfter (initializePopulation points populationSize)
            (populationSize * (length points - 1))
            (fun population => length population = populationSize
                               ∧ Forall (fun route => route ≡ₚ points) population)).
  induction populationSize as [|n IH]; cbn [initializePopulation].
  - apply returnsAfter_ret. split; [reflexivity|constructor].
  - apply (returnsAfter_calls _ ((length points - 1) + (n * (length points - 1) + 0)));
      [simpl; lia|].
    eapply returnsAfter_bind; [apply shuffleFrom_returnsAfter|]. intros route Hroute.
    eapply returnsAfter_bind; [exact IH|]. intros population [Hlen Hall].
    apply returnsAfter_ret. split; [simpl; congruence|now constructor].
Qed.

(** X9.  [tournamentSelection] returns an individual of the population
    after three calls of [Math.random()]; it returns [undefined] only for
    an empty population. *)
Theorem tournamentSelection_member (population : list (list (option point)))
    (fitness : list float) (random : rng) :
  exists selected,
    tournamentSelection population fitness random
    = Returns selected (Rng (draws random) (calls random + 3))
    ∧ match selected with
      | Some route => route ∈ population
      | None => population = []
      end.
Proof.
  unfold tournamentSelection, JS.bind.
  destruct (returnsAfter_randomIndex (length population) random) as (b & -> & Hb).
  destruct (returnsAfter_randomIndex (length population)
              (Rng (draws random) (calls random + 1))) as (c1 & -> & Hc1).
  cbn [draws calls].
  destruct (returnsAfter_randomIndex (length population)
              (Rng (draws random) (calls random + 1 + 1))) as (c2 & -> & Hc2).
  cbn [draws calls ret] in *.
  replace (calls random + 1 + 1 + 1)%nat with (calls random + 3)%nat by lia.
  eexists. split; [reflexivity|].
  set (bestIndex := if fitterThan fitness c2 _ then c2 else _).
  destruct (population !! bestIndex) as [route|] eqn:E.
  - eapply list_elem_of_lookup_2, E.
  - destruct population as [|r0 rest]; [reflexivity|exfalso].
    apply lookup_ge_None in E.
    assert (bestIndex < length (r0 :: rest))%nat; [|lia].
    unfold bestIndex. repeat destruct (fitterThan _ _ _);
      (apply Hb || apply Hc1 || apply Hc2); simpl; lia.
Qed.

(** The child of two parents without empty slots and of the same length:
    a slice of the first parent in its place, and around it, from the left,
    the points of the second parent whose key is not a key of the slice. *)
Lemma orderCrossover_child (r1 r2 : list point) (s : rng) :
  (0 < length r1)%nat -> length r2 = length r1 ->
  exists start n s',
    (start + n ≤ length r1)%nat ∧ (0 < n)%nat
    ∧ orderCrossover (Some (Some <$> r1)) (Some (Some <$> r2)) s
      = Returns
          (layout start (length r1) (take n (drop start r1))
             (take (length r1 - n)
                (filter (fun p => keyOf p ∉ (list_to_set (keyOf <$> take n (drop start r1))
                                              : gset (option string))) r2))) s'.
Proof.
  intros Hlen Hlen2. unfold orderCrossover. rewrite length_fmap.
  unfold JS.bind at 1.
  destruct (returns_randomIndex (length r1) s) as (start & s1 & -> & Hstart).
  specialize (Hstart Hlen).
  unfold JS.bind at 1.
  destruct (returns_randomIndex (length r1 - start) s1) as (r & s2 & -> & Hr).
  specialize (Hr ltac:(lia)). cbn zeta.
  replace (S (r + start) - start)%nat with (S r) by lia.
  set (segment := take (S r) (drop start r1)).
  assert (Hseg : length segment = S r).
  { unfold segment. rewrite length_take, length_drop. lia. }
  exists start, (S r), s2. split; [lia|]. split; [lia|].
  replace (replicate (length r1) None : list (option point))
    with (replicate start None ++ replicate (S r) None
          ++ replicate (length r1 - length segment - start) (None : option point)).
  2:{ rewrite <- !replicate_add. f_equal. lia. }
  pose proof (copySegment_dense r1 (S r) (replicate start None)
                (replicate (length r1 - length segment - start) None) ∅ s2) as Hcopy.
  rewrite length_replicate in Hcopy. fold segment in Hcopy.
  unfold JS.bind at 1. rewrite Hcopy by lia. clear Hcopy.
  rewrite (left_id_L ∅ (∪)). simpl default.
  rewrite <- (layout_nil start (length r1) segment).
  replace (r + start)%nat with (start + length segment - 1)%nat by lia.
  rewrite (fillRemaining_dense start (length r1) segment ltac:(lia) ltac:(lia)
             r2 _ (length r1) 0 [] 0 s2).
  - rewrite drop_0. simpl. now rewrite Hseg.
  - lia.
  - simpl. lia.
  - unfold slot. simpl. repeat case_decide; lia.
Qed.

(** X10.  [orderCrossover] on two orderings of the same points, whose keys
    [orderId || id] are pairwise distinct, returns an ordering of these
    points without empty slots. *)
Theorem orderCrossover_permutation (points r1 r2 : list point) (random : rng) :
  points ≠ [] -> NoDup (keyOf <$> points) -> r1 ≡ₚ points -> r2 ≡ₚ points ->
  exists child random',
    orderCrossover (Some (Some <$> r1)) (Some (Some <$> r2)) random
    = Returns (Some <$> child) random'
    ∧ child ≡ₚ points.
Proof.
  intros Hne Hkeys H1 H2.
  destruct (orderCrossover_returns points Hkeys (Some <$> r1) (Some <$> r2) Hne)
    with (s := random) as (child & random' & E & r & -> & Hr).
  - now exists r1.
  - now exists r2.
  - now exists r, random'.
Qed.

Lemma orderCrossover_permutation_witness :
  exists child random',
    orderCrossover (Some (Some <$> labelledPoints)) (Some (Some <$> reverse labelledPoints))
                   zeroDraws
    = Returns (Some <$> child) random'
    ∧ child ≡ₚ labelledPoints.
Proof.
  apply (orderCrossover_permutation labelledPoints labelledPoints (reverse labelledPoints)
           zeroDraws).
  - discriminate.
  - refine (bool_decide_unpack _ _). vm_compute. exact I.
  - reflexivity.
  - apply reverse_Permutation.
Defined.

(** X11.  [orderCrossover] of a parent with itself returns the parent, when
    the keys [orderId || id] of its points are pairwise distinct. *)
Theorem orderCrossover_same_parent (r : list point) (random : rng) :
  r ≠ [] -> NoDup (keyOf <$> r) ->
  exists random',
    orderCrossover (Some (Some <$> r)) (Some (Some <$> r)) random
    = Returns (Some <$> r) random'.
Proof.
  intros Hne Hkeys.
  assert (Hlen : (0 < length r)%nat) by (destruct r; [congruence|simpl; lia]).
  destruct (orderCrossover_child r r random Hlen eq_refl)
    as (start & n & random' & Hfit & Hn & ->).
  exists random'. f_equal.
  set (segment := take n (drop start r)).
  assert (Hseg : length segment = n).
  { unfold segment. rewrite length_take, length_drop. lia. }
  assert (Hsplit : r = take start r ++ segment ++ drop (start + n) r).
  { unfold segment. now rewrite app_assoc, take_take_drop, take_drop. }
  assert (Hun : filter (fun p => keyOf p ∉ (list_to_set (keyOf <$> segment)
                                            : gset (option string))) r
                = take start r ++ drop (start + n) r).
  { rewrite Hsplit at 1. apply filter_unselected. now rewrite <- Hsplit. }
  rewrite Hun.
  rewrite (take_ge (take start r ++ drop (start + n) r))
    by (rewrite length_app, length_take, length_drop; lia).
  rewrite layout_full.
  - rewrite take_app_length', drop_app_length' by (rewrite length_take; lia).
    now rewrite <- Hsplit.
  - lia.
  - lia.
  - rewrite length_app, length_take, length_drop. lia.
Qed.

Lemma orderCrossover_same_parent_witness :
  exists random',
    orderCrossover (Some (Some <$> labelledPoints)) (Some (Some <$> labelledPoints)) zeroDraws
    = Returns (Some <$> labelledPoints) random'.
Proof.
  apply (orderCrossover_same_parent labelledPoints zeroDraws).
  - discriminate.
  - refine (bool_decide_unpack _ _). vm_compute. exact I.
Defined.

(* ===================================================================== *)
(** ** Facility location: k-means on every input, one base or several     *)
(* ===================================================================== *)

(** For points that are not empty and K > 0 the loop of
    [kMeansBasePlacement] ends, and the [return] statement throws. *)
Lemma kMeansBasePlacement_loop_ends (points : list point) (k : nat) (random : rng) :
  points ≠ [] -> (0 < k)%nat ->
  kMeansBasePlacement points k random = Throws ReferenceError.
Proof.
  intros Hne Hk. unfold kMeansBasePlacement, JS.bind.
  destruct (initialCentroids_returns points k Hne [] random) as (cs & s1 & -> & Hcs).
  simpl in Hcs.
  destruct (lloyd_returns points k 100 Hk cs true 0%nat Hcs s1)
    as ([cs' it] & s2 & -> & _).
  reflexivity.
Qed.

(** X12.  [kMeansBasePlacement] throws on every input: a TypeError when
    there is no point and K > 0, where it reads [randomPoint.x], or points
    and K = 0, where it measures the distance to [centroids[0]]; and a
    ReferenceError on every other input, where its loop ends and the
    [return] statement reads [clusters].  It never returns a result. *)
Theorem kMeansBasePlacement_throws_on_every_input (points : list point) (k : nat)
    (random : rng) :
  kMeansBasePlacement points k random
  = Throws match points, k with
           | [], S _ | _ :: _, O => TypeError
           | _, _ => ReferenceError
           end.
Proof.
  destruct points as [|p points], k as [|k]; try reflexivity.
  apply kMeansBasePlacement_loop_ends; [discriminate|lia].
Qed.

(** X13.  [optimizeBaseLocations] returns exactly when one base is asked
    for (or [numBases] is absent): the result is then one base, the centre
    of the delivery points, with its average distance to them and its
    coverage within 50, and no random number is drawn.  For every other
    number of bases it throws what [kMeansBasePlacement] throws. *)
Theorem optimizeBaseLocations_one_base_only (deliveryPoints : list point)
    (numBases : option nat) (random : rng) :
  optimizeBaseLocations deliveryPoints numBases random
  = if decide (default 1%nat numBases = 1%nat)
    then Returns (SingleBase [calculateCenterLocation deliveryPoints]
                    (calculateAverageDistanceToPoints
                       (calculateCenterLocation deliveryPoints) deliveryPoints)
                    (calculateCoverage
                       (calculateCenterLocation deliveryPoints) deliveryPoints 50))
                 random
    else Throws match deliveryPoints, default 1%nat numBases with
                | [], S _ | _ :: _, O => TypeError
                | _, _ => ReferenceError
                end.
Proof.
  unfold optimizeBaseLocations. cbn zeta.
  destruct (decide _) as [|Hmany]; [reflexivity|]. unfold JS.bind.
  destruct deliveryPoints as [|p points], (default 1%nat numBases) as [|k];
    try reflexivity.
  rewrite kMeansBasePlacement_loop_ends; [reflexivity|discriminate|lia].
Qed.

Lemma scanCentroids_scanNearest (point_ : point) (rest : list point) :
  forall i nearestCentroid nearestDistance,
    scanCentroids point_ rest i nearestCentroid nearestDistance
    = scanNearest point_ rest i nearestCentroid nearestDistance.
Proof.
  induction rest as [|c rest IH]; intros i n d; simpl; [reflexivity|].
  now rewrite !IH.
Qed.

Lemma concat_alter_snoc {A} (clusters : list (list A)) (i : nat) (a : A) :
  (i < length clusters)%nat ->
  concat (alter (fun cluster => cluster ++ [a]) i clusters) ≡ₚ a :: concat clusters.
Proof.
  revert i. induction clusters as [|c clusters IH]; intros [|i] Hi; simpl in *; try lia.
  - rewrite <- app_assoc. simpl. symmetry. apply Permutation_middle.
  - change (list_alter ?f i clusters) with (alter f i clusters).
    rewrite IH by lia. symmetry. apply Permutation_middle.
Qed.

(** What the assignment loop keeps: the number of clusters, and that every
    point of the cluster at index [i] has the centroid at index [i] as its
    nearest, the first of the nearest in the order of the centroids. *)
Lemma assignToClusters_spec (centroids points : list point) :
  centroids ≠ [] ->
  forall clusters s,
    length clusters = length centroids ->
    (forall i cluster p, clusters !! i = Some cluster -> p ∈ cluster ->
                         exists c, nearestFirstAt p centroids i c) ->
    exists clusters',
      assignToClusters centroids points clusters s = Returns clusters' s
      ∧ length clusters' = length centroids
      ∧ concat clusters' ≡ₚ concat clusters ++ points
      ∧ (forall i cluster p, clusters' !! i = Some cluster -> p ∈ cluster ->
                             exists c, nearestFirstAt p centroids i c).
Proof.
  intros Hne. induction points as [|p points IH]; intros clusters s Hlen Hnear; simpl.
  - exists clusters. rewrite app_nil_r. auto.
  - destruct centroids as [|c0 others]; [congruence|].
    rewrite scanCentroids_scanNearest.
    destruct (nearestIndexOf_spec p c0 others) as (c & Hc).
    unfold nearestIndexOf in Hc.
    set (nearest := scanNearest p others 1 0 (calculateDistance p c0)) in *.
    assert (Hin : (nearest < length clusters)%nat).
    { rewrite Hlen. destruct Hc as [Hk _]. now apply lookup_lt_Some in Hk. }
    destruct (IH (alter (fun cluster => cluster ++ [p]) nearest clusters) s)
      as (clusters' & -> & Hlen' & Hperm & Hnear').
    + now rewrite length_alter.
    + intros i cluster q Hi Hq.
      destruct (decide (i = nearest)) as [->|Hne'].
      * rewrite list_lookup_alter_eq in Hi.
        destruct (clusters !! nearest) as [old|] eqn:Eold; [|discriminate].
        injection Hi as <-. apply elem_of_app in Hq as [Hq|Hq].
        -- eapply Hnear; eassumption.
        -- apply list_elem_of_singleton in Hq as ->. eauto.
      * rewrite list_lookup_alter_ne in Hi by congruence. eapply Hnear; eassumption.
    + exists clusters'. split; [reflexivity|]. split; [assumption|]. split; [|assumption].
      rewrite Hperm, concat_alter_snoc by assumption.
      simpl. apply Permutation_middle.
Qed.

(** X14.  One assignment pass of k-means, on centroids that are not empty
    and one empty cluster per centroid: the clusters partition the points,
    every point is in the cluster of its nearest centroid (the first of the
    nearest in the array), and no random number is drawn. *)
Theorem assignToClusters_nearest_centroid (centroids points : list point) (random : rng) :
  centroids ≠ [] ->
  exists clusters,
    assignToClusters centroids points (replicate (length centroids) []) random
    = Returns clusters random
    ∧ length clusters = length centroids
    ∧ concat clusters ≡ₚ points
    ∧ (forall i cluster p, clusters !! i = Some cluster -> p ∈ cluster ->
                           exists c, nearestFirstAt p centroids i c).
Proof.
  intros Hne.
  destruct (assignToClusters_spec centroids points Hne
              (replicate (length centroids) []) random)
    as (clusters & E & Hlen & Hperm & Hnear).
  - apply length_replicate.
  - intros i cluster p [-> _]%lookup_replicate Hp. inversion Hp.
  - exists clusters. repeat split; try assumption.
    rewrite Hperm. clear. induction (length centroids); simpl; auto.
Qed.

Lemma assignToClusters_nearest_centroid_witness :
  exists clusters,
    assignToClusters [Point 1 1 None None; Point 10 10 None None] clusteringTestPoints
                     (replicate 2 []) zeroDraws
    = Returns clusters zeroDraws
    ∧ length clusters = 2%nat
    ∧ concat clusters ≡ₚ clusteringTestPoints
    ∧ (forall i cluster p, clusters !! i = Some cluster -> p ∈ cluster ->
         exists c, nearestFirstAt p [Point 1 1 None None; Point 10 10 None None] i c).
Proof.
  apply (assignToClusters_nearest_centroid
           [Point 1 1 None None; Point 10 10 None None] clusteringTestPoints zeroDraws).
  discriminate.
Defined.

Lemma initialCentroids_spec (points : list point) (k : nat) :
  points ≠ [] ->
  forall centroids,
    returnsAfter (initialCentroids points k centroids) k
      (fun cs => exists drawn,
           cs = centroids ++ ((fun p => Point (pt_x p) (pt_y p) None None) <$> drawn)
           ∧ length drawn = k ∧ Forall (fun p => p ∈ points) drawn).
Proof.
  intros Hne. induction k as [|k IH]; intros centroids; cbn [initialCentroids].
  - apply returnsAfter_ret. exists []. simpl. now rewrite app_nil_r.
  - refine (returnsAfter_bind _ _ 1 k _ _ (returnsAfter_randomIndex _) _).
    intros index Hi. cbn beta.
    destruct (points !! index) as [randomPoint|] eqn:E.
    + eapply returnsAfter_weaken; [apply IH|].
      intros cs (drawn & -> & Hlen & Hall). exists (randomPoint :: drawn).
      split; [now rewrite <- app_assoc|]. split; [simpl; congruence|].
      constructor; [|assumption]. eapply list_elem_of_lookup_2, E.
    + apply lookup_ge_None in E. destruct points; [congruence|]. simpl in *. lia.
Qed.

(** X15.  For points that are not empty, the initial centroids of k-means
    are K objects [{x, y}] with the coordinates of K points drawn from the
    array (with repetition), after K calls of [Math.random()]. *)
Theorem initialCentroids_drawn_from_points (points : list point) (k : nat) (random : rng) :
  points ≠ [] ->
  exists drawn,
    initialCentroids points k [] random
    = Returns ((fun p => Point (pt_x p) (pt_y p) None None) <$> drawn)
              (Rng (draws random) (calls random + k))
    ∧ length drawn = k
    ∧ Forall (fun p => p ∈ points) drawn.
Proof.
  intros Hne.
  destruct (initialCentroids_spec points k Hne [] random)
    as (cs & E & drawn & -> & Hlen & Hall).
  now exists drawn.
Qed.

Lemma initialCentroids_drawn_from_points_witness :
  exists drawn,
    initialCentroids clusteringTestPoints 2 [] zeroDraws
    = Returns ((fun p => Point (pt_x p) (pt_y p) None None) <$> drawn)
              (Rng (draws zeroDraws) 2)
    ∧ length drawn = 2%nat
    ∧ Forall (fun p => p ∈ clusteringTestPoints) drawn.
Proof.
  apply (initialCentroids_drawn_from_points clusteringTestPoints 2 zeroDraws).
  discriminate.
Defined.

(* ===================================================================== *)
(** ** Assignment: the drone that is chosen, the groups that are left out *)
(* ===================================================================== *)

Lemma bestDroneStep_bestSoFar (group : list order) (seen : list drone)
    (best : option drone * float) (d : drone) :
  bestSoFar group seen best ->
  bestSoFar group (seen ++ [d])
    (bestDroneStep (totalWeightOf group)
       (calculateCenterLocation (map ord_location group)) best d).
Proof.
  intros [Hbest Hmax]. unfold bestDroneStep. fold (scoreFor group d).
  destruct (drn_capacity d <? totalWeightOf group) eqn:Hcap.
  { split.
    - destruct best.1; [|assumption].
      destruct Hbest as (? & ? & ? & ?). repeat split; try assumption.
      apply elem_of_app. now left.
    - intros d' [Hd'|Hd']%elem_of_app Hc; [now apply Hmax|].
      apply list_elem_of_singleton in Hd' as ->.
      unfold canCarry in Hc. congruence. }
  destruct (best.2 <? scoreFor group d) eqn:Hlt.
  - split; cbn [fst snd].
    + split; [apply elem_of_app; right; now left|].
      split; [exact Hcap|]. split; [reflexivity|].
      destruct best.1 as [b|].
      * destruct Hbest as (_ & _ & E & Hb). rewrite E in Hlt.
        eapply FloatOrder.ltb_trans; eassumption.
      * now rewrite Hbest in Hlt.
    + intros d' [Hd'|Hd']%elem_of_app Hc;
        [|apply list_elem_of_singleton in Hd' as ->].
      * destruct (scoreFor group d <? scoreFor group d') eqn:Hc'; [|reflexivity].
        rewrite <- (Hmax d' Hd' Hc). symmetry.
        eapply FloatOrder.ltb_trans; eassumption.
      * apply FloatOrder.ltb_irrefl.
  - split.
    + destruct best.1; [|assumption].
      destruct Hbest as (? & ? & ? & ?). repeat split; try assumption.
      apply elem_of_app. now left.
    + intros d' [Hd'|Hd']%elem_of_app Hc; [now apply Hmax|].
      apply list_elem_of_singleton in Hd' as ->. exact Hlt.
Qed.

Lemma bestDrone_loop_bestSoFar (group : list order) (drones : list drone) :
  forall seen best,
    bestSoFar group seen best ->
    bestSoFar group (seen ++ drones)
      (fold_left (bestDroneStep (totalWeightOf group)
                    (calculateCenterLocation (map ord_location group))) drones best).
Proof.
  induction drones as [|d drones IH]; intros seen best Hbest; simpl.
  - now rewrite app_nil_r.
  - replace (seen ++ d :: drones) with ((seen ++ [d]) ++ drones)
      by now rewrite <- app_assoc.
    apply IH. now apply bestDroneStep_bestSoFar.
Qed.

(** X16.  The drone that [findBestDroneForGroup] returns is a drone of the
    list that can carry the group, with a score above -1, and no drone of
    the list that can carry the group has a higher score. *)
Theorem findBestDroneForGroup_highest_score (group : list order) (drones : list drone)
    (d : drone) :
  findBestDroneForGroup group drones = Some d ->
  d ∈ drones
  ∧ canCarry group d
  ∧ (-1 <? scoreFor group d) = true
  ∧ forall d', d' ∈ drones -> canCarry group d' ->
               (scoreFor group d <? scoreFor group d') = false.
Proof.
  unfold findBestDroneForGroup. intros E.
  destruct (bestDrone_loop_bestSoFar group drones [] (None, -1)) as [Hbest Hmax].
  { split; [reflexivity|]. intros d' Hd'. inversion Hd'. }
  rewrite E in Hbest. destruct Hbest as (Hin & Hcap & Hscore & Habove).
  repeat split; try assumption.
  intros d' Hd' Hc. rewrite <- Hscore. now apply Hmax.
Qed.

Lemma findBestDroneForGroup_highest_score_witness :
  idleDrone ∈ testDrones
  ∧ canCarry [pendingOrder] idleDrone
  ∧ (-1 <? scoreFor [pendingOrder] idleDrone) = true
  ∧ forall d', d' ∈ testDrones -> canCarry [pendingOrder] d' ->
               (scoreFor [pendingOrder] idleDrone <? scoreFor [pendingOrder] d') = false.
Proof.
  apply (findBestDroneForGroup_highest_score [pendingOrder] testDrones idleDrone).
  vm_compute. reflexivity.
Defined.

Lemma assignStep_complete (drones : list drone) (processed : list (list order))
    (st : list assignment * gset string) (group : list order) :
  noCapableDroneUnused drones processed st ->
  noCapableDroneUnused drones (processed ++ [group]) (assignStep drones st group).
Proof.
  destruct st as [assignments usedDrones]. intros Hinv. unfold assignStep.
  destruct (findBestDroneForGroup group _) as [bestDrone|] eqn:E;
    intros g Hg Hout d Hd Hfree; cbn [fst snd] in *.
  - rewrite fmap_app, elem_of_app in Hout. simpl in Hout.
    apply elem_of_app in Hg as [Hg|Hg%list_elem_of_singleton].
    + apply (Hinv g Hg); [tauto|assumption|set_solver].
    + subst g. exfalso. apply Hout. right. now left.
  - apply elem_of_app in Hg as [Hg|Hg%list_elem_of_singleton].
    + now apply (Hinv g Hg).
    + subst g. apply findBestDroneForGroup_None in E.
      rewrite Forall_forall in E. apply E. now apply list_elem_of_filter.
Qed.

Lemma assign_loop_complete (drones : list drone) (groups : list (list order)) :
  forall processed st,
    noCapableDroneUnused drones processed st ->
    noCapableDroneUnused drones (processed ++ groups)
      (fold_left (assignStep drones) groups st).
Proof.
  induction groups as [|g groups IH]; intros processed st Hst; simpl.
  - now rewrite app_nil_r.
  - replace (processed ++ g :: groups) with ((processed ++ [g]) ++ groups)
      by now rewrite <- app_assoc.
    apply IH. now apply assignStep_complete.
Qed.

Lemma assign_loop_from_nothing (drones : list drone) (groups : list (list order)) :
  assignmentsSound drones groups (fold_left (assignStep drones) groups ([], ∅)).
Proof.
  apply (assign_loop_sound drones groups [] ([], ∅)).
  unfold assignmentsSound. cbn [fst snd].
  split; [|split; [|split]]; try constructor; set_solver.
Qed.

(** X17.  [assignOrderGroupsToDrones] makes no more assignments than there
    are groups and no more than there are drones; and it leaves a group out
    only when no drone that stays without an assignment would have been
    taken for it: each of them cannot carry the group, or has a score for
    it that is not above -1. *)
Theorem assignOrderGroupsToDrones_leaves_out (orderGroups : list (list order))
    (drones : list drone) :
  let assignments := (assignOrderGroupsToDrones orderGroups drones).1 in
  (length assignments ≤ length orderGroups)%nat
  ∧ (length assignments ≤ length drones)%nat
  ∧ forall g, g ∈ orderGroups -> g ∉ asg_orders <$> assignments ->
      forall d, d ∈ drones -> drn_id d ∉ assignedIds assignments -> passedOver g d.
Proof.
  cbn zeta. unfold assignOrderGroupsToDrones. cbn [fst].
  set (sorted := JS.sort byAveragePriorityDesc orderGroups).
  destruct (assign_loop_from_nothing drones sorted) as (Hsub & Hnd & Hused & Hall).
  pose proof (assign_loop_complete drones sorted [] ([], ∅)) as Hcomplete.
  simpl app in Hcomplete.
  set (st := fold_left (assignStep drones) sorted ([], ∅)) in *.
  split; [|split].
  - apply submseteq_length in Hsub. rewrite length_fmap in Hsub.
    unfold sorted in Hsub. now rewrite (Permutation_length (sort_Permutation _ _)) in Hsub.
  - assert (Hids : assignedIds st.1 ⊆+ drn_id <$> drones).
    { apply NoDup_submseteq; [assumption|].
      intros i (a & -> & Ha)%list_elem_of_fmap.
      rewrite Forall_forall in Hall. destruct (Hall a Ha) as (Hin & _).
      apply list_elem_of_fmap. eauto. }
    apply submseteq_length in Hids. unfold assignedIds in Hids.
    now rewrite !length_fmap in Hids.
  - intros g Hg Hout d Hd Hfree.
    apply (Hcomplete ltac:(intros ? H; inversion H) g); try assumption.
    + unfold sorted. now rewrite sort_Permutation.
    + now rewrite Hused.
Qed.

(* ===================================================================== *)
(** ** Task grouping: reach and order                                     *)
(* ===================================================================== *)

Lemma pushToFirstFit_reach (ceiling : float) (o : order) :
  forall groups groups',
    pushToFirstFit ceiling o groups = Some groups' ->
    groupsWithinReach groups -> groupsWithinReach groups'.
Proof.
  induction groups as [|g rest IH]; intros groups' E Hok; simpl in E; [discriminate|].
  inversion Hok as [|? ? Hg Hrest]; subst.
  destruct (_ && _) eqn:Hfit.
  - injection E as <-. constructor; [|assumption].
    now apply andb_true_iff in Hfit as [_ Hd].
  - destruct (pushToFirstFit ceiling o rest) as [rest'|] eqn:Er; [|discriminate].
    injection E as <-. constructor; [assumption|]. now apply IH.
Qed.

Lemma grouping_loop_reach (ceiling : float) (orders : list order) :
  forall groups,
    groupsWithinReach groups ->
    groupsWithinReach (fold_left (groupingStep ceiling) orders groups).
Proof.
  induction orders as [|o orders IH]; intros groups Hok; simpl; [assumption|].
  apply IH. unfold groupingStep.
  destruct (pushToFirstFit ceiling o groups) as [groups'|] eqn:E.
  - eapply pushToFirstFit_reach; eassumption.
  - apply Forall_app. split; [assumption|]. constructor; [reflexivity|constructor].
Qed.

(** X18.  In every group that [groupOrdersForOptimalDelivery] returns, the
    chain of distances from each order to the next, in the order of the
    group, is at most 50. *)
Theorem groupOrdersForOptimalDelivery_within_reach (orders : list order)
    (drones : list drone) :
  Forall (fun g => (calculateGroupDistance g <=? 50) = true)
         (groupOrdersForOptimalDelivery orders drones).1.
Proof.
  unfold groupOrdersForOptimalDelivery. cbn [fst].
  apply grouping_loop_reach. constructor.
Qed.

Lemma pushToFirstFit_sublist (ceiling : float) (o : order) (processed : list order) :
  forall groups groups',
    pushToFirstFit ceiling o groups = Some groups' ->
    Forall (fun g => g `sublist_of` processed) groups ->
    Forall (fun g => g `sublist_of` processed ++ [o]) groups'.
Proof.
  induction groups as [|g rest IH]; intros groups' E Hok; simpl in E; [discriminate|].
  inversion Hok as [|? ? Hg Hrest]; subst.
  destruct (_ && _).
  - injection E as <-. constructor.
    + now apply sublist_app.
    + eapply Forall_impl; [exact Hrest|]. intros g'. apply sublist_inserts_r.
  - destruct (pushToFirstFit ceiling o rest) as [rest'|] eqn:Er; [|discriminate].
    injection E as <-. constructor; [now apply sublist_inserts_r|]. now apply IH.
Qed.

Lemma grouping_loop_sublist (ceiling : float) (orders : list order) :
  forall processed groups,
    Forall (fun g => g `sublist_of` processed) groups ->
    Forall (fun g => g `sublist_of` processed ++ orders)
           (fold_left (groupingStep ceiling) orders groups).
Proof.
  induction orders as [|o orders IH]; intros processed groups Hok; simpl.
  - now rewrite app_nil_r.
  - replace (processed ++ o :: orders) with ((processed ++ [o]) ++ orders)
      by now rewrite <- app_assoc.
    apply IH. unfold groupingStep.
    destruct (pushToFirstFit ceiling o groups) as [groups'|] eqn:E.
    + eapply pushToFirstFit_sublist; eassumption.
    + apply Forall_app. split.
      * eapply Forall_impl; [exact Hok|]. intros g'. apply sublist_inserts_r.
      * constructor; [|constructor]. apply sublist_inserts_l. reflexivity.
Qed.

(** X19.  Every group holds its orders in the order in which the sorted
    array holds them: each group is a subsequence of the caller's array as
    the function leaves it. *)
Theorem groupOrdersForOptimalDelivery_keeps_order (orders : list order)
    (drones : list drone) :
  Forall (fun g => g `sublist_of` (groupOrdersForOptimalDelivery orders drones).2)
         (groupOrdersForOptimalDelivery orders drones).1.
Proof.
  unfold groupOrdersForOptimalDelivery. cbn [fst snd].
  apply (grouping_loop_sublist _ _ [] []). constructor.
Qed.

(* ===================================================================== *)
(** ** The optimization pass: routes, results and statistics              *)
(* ===================================================================== *)

Lemma concat_submseteq {A} (l1 l2 : list (list A)) :
  l1 ⊆+ l2 -> concat l1 ⊆+ concat l2.
Proof.
  induction 1 as [|g l1 l2 _ IH|g1 g2 l|g l1 l2 _ IH|l1 l2 l3 _ IH1 _ IH2]; simpl.
  - reflexivity.
  - now apply submseteq_app.
  - rewrite !app_assoc. apply submseteq_app; [|reflexivity].
    apply Permutation_submseteq, Permutation_app_comm.
  - now apply submseteq_inserts_l.
  - etrans; eassumption.
Qed.

Lemma elem_of_concat_submseteq {A} (l : list (list A)) (g : list A) :
  g ∈ l -> g ⊆+ concat l.
Proof.
  induction 1 as [g l|g g' l _ IH]; simpl.
  - now apply submseteq_inserts_r.
  - now apply submseteq_inserts_l.
Qed.

Lemma NoDup_of_submseteq {A} (l k : list A) : l ⊆+ k -> NoDup k -> NoDup l.
Proof.
  intros (k' & ->)%submseteq_Permutation Hk. now apply NoDup_app in Hk as [? _].
Qed.

Lemma submseteq_fmap {A B} (f : A -> B) (l k : list A) : l ⊆+ k -> f <$> l ⊆+ f <$> k.
Proof. intros H. now rewrite H. Qed.

Section Pass.

Variable Math_exp : float -> float.

Lemma calculateOptimalRoute_returns (orders : list order) (startLocation : point)
    (algorithm : string) :
  orders ≠ [] ->
  (algorithm = GENETIC_ALGORITHM -> safeForGenetic orders startLocation) ->
  returns (calculateOptimalRoute Math_exp orders startLocation algorithm)
          (tourOf (map deliveryPoint orders) startLocation).
Proof.
  intros Hne Hsafe. unfold calculateOptimalRoute. cbn zeta.
  assert (Hpts : map deliveryPoint orders ≠ []) by now destruct orders.
  destruct (decide _); [apply returns_ret; now apply nearestNeighborRoute_tour|].
  destruct (decide _) as [Hg|_].
  { destruct (Hsafe Hg) as (Hkeys & Hfin & Hstart).
    apply geneticAlgorithmRoute_returns; try assumption.
    intros r Hr. apply fitness_of_finite_points; [|assumption]. now rewrite Hr. }
  destruct (decide _); [now apply simulatedAnnealingRoute_returns|].
  apply returns_ret. now apply nearestNeighborRoute_tour.
Qed.

Lemma mapAssignments_returns (algorithm : string) (assignments : list assignment) :
  Forall (fun a => asg_orders a ≠ []
                   ∧ (algorithm = GENETIC_ALGORITHM ->
                      safeForGenetic (asg_orders a) (drn_location (asg_drone a))))
         assignments ->
  returns (mapAssignments Math_exp algorithm assignments)
          (fun routes => Forall2 routeOf assignments routes).
Proof.
  induction 1 as [|a rest [Hne Hsafe] _ IH]; simpl.
  - apply returns_ret. constructor.
  - unfold optimizeAssignment.
    eapply returns_bind.
    + eapply returns_bind; [now apply calculateOptimalRoute_returns|].
      intros route Hroute. apply returns_ret.
      instantiate (1 := routeOf a). now repeat split.
    + intros r Hr. eapply returns_bind; [exact IH|].
      intros rs Hrs. apply returns_ret. now constructor.
Qed.

(** The assignments of a pass: every group is a non-empty group of pending
    orders, each pending order in at most one group; every drone is an
    available drone that can carry its group; no drone is in two. *)
Lemma pass_assignments (drones : list drone) (orders : list order) :
  let groups := (groupOrdersForOptimalDelivery orders drones).1 in
  let assignments := (assignOrderGroupsToDrones groups drones).1 in
  concat (asg_orders <$> assignments) ⊆+ orders
  ∧ NoDup (assignedIds assignments)
  ∧ Forall (fun a => asg_orders a ≠ [] ∧ asg_drone a ∈ drones
                     ∧ canCarry (asg_orders a) (asg_drone a)) assignments.
Proof.
  cbn zeta.
  set (groups := (groupOrdersForOptimalDelivery orders drones).1).
  unfold assignOrderGroupsToDrones. cbn [fst].
  destruct (assign_loop_from_nothing drones (JS.sort byAveragePriorityDesc groups))
    as (Hsub & Hnd & _ & Hall).
  set (st := fold_left _ _ _) in *.
  assert (Hsub' : (asg_orders <$> st.1) ⊆+ groups).
  { etrans; [exact Hsub|]. apply Permutation_submseteq, sort_Permutation. }
  destruct (grouping_loop_spec (capacityCeiling drones)
              (JS.sort byPriorityDesc orders) []) as [Hp Hk].
  specialize (Hk (Forall_nil_2 _)). simpl in Hp.
  fold (groupOrdersForOptimalDelivery orders drones).1 in Hp.
  split; [|split; [assumption|]].
  - etrans; [apply concat_submseteq, Hsub'|].
    apply Permutation_submseteq. etrans; [exact Hp|apply sort_Permutation].
  - apply Forall_forall. intros a Ha.
    rewrite Forall_forall in Hall. destruct (Hall a Ha) as (Hin & Hcap & _).
    split; [|split; assumption].
    assert (Hg : asg_orders a ∈ groups).
    { eapply elem_of_submseteq; [|exact Hsub']. apply list_elem_of_fmap. eauto. }
    unfold groupsWithinCeiling in Hk. rewrite Forall_forall in Hk.
    now destruct (Hk _ Hg).
Qed.

Lemma Forall2_routeOf_fmap (assignments : list assignment) (routes : list optimizedRoute) :
  Forall2 routeOf assignments routes ->
  or_drone <$> routes = asg_drone <$> assignments
  ∧ or_orders <$> routes = asg_orders <$> assignments.
Proof.
  induction 1 as [|a r assignments routes (Hd & Ho & _) _ [IHd IHo]]; [now split|].
  rewrite !fmap_cons. split; congruence.
Qed.

(** X20.  [calculateOptimalRoute] returns, for orders that are not empty, a
    route that leaves from the start location, visits the delivery point of
    every order once, and comes back: for every algorithm name but the
    genetic algorithm's (an unknown name included) on every input, and for
    the genetic algorithm when the delivery points have pairwise distinct
    keys and all coordinates are finite. *)
Theorem calculateOptimalRoute_tour (orders : list order) (startLocation : point)
    (algorithm : string) (random : rng) :
  orders ≠ [] ->
  (algorithm = GENETIC_ALGORITHM -> safeForGenetic orders startLocation) ->
  exists route random',
    calculateOptimalRoute Math_exp orders startLocation algorithm random
    = Returns route random'
    ∧ tourOf (map deliveryPoint orders) startLocation route.
Proof.
  intros Hne Hsafe.
  apply (calculateOptimalRoute_returns orders startLocation algorithm Hne Hsafe random).
Qed.

(** The pass on drones and orders that the genetic algorithm is safe on,
    or with another algorithm. *)
Lemma pass_returns (drones : list drone) (orders : list order) (algorithm : string) :
  (algorithm = GENETIC_ALGORITHM ->
   NoDup (keyOf <$> map deliveryPoint orders)
   ∧ Forall finitePoint (map deliveryPoint orders)
   ∧ Forall (fun d => finitePoint (drn_location d)) drones) ->
  let groups := (groupOrdersForOptimalDelivery orders drones).1 in
  let assignments := (assignOrderGroupsToDrones groups drones).1 in
  returns (mapAssignments Math_exp algorithm assignments)
          (fun routes => Forall2 routeOf assignments routes).
Proof.
  intros Hsafe. cbn zeta. apply mapAssignments_returns.
  destruct (pass_assignments drones orders) as (Hsub & _ & Hall).
  apply Forall_forall. intros a Ha.
  rewrite Forall_forall in Hall. destruct (Hall a Ha) as (Hne & Hin & _).
  split; [assumption|]. intros Hg. destruct (Hsafe Hg) as (Hkeys & Hfin & Hdrones).
  assert (Hpart : map deliveryPoint (asg_orders a) ⊆+ map deliveryPoint orders).
  { apply (submseteq_fmap deliveryPoint). etrans; [|exact Hsub].
    apply elem_of_concat_submseteq, list_elem_of_fmap. eauto. }
  split; [|split].
  - eapply NoDup_of_submseteq; [|exact Hkeys].
    now apply (submseteq_fmap keyOf).
  - rewrite Forall_forall in *. intros p Hp. apply Hfin.
    eapply elem_of_submseteq; eassumption.
  - rewrite Forall_forall in Hdrones. now apply Hdrones.
Qed.

End Pass.

Lemma calculateOptimalRoute_tour_witness :
  exists route random',
    calculateOptimalRoute (fun _ => 0) [pendingOrder; lowPriorityOrder] origin
                          GENETIC_ALGORITHM zeroDraws
    = Returns route random'
    ∧ tourOf (map deliveryPoint [pendingOrder; lowPriorityOrder]) origin route.
Proof.
  apply (calculateOptimalRoute_tour (fun _ => 0) [pendingOrder; lowPriorityOrder] origin
           GENETIC_ALGORITHM zeroDraws).
  - discriminate.
  - intros _. split; [|split].
    + refine (bool_decide_unpack _ _). vm_compute. exact I.
    + repeat constructor.
    + split; reflexivity.
Defined.

Lemma mapAssignments_fields (Math_exp : float -> float) (algorithm : string)
    (assignments : list assignment) :
  forall s routes s',
    mapAssignments Math_exp algorithm assignments s = Returns routes s' ->
    or_drone <$> routes = asg_drone <$> assignments
    ∧ or_orders <$> routes = asg_orders <$> assignments.
Proof.
  induction assignments as [|a rest IH]; intros s routes s' E; simpl in E.
  - injection E as <- _. now split.
  - unfold JS.bind, optimizeAssignment in E. unfold JS.bind in E.
    destruct (calculateOptimalRoute _ _ _ _ s) as [route s1|e]; [|discriminate].
    simpl in E.
    destruct (mapAssignments _ _ rest s1) as [rs s2|e] eqn:E2; [|discriminate].
    injection E as <- _. destruct (IH _ _ _ E2) as [IHd IHo].
    rewrite !fmap_cons. cbn [or_drone or_orders]. split; congruence.
Qed.

(** X21.  [optimizeDeliveryRoutes] catches no exception when the algorithm
    is not the genetic algorithm, and none with the genetic algorithm when
    the pending orders have delivery points with pairwise distinct keys and
    finite coordinates and the available drones are at finite coordinates.
    It fails only when no drone is available or no order is pending; and
    every route of its result leaves from the location of the drone, visits
    the delivery point of each of its orders once, and comes back. *)
Theorem optimizeDeliveryRoutes_routes_are_tours (Math_exp : float -> float)
    (drones : list drone) (orders : list order) (algorithm : option string)
    (random : rng) :
  (algorithm = Some GENETIC_ALGORITHM ->
   NoDup (keyOf <$> map deliveryPoint (filter isPending orders))
   ∧ Forall finitePoint (map deliveryPoint (filter isPending orders))
   ∧ Forall (fun d => finitePoint (drn_location d)) (filter isAvailable drones)) ->
  match optimizeDeliveryRoutes Math_exp drones orders algorithm random with
  | Caught _ => False
  | Failure _ => filter isAvailable drones = [] ∨ filter isPending orders = []
  | Success routes _ used =>
      used = default NEAREST_NEIGHBOR algorithm
      ∧ Forall (fun r => tourOf (map deliveryPoint (or_orders r))
                                (drn_location (or_drone r)) (or_route r)) routes
  end.
Proof.
  intros Hsafe. unfold optimizeDeliveryRoutes. cbn zeta.
  destruct (decide _) as [[H|H]|_].
  { left. now apply length_zero_iff_nil. }
  { right. now apply length_zero_iff_nil. }
  destruct (pass_returns Math_exp (filter isAvailable drones) (filter isPending orders)
              (default NEAREST_NEIGHBOR algorithm)) with (s := random)
    as (routes & random' & -> & Hroutes).
  - intros Hg. apply Hsafe. destruct algorithm as [a|]; simpl in Hg; [now subst|].
    unfold NEAREST_NEIGHBOR, GENETIC_ALGORITHM in Hg. discriminate.
  - split; [reflexivity|].
    induction Hroutes as [|a r assignments routes (Hd & Ho & Ht) _ IH]; constructor.
    + now rewrite Hd, Ho.
    + exact IH.
Qed.

Lemma optimizeDeliveryRoutes_routes_are_tours_witness :
  match optimizeDeliveryRoutes (fun _ => 0) testDrones [pendingOrder; lowPriorityOrder]
          (Some GENETIC_ALGORITHM) zeroDraws with
  | Caught _ => False
  | Failure _ => filter isAvailable testDrones = []
                 ∨ filter isPending [pendingOrder; lowPriorityOrder] = []
  | Success routes _ used =>
      used = default NEAREST_NEIGHBOR (Some GENETIC_ALGORITHM)
      ∧ Forall (fun r => tourOf (map deliveryPoint (or_orders r))
                                (drn_location (or_drone r)) (or_route r)) routes
  end.
Proof.
  apply (optimizeDeliveryRoutes_routes_are_tours (fun _ => 0) testDrones
           [pendingOrder; lowPriorityOrder] (Some GENETIC_ALGORITHM) zeroDraws).
  intros _. split; [|split].
  - refine (bool_decide_unpack _ _). vm_compute. exact I.
  - repeat constructor.
  - repeat constructor.
Defined.

(** X22.  In every successful result of [optimizeDeliveryRoutes], no drone
    has two routes; the drone of every route is an available drone of the
    fleet that can carry the orders of the route, which are not empty; and
    the routes carry pending orders only, each of them in one route at
    most. *)
Theorem successful_pass_is_an_assignment
    (Math_exp : float -> float) (drones : list drone) (orders : list order)
    (algorithm : option string) (random : rng)
    (routes : list optimizedRoute) (stats : optimizationStats) (used : string) :
  optimizeDeliveryRoutes Math_exp drones orders algorithm random
    = Success routes stats used ->
  NoDup ((fun r => drn_id (or_drone r)) <$> routes)
  ∧ Forall (fun r => or_drone r ∈ drones ∧ isAvailable (or_drone r)
                     ∧ or_orders r ≠ [] ∧ canCarry (or_orders r) (or_drone r)) routes
  ∧ concat (or_orders <$> routes) ⊆+ filter isPending orders.
Proof.
  unfold optimizeDeliveryRoutes. destruct (decide _); [discriminate|].
  destruct (mapAssignments _ _ _ _) as [rs s'|e] eqn:E; [|discriminate].
  intros [= <- _ _].
  apply mapAssignments_fields in E as [Hd Ho].
  destruct (pass_assignments (filter isAvailable drones) (filter isPending orders))
    as (Hsub & Hnd & Hall).
  set (assignments := (assignOrderGroupsToDrones _ _).1) in *.
  split; [|split].
  - replace ((fun r => drn_id (or_drone r)) <$> rs) with (drn_id <$> (or_drone <$> rs))
      by (rewrite <- list_fmap_compose; reflexivity).
    rewrite Hd, <- list_fmap_compose. exact Hnd.
  - apply Forall_forall. intros r Hr.
    apply list_elem_of_lookup_1 in Hr as [i Hi].
    assert (Hdi : (asg_drone <$> assignments) !! i = Some (or_drone r))
      by (rewrite <- Hd, list_lookup_fmap, Hi; reflexivity).
    assert (Hoi : (asg_orders <$> assignments) !! i = Some (or_orders r))
      by (rewrite <- Ho, list_lookup_fmap, Hi; reflexivity).
    rewrite list_lookup_fmap in Hdi. rewrite list_lookup_fmap in Hoi.
    destruct (assignments !! i) as [a|] eqn:Ea; [|discriminate].
    injection Hdi as <-. injection Hoi as <-.
    rewrite Forall_forall in Hall.
    destruct (Hall a (list_elem_of_lookup_2 _ _ _ Ea)) as (Hne & Hin & Hcap).
    apply list_elem_of_filter in Hin as [Hav Hin]. auto.
  - now rewrite Ho.
Qed.

Lemma successful_pass_is_an_assignment_witness :
  exists routes,
    length routes = 1%nat
    ∧ NoDup ((fun r => drn_id (or_drone r)) <$> routes)
    ∧ Forall (fun r => or_drone r ∈ testDrones ∧ isAvailable (or_drone r)
                       ∧ or_orders r ≠ [] ∧ canCarry (or_orders r) (or_drone r)) routes
    ∧ concat (or_orders <$> routes) ⊆+ filter isPending [pendingOrder; lowPriorityOrder].
Proof.
  eexists. split; cycle 1.
  - eapply (successful_pass_is_an_assignment (fun _ => 0) testDrones
              [pendingOrder; lowPriorityOrder] None zeroDraws).
    vm_compute. reflexivity.
  - reflexivity.
Defined.

Lemma zero_estimates_sum (routes : list optimizedRoute) :
  Forall (fun r => or_estimatedTime r = 0 ∧ or_estimatedBattery r = 0) routes ->
  fold_left (fun sum r => sum + or_estimatedBattery r / 2) routes 0 = 0
  ∧ fold_left (fun sum r => sum + or_estimatedTime r) routes 0 = 0.
Proof.
  induction 1 as [|r routes [Ht Hb] _ [IHb IHt]]; [now split|].
  simpl. rewrite Ht, Hb. split; assumption.
Qed.

(** [0 / y || 0] is 0, whatever [y] is. *)
Lemma or_zero_of_zero_quotient (y : float) : or_zero (0 / y) = 0.
Proof.
  unfold or_zero, PrimFloat.is_nan. rewrite !FloatAxioms.eqb_spec, FloatAxioms.div_spec.
  change (Prim2SF 0) with (S754_zero false). unfold SF64div.
  pose proof (FloatArith.SFdiv_zero prec emax (Prim2SF y)) as H.
  now destruct (SFdiv prec emax (S754_zero false) (Prim2SF y)) as [[]|[]| |[] ? ?].
Qed.

(** X23.  The statistics of every successful result of
    [optimizeDeliveryRoutes] report a total distance of 0 and an average
    time of 0, whatever the routes are; the number of routes is the number
    of entries, and the number of orders is not above the number of
    pending orders. *)
Theorem successful_pass_reports_no_distance
    (Math_exp : float -> float) (drones : list drone) (orders : list order)
    (algorithm : option string) (random : rng)
    (routes : list optimizedRoute) (stats : optimizationStats) (used : string) :
  optimizeDeliveryRoutes Math_exp drones orders algorithm random
    = Success routes stats used ->
  st_totalDistance stats = 0
  ∧ st_averageTime stats = 0
  ∧ st_totalRoutes stats = length routes
  ∧ (st_totalOrders stats ≤ length (filter isPending orders))%nat.
Proof.
  unfold optimizeDeliveryRoutes. destruct (decide _); [discriminate|].
  destruct (mapAssignments _ _ _ _) as [rs s'|e] eqn:E; [|discriminate].
  intros [= <- <- _].
  pose proof (mapAssignments_estimates _ _ _
                (assignOrderGroupsToDrones_no_route _ _) _ _ _ E) as Hzero.
  apply zero_estimates_sum in Hzero as [Hb Ht].
  apply mapAssignments_fields in E as [_ Ho].
  destruct (pass_assignments (filter isAvailable drones) (filter isPending orders))
    as (Hsub & _ & _).
  unfold calculateOptimizationStats.
  cbn [st_totalDistance st_averageTime st_totalRoutes st_totalOrders].
  rewrite Hb, Ht, or_zero_of_zero_quotient, fold_left_order_count.
  split; [reflexivity|]. split; [reflexivity|]. split; [reflexivity|].
  unfold taskCount. rewrite Nat.add_0_l.
  change (map or_orders rs) with (or_orders <$> rs). rewrite Ho.
  now apply submseteq_length.
Qed.

Lemma successful_pass_reports_no_distance_witness :
  exists routes stats,
    st_totalDistance stats = 0
    ∧ st_averageTime stats = 0
    ∧ st_totalRoutes stats = length (routes : list optimizedRoute)
    ∧ (st_totalOrders stats ≤ length (filter isPending [pendingOrder; lowPriorityOrder]))%nat.
Proof.
  eexists _, _.
  eapply (successful_pass_reports_no_distance (fun _ => 0) testDrones
            [pendingOrder; lowPriorityOrder] None zeroDraws).
  vm_compute. reflexivity.
Defined.

(* ===================================================================== *)
(** ** Fleet sizing: the priority classes                                 *)
(* ===================================================================== *)

Lemma priority_classes_Permutation (orders : list order) :
  filter (hasPriority "alta") orders ++ filter (hasPriority "media") orders
    ++ filter (hasPriority "baixa") orders
  ≡ₚ filter knownPriority orders.
Proof.
  induction orders as [|o orders IH]; [reflexivity|].
  destruct (decide (ord_priority o = "alta")) as [Ha|Ha];
    destruct (decide (ord_priority o = "media")) as [Hm|Hm];
    destruct (decide (ord_priority o = "baixa")) as [Hb|Hb];
    try congruence;
    repeat first
      [ rewrite filter_cons_True by (unfold hasPriority, knownPriority; set_solver)
      | rewrite filter_cons_False by (unfold hasPriority, knownPriority; set_solver) ].
  - cbn [app]. now rewrite IH.
  - cbn [app]. rewrite <- Permutation_middle. now rewrite IH.
  - rewrite app_assoc, <- Permutation_middle, <- app_assoc. now rewrite IH.
  - exact IH.
Qed.

Lemma filter_length_lt {A} (P : A -> Prop) `{!forall a, Decision (P a)} (l : list A) (a : A) :
  a ∈ l -> ¬ P a -> (length (filter P l) < length l)%nat.
Proof.
  induction 1 as [a l|a b l _ IH]; intros Ha.
  - rewrite filter_cons_False by assumption. simpl.
    pose proof (length_filter P l). lia.
  - specialize (IH Ha). rewrite filter_cons. destruct (decide (P b)); simpl; lia.
Qed.

(** X24.  [optimizeFleetAllocation] puts every order of priority "alta",
    "media" or "baixa" in its class and an order of another priority in no
    class: the classes together are the orders of a known priority.  Their
    sizes add up to [currentOrders] when every order has a known priority,
    and to less when one has not, so such an order is counted in
    [currentOrders] and in no requirement. *)
Theorem optimizeFleetAllocation_classes (orders : list order) (c : constraints) :
  let result := optimizeFleetAllocation orders c in
  let classes := fa_ordersByPriority result in
  let classified := (length (alta classes) + length (media classes)
                     + length (baixa classes))%nat in
  alta classes ++ media classes ++ baixa classes ≡ₚ filter knownPriority orders
  ∧ (Forall knownPriority orders -> classified = fa_currentOrders result)
  ∧ (forall o, o ∈ orders -> ¬ knownPriority o ->
               (classified < fa_currentOrders result)%nat).
Proof.
  cbn zeta. unfold optimizeFleetAllocation.
  cbn [fa_ordersByPriority fa_currentOrders alta media baixa].
  pose proof (priority_classes_Permutation orders) as Hp.
  pose proof (Permutation_length Hp) as Hl. rewrite !length_app in Hl.
  split; [exact Hp|]. split.
  - intros Hall. rewrite (filter_all _ _ Hall) in Hl. lia.
  - intros o Ho Hk. pose proof (filter_length_lt knownPriority orders o Ho Hk). lia.
Qed.


(* ===================================================================== *)
(** ** [CalculationUtils]: the route and its length, twice in the code    *)
(* ===================================================================== *)

(** X25.  [calculateManhattanDistance] is symmetric, for all coordinates. *)
Theorem calculateManhattanDistance_symmetric (p q : point) :
  CalculationUtils.calculateManhattanDistance p q
  = CalculationUtils.calculateManhattanDistance q p.
Proof.
  unfold CalculationUtils.calculateManhattanDistance.
  assert (H : forall a b, PrimFloat.abs (b - a) = PrimFloat.abs (a - b)).
  { intros a b. apply Prim2SF_inj.
    rewrite !FloatAxioms.abs_spec, !FloatAxioms.sub_spec. unfold SF64sub.
    destruct (FloatArith.SFsub_swap prec emax (Prim2SF a) (Prim2SF b)) as [->| ->];
      [reflexivity|].
    now destruct (SFsub prec emax (Prim2SF a) (Prim2SF b)). }
  now rewrite (H (pt_x p)), (H (pt_y p)).
Qed.

Lemma visitNearest_app (fuel : nat) (before : list point) :
  forall route unvisited current,
    visitNearest fuel (before ++ route) unvisited current
    = before ++ visitNearest fuel route unvisited current.
Proof.
  induction fuel as [|fuel IH]; intros route unvisited current; simpl; [reflexivity|].
  destruct (unvisited !! _); [|reflexivity].
  now rewrite <- app_assoc, IH.
Qed.

Lemma calculateOptimalRoute_loop (p : point) (rest : list point) (startPoint : point) :
  CalculationUtils.calculateOptimalRoute (Some (p :: rest)) startPoint
  = visitNearest (length (p :: rest)) [] (p :: rest) startPoint.
Proof. now destruct rest. Qed.

(** X26.  [CalculationUtils.calculateOptimalRoute] returns no point for no
    points (or none given), and for points that are not empty the greedy
    tour of [nearestNeighborRoute]: the route of the service is the start
    point, the route of the utility, and the start point. *)
Theorem calculateOptimalRoute_is_the_greedy_tour (startPoint : point) :
  CalculationUtils.calculateOptimalRoute None startPoint = []
  ∧ CalculationUtils.calculateOptimalRoute (Some []) startPoint = []
  ∧ forall (p : point) (rest : list point),
      let tour := CalculationUtils.calculateOptimalRoute (Some (p :: rest)) startPoint in
      nearestNeighborRoute (p :: rest) startPoint = [startPoint] ++ tour ++ [startPoint]
      ∧ greedyTour startPoint (p :: rest) tour
      ∧ tour ≡ₚ p :: rest.
Proof.
  split; [reflexivity|]. split; [reflexivity|]. intros p rest. cbn zeta.
  rewrite calculateOptimalRoute_loop.
  destruct (visitNearest_spec (length (p :: rest)) [] (p :: rest) startPoint)
    as (tour & E & Htour); [lia|].
  rewrite E. simpl app. split; [|split].
  - unfold nearestNeighborRoute. destruct (decide _) as [Hz|_]; [discriminate|].
    now rewrite (visitNearest_app _ [startPoint] []), E.
  - exact Htour.
  - eapply greedyTour_Permutation, Htour.
Qed.

Lemma last_of_cons {A} (l : list A) :
  forall x a b : A, default a (last (x :: l)) = default b (last (x :: l)).
Proof.
  induction l as [|y l IH]; intros x a b; [reflexivity|]. exact (IH y a b).
Qed.

Lemma addLeg_loop (rest : list point) :
  forall (first : point) (total : float),
    fold_left CalculationUtils.addLeg rest (total, first)
    = (fold_left (fun total '(a, b) => total + calculateDistance a b)
                 (zip (first :: rest) rest) total,
       default first (last (first :: rest))).
Proof.
  induction rest as [|p rest IH]; intros first total; [reflexivity|].
  cbn [fold_left zip zip_with]. unfold CalculationUtils.addLeg at 2. cbn [fst snd].
  rewrite IH. f_equal.
  change (last (first :: p :: rest)) with (last (p :: rest)). apply last_of_cons.
Qed.

(** X27.  The two routines that measure a route agree:
    [CalculationUtils.calculateTotalRouteDistance] and
    [calculateRouteDistance] of the service return the same Number for
    every route and base, and the utility returns 0 when no route is
    given. *)
Theorem calculateTotalRouteDistance_agrees (route : list point) (basePoint : point) :
  CalculationUtils.calculateTotalRouteDistance (Some route) basePoint
  = calculateRouteDistance route basePoint
  ∧ CalculationUtils.calculateTotalRouteDistance None basePoint = 0.
Proof.
  split; [|reflexivity]. destruct route as [|first rest]; [reflexivity|].
  unfold CalculationUtils.calculateTotalRouteDistance, calculateRouteDistance. cbn zeta.
  rewrite addLeg_loop. cbn [fst snd tail].
  now rewrite (FloatArith.add_zero_l _ (calculateDistance_unsigned basePoint first)).
Qed.

(** The time estimate of the utility, on orders that are not empty: the
    travel time along the greedy tour, 3 minutes per order, 5 of loading. *)
Lemma estimateDeliveryTime_unfold (d : drone) (o : order) (orders : list order)
    (baseX baseY : option float) :
  let basePoint := Point (default 0 baseX) (default 0 baseY) None None in
  let tour := CalculationUtils.calculateOptimalRoute
                (Some (map ord_location (o :: orders))) basePoint in
  CalculationUtils.estimateDeliveryTime d (Some (o :: orders)) baseX baseY
  = calculateRouteDistance tour basePoint / drn_speed d * 60
    + of_nat (length (o :: orders)) * 3 + 5.
Proof.
  cbn zeta. unfold CalculationUtils.estimateDeliveryTime. cbn zeta.
  unfold CalculationUtils.calculateTravelTime.
  set (route := CalculationUtils.calculateOptimalRoute _ _).
  assert (E : CalculationUtils.calculateTotalRouteDistance (Some route) 
                (Point (default 0 baseX) (default 0 baseY) None None)
              = calculateRouteDistance route
                  (Point (default 0 baseX) (default 0 baseY) None None)).
  { destruct route as [|first rest]; [reflexivity|].
    unfold CalculationUtils.calculateTotalRouteDistance, calculateRouteDistance. cbn zeta.
    rewrite addLeg_loop. cbn [fst snd tail].
    now rewrite (FloatArith.add_zero_l _ (calculateDistance_unsigned _ first)). }
  now rewrite E.
Qed.

(** X28.  [estimateDeliveryTime] is 0 for no orders; for orders with finite
    locations and a base with finite coordinates, the distance it converts
    to travel time is the length of the greedy tour of the orders'
    locations from the base, a length that is not NaN and not negative. *)
Theorem estimateDeliveryTime_of_the_greedy_tour (d : drone) (o : order)
    (orders : list order) (baseX baseY : float) :
  Forall (fun o => finitePoint (ord_location o)) (o :: orders) ->
  PrimFloat.is_finite baseX = true -> PrimFloat.is_finite baseY = true ->
  let basePoint := Point baseX baseY None None in
  exists tour,
    greedyTour basePoint (map ord_location (o :: orders)) tour
    ∧ isLength (calculateRouteDistance tour basePoint)
    ∧ CalculationUtils.estimateDeliveryTime d (Some (o :: orders)) (Some baseX) (Some baseY)
      = calculateRouteDistance tour basePoint / drn_speed d * 60
        + of_nat (length (o :: orders)) * 3 + 5.
Proof.
  intros Hfin Hx Hy basePoint.
  pose proof (estimateDeliveryTime_unfold d o orders (Some baseX) (Some baseY)) as E.
  cbv [default from_option id] in E. cbv zeta in E. fold basePoint in E.
  set (tour := CalculationUtils.calculateOptimalRoute _ _) in E.
  exists tour.
  assert (Hg : greedyTour basePoint (map ord_location (o :: orders)) tour).
  { destruct (visitNearest_spec (length (ord_location o :: map ord_location orders)) []
                (ord_location o :: map ord_location orders) basePoint)
      as (t & Et & Ht); [lia|].
    unfold tour. cbn [map]. rewrite calculateOptimalRoute_loop, Et. exact Ht. }
  split; [exact Hg|]. split; [|exact E].
  apply FloatArith.signed_isLength, calculateRouteDistance_signed; [|now split].
  rewrite (greedyTour_Permutation _ _ _ Hg). now apply Forall_fmap.
Qed.

Lemma estimateDeliveryTime_of_the_greedy_tour_witness :
  exists tour,
    greedyTour (Point 0 0 None None)
               (map ord_location [pendingOrder; lowPriorityOrder]) tour
    ∧ isLength (calculateRouteDistance tour (Point 0 0 None None))
    ∧ CalculationUtils.estimateDeliveryTime idleDrone (Some [pendingOrder; lowPriorityOrder])
        (Some 0) (Some 0)
      = calculateRouteDistance tour (Point 0 0 None None) / drn_speed idleDrone * 60
        + of_nat (length [pendingOrder; lowPriorityOrder]) * 3 + 5.
Proof.
  apply (estimateDeliveryTime_of_the_greedy_tour idleDrone pendingOrder [lowPriorityOrder]
           0 0).
  - repeat constructor.
  - reflexivity.
  - reflexivity.
Defined.

Lemma ltb_leb (a b : float) : (a <? b) = true -> (a <=? b) = true.
Proof.
  rewrite FloatAxioms.ltb_spec, FloatAxioms.leb_spec. unfold SFltb, SFleb.
  now destruct (SFcompare (Prim2SF a) (Prim2SF b)) as [[]|].
Qed.

Lemma Math_max_zero (x : float) :
  Math_max [0; x] = if PrimFloat.is_nan x then nan else if 0 <? x then x else 0.
Proof.
  unfold Math_max. cbn [fold_left].
  replace (max_step neg_infinity 0) with 0 by reflexivity.
  unfold max_step.
  replace (PrimFloat.is_nan 0) with false by reflexivity.
  replace (is_neg_zero 0) with false by reflexivity.
  now rewrite andb_false_r.
Qed.

Lemma Math_min_hundred (y : float) :
  Math_min [100; y] = if PrimFloat.is_nan y then nan else if y <? 100 then y else 100.
Proof.
  unfold Math_min. cbn [fold_left].
  replace (min_step infinity 100) with 100 by reflexivity.
  unfold min_step.
  replace (PrimFloat.is_nan 100) with false by reflexivity.
  replace (is_pos_zero 100) with false by reflexivity.
  now rewrite andb_false_r.
Qed.

(** X29.  [calculateEfficiencyScore] returns a score between 0 and 100,
    or NaN; it is 0 when no delivery was completed. *)
Theorem calculateEfficiencyScore_range (deliveriesCompleted totalDistance batteryUsed : float) :
  let score :=
    CalculationUtils.calculateEfficiencyScore deliveriesCompleted totalDistance batteryUsed in
  ((deliveriesCompleted =? 0) = true -> score = 0)
  ∧ (PrimFloat.is_nan score = true
     ∨ ((0 <=? score) = true ∧ (score <=? 100) = true)).
Proof.
  cbn zeta. unfold CalculationUtils.calculateEfficiencyScore.
  destruct (deliveriesCompleted =? 0).
  { split; [reflexivity|]. right. split; reflexivity. }
  split; [discriminate|]. cbn zeta.
  set (score := _ * 50 + _ * 0.5).
  rewrite Math_min_hundred, Math_max_zero.
  destruct (PrimFloat.is_nan score) eqn:Hnan; [now left|].
  destruct (0 <? score) eqn:Hpos.
  - rewrite Hnan. destruct (score <? 100) eqn:Hlt; right.
    + split; now apply ltb_leb.
    + split; reflexivity.
  - right. split; reflexivity.
Qed.

(* ===================================================================== *)
(** ** [CalculationUtils]: groups by proximity                            *)
(* ===================================================================== *)

Lemma unprocessed_below (rest : list order) :
  forall (j k : nat) (processed : gset nat),
    (k < j)%nat ->
    unprocessed rest j (processed ∪ {[k]}) = unprocessed rest j processed.
Proof.
  induction rest as [|o rest IH]; intros j k processed Hk; simpl; [reflexivity|].
  rewrite (IH (S j) k processed) by lia.
  destruct (decide (j ∈ processed ∪ {[k]})) as [H1|H1],
           (decide (j ∈ processed)) as [H2|H2]; try reflexivity.
  - apply elem_of_union in H1 as [H1|H1]; [tauto|].
    apply elem_of_singleton in H1. lia.
  - exfalso. apply H1, elem_of_union. now left.
Qed.

(** The inner loop adds to the group the orders not yet processed that are
    within the threshold of the seed, and marks them; it marks no index
    below [j]. *)
Lemma collectNear_spec (seed : order) (threshold : float) (rest : list order) :
  forall (j : nat) (group : list order) (processed : gset nat),
    exists added processed',
      CalculationUtils.collectNear seed threshold rest j group processed
      = (group ++ added, processed')
      ∧ Forall (fun o => (calculateDistance (ord_location seed) (ord_location o)
                          <=? threshold) = true) added
      ∧ added ++ unprocessed rest j processed' ≡ₚ unprocessed rest j processed
      ∧ (forall k, (k < j)%nat -> k ∈ processed' <-> k ∈ processed).
Proof.
  induction rest as [|candidate rest IH]; intros j group processed; simpl.
  - exists [], processed. rewrite app_nil_r. repeat split; auto.
  - destruct (decide (j ∈ processed)) as [Hj|Hj].
    + destruct (IH (S j) group processed) as (added & processed' & -> & Hnear & Hperm & Hlow).
      exists added, processed'. split; [reflexivity|]. split; [assumption|].
      split; [|intros k Hk; apply Hlow; lia].
      destruct (decide (j ∈ processed')) as [_|Hout]; [assumption|].
      exfalso. apply Hout, Hlow; [lia|assumption].
    + destruct (calculateDistance _ _ <=? threshold) eqn:Hd.
      * destruct (IH (S j) (group ++ [candidate]) (processed ∪ {[j]}))
          as (added & processed' & -> & Hnear & Hperm & Hlow).
        exists (candidate :: added), processed'.
        split; [now rewrite <- app_assoc|]. split; [now constructor|]. split.
        -- destruct (decide (j ∈ processed')) as [_|Hout].
           ++ simpl. apply perm_skip.
              rewrite Hperm. now rewrite unprocessed_below by lia.
           ++ exfalso. apply Hout, Hlow; [lia|]. apply elem_of_union. right.
              now apply elem_of_singleton.
        -- intros k Hk. rewrite Hlow by lia. rewrite elem_of_union, elem_of_singleton.
           split; [intros [?|?]; [assumption|lia]|now left].
      * destruct (IH (S j) group processed) as (added & processed' & -> & Hnear & Hperm & Hlow).
        exists added, processed'. split; [reflexivity|]. split; [assumption|].
        split; [|intros k Hk; apply Hlow; lia].
        destruct (decide (j ∈ processed')) as [Hin|_].
        -- exfalso. apply Hj, Hlow; [lia|assumption].
        -- rewrite <- Permutation_middle. now apply perm_skip.
Qed.

Lemma groupFrom_spec (threshold : float) (rest : list order) :
  forall (i : nat) (groups : list (list order)) (processed : gset nat),
    Forall (aroundSeed threshold) groups ->
    concat (CalculationUtils.groupFrom threshold rest i groups processed)
      ≡ₚ concat groups ++ unprocessed rest i processed
    ∧ Forall (aroundSeed threshold)
             (CalculationUtils.groupFrom threshold rest i groups processed).
Proof.
  induction rest as [|seed rest IH]; intros i groups processed Hok; simpl.
  - rewrite app_nil_r. auto.
  - destruct (decide (i ∈ processed)) as [Hi|Hi]; [now apply IH|].
    destruct (collectNear_spec seed threshold rest (S i) [seed] (processed ∪ {[i]}))
      as (added & processed' & -> & Hnear & Hperm & Hlow).
    destruct (IH (S i) (groups ++ [[seed] ++ added]) processed') as [Hp Hk].
    { apply Forall_app. split; [assumption|]. constructor; [exact Hnear|constructor]. }
    split; [|exact Hk].
    rewrite Hp, concat_app. simpl. rewrite app_nil_r, <- app_assoc. simpl.
    apply Permutation_app_head, perm_skip.
    rewrite Hperm. now rewrite unprocessed_below by lia.
Qed.

Lemma unprocessed_none (rest : list order) (i : nat) : unprocessed rest i ∅ = rest.
Proof.
  revert i. induction rest as [|o rest IH]; intros i; simpl; [reflexivity|].
  destruct (decide (i ∈ (∅ : gset nat))) as [H|_]; [set_solver|]. now rewrite IH.
Qed.

(** X30.  [groupOrdersByProximity] partitions the orders: the groups
    together are a permutation of the orders; no group is empty; and in
    every group each order is within the threshold of the location of the
    first order of the group. *)
Theorem groupOrdersByProximity_partition (orders : list order)
    (proximityThreshold : option float) :
  let groups := CalculationUtils.groupOrdersByProximity orders proximityThreshold in
  concat groups ≡ₚ orders
  ∧ Forall (fun g => g ≠ []) groups
  ∧ Forall (aroundSeed (default 5 proximityThreshold)) groups.
Proof.
  cbn zeta. unfold CalculationUtils.groupOrdersByProximity.
  destruct (groupFrom_spec (default 5 proximityThreshold) orders 0 [] ∅) as [Hp Hk];
    [constructor|].
  rewrite unprocessed_none in Hp. simpl in Hp.
  split; [exact Hp|]. split; [|exact Hk].
  eapply Forall_impl; [exact Hk|]. intros g Hg ->. exact Hg.
Qed.

(* ===================================================================== *)
(** ** The embedding on the examples of the repository's tests            *)
(* ===================================================================== *)

(** Tasks at (10,10), (20,20), (30,30) and the origin (0,0). *)
Example nearestNeighborRoute_end_to_end :
  nearestNeighborRoute
    [Point 10 10 None None; Point 20 20 None None; Point 30 30 None None] origin
  = [origin; Point 10 10 None None; Point 20 20 None None; Point 30 30 None None; origin].
Proof. vm_compute. reflexivity. Qed.

(** The nearest point is visited first, whatever its place in the array. *)
Example nearestNeighborRoute_nearest_first :
  nearestNeighborRoute
    [Point 10 10 None None; Point 20 20 None None; Point 5 5 None None] origin
  = [origin; Point 5 5 None None; Point 10 10 None None; Point 20 20 None None; origin].
Proof. vm_compute. reflexivity. Qed.

(** The centre of (0,0), (10,0), (5,10). *)
Example calculateCenterLocation_triangle :
  calculateCenterLocation
    [Point 0 0 None None; Point 10 0 None None; Point 5 10 None None]
  = Point 5 (10 / 3) None None.
Proof. vm_compute. reflexivity. Qed.

(** The chain (0,0), (3,4), (6,8) has length 10. *)
Example calculateGroupDistance_chain :
  calculateGroupDistance
    [Order "a" 1 (Point 0 0 None None) "alta" "pending" 0;
     Order "b" 1 (Point 3 4 None None) "alta" "pending" 0;
     Order "c" 1 (Point 6 8 None None) "alta" "pending" 0]
  = 10.
Proof. vm_compute. reflexivity. Qed.

(** The orders of the capacity test end up in two groups. *)
Example groupOrdersForOptimalDelivery_heavy :
  (groupOrdersForOptimalDelivery heavyOrders testDrones).1
  = [[heavyOrder]; [Order "heavy2" 12 (Point 15 15 None None) "alta" "pending" 90]].
Proof. vm_compute. reflexivity. Qed.

(** Two routes with three orders, battery estimates 40 and 20, times 60 and 30. *)
Example calculateOptimizationStats_two_routes :
  calculateOptimizationStats
    [OptimizedRoute idleDrone [pendingOrder; lowPriorityOrder] [] 60 40;
     OptimizedRoute idleDrone [lowPriorityOrder] [] 30 20]
  = OptimizationStats 2 3 30 45 10 1.5.
Proof. vm_compute. reflexivity. Qed.

(** One order of each class, at most 5 drones, 10 operating hours. *)
Example optimizeFleetAllocation_three_orders :
  let result :=
    optimizeFleetAllocation
      [pendingOrder; Order "order2" 4 (Point 25 30 None None) "media" "pending" 80;
       lowPriorityOrder]
      (Constraints (Some 5) (Some 8) None (Some 10)) in
  fa_totalDrones result = 3 ∧ fa_utilizationRate result = 60 ∧ fa_bottleneck result = None.
Proof. vm_compute. repeat split; reflexivity. Qed.

(** The pass on the drones and three orders of the tests: one route for
    the first drone, with all three orders. *)
Example optimizeDeliveryRoutes_pass :
  match optimizeDeliveryRoutes (fun _ => 0) testDrones
          [pendingOrder; Order "order2" 4 (Point 25 30 None None) "media" "pending" 80;
           lowPriorityOrder] None zeroDraws with
  | Success [r] _ algorithm =>
      drn_id (or_drone r) = "drone1"
      ∧ ord_id <$> or_orders r = ["order1"; "order2"; "order3"]
      ∧ length (or_route r) = 5%nat
      ∧ algorithm = "nearest_neighbor"
  | _ => False
  end.
Proof. vm_compute. repeat split; reflexivity. Qed.

(** Two of three points are within 10 of the origin. *)
Example calculateCoverage_two_of_three :
  calculateCoverage origin
    [Point 3 4 None None; Point 6 8 None None; Point 15 0 None None] 10
  = 2 / 3 * 100.
Proof. vm_compute. reflexivity. Qed.

(** One base for (10,10), (20,20), (30,30): their centre, which covers all
    three within 50. *)
Example optimizeBaseLocations_single_base :
  exists averageDistance,
    optimizeBaseLocations
      [Point 10 10 None None; Point 20 20 None None; Point 30 30 None None]
      (Some 1%nat) zeroDraws
    = Returns (SingleBase [Point 20 20 None None] averageDistance 100) zeroDraws.
Proof. eexists. vm_compute. reflexivity. Qed.

(** Two bases for (0,0), (10,10), (50,50), (60,60): the call throws. *)
Example optimizeBaseLocations_two_bases :
  optimizeBaseLocations
    [Point 0 0 None None; Point 10 10 None None; Point 50 50 None None;
     Point 60 60 None None]
    (Some 2%nat) zeroDraws
  = Throws ReferenceError.
Proof. vm_compute. reflexivity. Qed.

(** Orders at (0,0), (3,4), (20,20), (0,5) and the threshold 5: the first,
    the second and the fourth make one group, the third one of its own. *)
Example groupOrdersByProximity_two_groups :
  map (map ord_id)
      (CalculationUtils.groupOrdersByProximity
         [Order "a" 1 (Point 0 0 None None) "alta" "pending" 0;
          Order "b" 1 (Point 3 4 None None) "alta" "pending" 0;
          Order "c" 1 (Point 20 20 None None) "alta" "pending" 0;
          Order "d" 1 (Point 0 5 None None) "alta" "pending" 0] None)
  = [["a"; "b"; "d"]; ["c"]].
Proof. vm_compute. reflexivity. Qed.

(** The utility and the service measure the route (3,4), (6,8) from the
    origin alike: 5 + 5 + 10. *)
Example calculateTotalRouteDistance_round_trip :
  CalculationUtils.calculateTotalRouteDistance
    (Some [Point 3 4 None None; Point 6 8 None None]) origin = 20
  ∧ calculateRouteDistance [Point 3 4 None None; Point 6 8 None None] origin = 20.
Proof. split; vm_compute; reflexivity. Qed.
